(** * A weighted order-k Markov model of names: [train] and [generate]

    Shallow embedding of [MarkovNameGenerator] (name_generator.py) and the
    properties of its transition table and of constrained generation.

    Conventions of the embedding.
    - A Python [str] is a list of characters.  A character is a Unicode code
      point of the Latin-1 range (0..255), held in an [ascii]; the range
      contains the whole alphabet the validators accept (ASCII letters, the
      six letters a-umlaut, o-umlaut, a-ring in both cases, hyphen,
      apostrophe), the white space of Latin-1 and both boundary markers.
      Code points above 255 are outside the embedding.
    - The order is a natural number; lengths given to [generate] and
      weights are integers ([Z]).
    - [self.chains], a [defaultdict(Counter)], is a [gmap] from contexts to
      [gmap]s from characters to integer weights.  Reading a missing context
      through [self.chains[context]] stores an empty counter, as defaultdict
      does; this is written out where the source does it.  The insertion
      order of a dict is not kept: a counter is listed in the order of the
      [gmap].
    - The process-wide random generator is a sequence [rnd : nat -> Z] of
      numbers and a cursor into it, threaded through [generate]; the
      theorems hold for every sequence.  The one float of [generate], the
      total weight inside [random.choices], is held by its range: a total
      of magnitude [float_limit] or more raises [OverflowError].
    - The recursion of [generate] on itself is bounded by a fuel argument,
      the number of nested calls allowed; [RecursionExceeded] stands for a
      chain of nested calls that is longer.
    - Around the class: the float average of [get_stats] is held as the
      exact fraction of its two integers; the loop of [main] that collects
      names is [attempt_loop]; the loop of [load_names_from_csv] runs over
      rows that are lists of fields, with Python's [int] as a parameter,
      and the files are a function from a language and a gender to what the
      reader yields ([FileContent]); [generate_v1] is the method of
      main.py.  Paths, the splitting of lines into fields, argument parsing
      and printing are outside the embedding. *)

From Stdlib Require Import ZArith Ascii String List Bool Lia Permutation.
From Stdlib Require QArith.
From stdpp Require Import gmap strings list fin_maps.

Local Open Scope Z_scope.

(** ** Characters and strings *)

Abbreviation str := (list ascii).

Definition s2l (s : string) : str := list_ascii_of_string s.

Definition code (c : ascii) : N := N_of_ascii c.

Definition between (lo hi : N) (c : ascii) : bool :=
  ((lo <=? code c) && (code c <=? hi))%N.

Definition is_code (n : N) (c : ascii) : bool := (code c =? n)%N.

(** [str.isspace] / the class [\s] on Latin-1: TAB..CR, FS..US, space, NEL
    and the no-break space. *)
Definition isspace (c : ascii) : bool :=
  between 9 13 c || between 28 32 c || is_code 133 c || is_code 160 c.

(** The class [[a-zA-Z...]] of both validators: ASCII letters and the six
    Finnish/Swedish letters (228, 246, 229, 196, 214, 197). *)
Definition is_letter (c : ascii) : bool :=
  between 97 122 c || between 65 90 c
  || is_code 228 c || is_code 246 c || is_code 229 c
  || is_code 196 c || is_code 214 c || is_code 197 c.

(** The class of [_is_valid_name]: letters, [\s], hyphen, apostrophe. *)
Definition is_name_char (c : ascii) : bool :=
  is_letter c || isspace c || is_code 45 c || is_code 39 c.

Definition shift_code (d : Z) (c : ascii) : ascii :=
  ascii_of_N (Z.to_N (Z.of_N (code c) + d)).

(** [str.lower] on one Latin-1 character. *)
Definition lower_char (c : ascii) : ascii :=
  if between 65 90 c || (between 192 222 c && negb (is_code 215 c))
  then shift_code 32 c else c.

(** Title-case (= upper-case) mapping of one Latin-1 character.  The three
    lower-case Latin-1 characters whose upper case is not a single Latin-1
    character (181, 223, 255) are left unchanged; no validator accepts
    them. *)
Definition upper_char (c : ascii) : ascii :=
  if between 97 122 c || (between 224 254 c && negb (is_code 247 c))
  then shift_code (-32) c else c.

(** Cased characters of Latin-1. *)
Definition is_cased (c : ascii) : bool :=
  between 65 90 c || between 97 122 c
  || is_code 170 c || is_code 181 c || is_code 186 c
  || between 192 214 c || between 216 246 c || between 248 255 c.

Definition lower (s : str) : str := map lower_char s.

(** [str.title]: a character is title-cased when the previous one is not
    cased, and lower-cased otherwise. *)
Fixpoint title_from (previous_is_cased : bool) (s : str) : str :=
  match s with
  | [] => []
  | c :: t =>
      (if previous_is_cased then lower_char c else upper_char c)
        :: title_from (is_cased c) t
  end.

Definition title (s : str) : str := title_from false s.

Fixpoint lstrip (s : str) : str :=
  match s with
  | [] => []
  | c :: t => if isspace c then lstrip t else s
  end.

Fixpoint rstrip (s : str) : str :=
  match s with
  | [] => []
  | c :: t =>
      match rstrip t with
      | [] => if isspace c then [] else [c]
      | r => c :: r
      end
  end.

(** [str.strip()] *)
Definition strip (s : str) : str := rstrip (lstrip s).

(** The cleaning [s.lower().strip()] of both constraints of [generate]. *)
Definition clean_constraint (s : str) : str := strip (lower s).

(** [re.sub(r'\s+', ' ', s)]: every maximal run of white space becomes one
    space. *)
Fixpoint collapse_from (in_run : bool) (s : str) : str :=
  match s with
  | [] => []
  | c :: t =>
      if isspace c
      then (if in_run then collapse_from true t
            else " "%char :: collapse_from true t)
      else c :: collapse_from false t
  end.

Definition collapse_whitespace (s : str) : str := collapse_from false s.

Definition nonempty (s : str) : bool :=
  match s with [] => false | _ => true end.

Definition str_eqb (a b : str) : bool := bool_decide (a = b).

(** [s.endswith(suffix)] *)
Definition endswith (s suffix : str) : bool :=
  (length suffix <=? length s)%nat
  && str_eqb (skipn (length s - length suffix) s) suffix.

(** [s.startswith(prefix)] *)
Definition startswith (s prefix : str) : bool :=
  str_eqb (firstn (length prefix) s) prefix.

(** ** Validators and cleaning *)

(** [re.match(r'^[a-zA-Z...]+$', text.strip())]: the stripped text has no
    trailing newline, so the pattern matches exactly the non-empty strings
    made of the class. *)
Definition _is_valid_name_part (text : str) : bool :=
  let t := strip text in nonempty t && forallb is_letter t.

Definition _is_valid_name (name : str) : bool :=
  let t := strip name in nonempty t && forallb is_name_char t.

Definition _clean_name (name : str) : str :=
  title (collapse_whitespace (strip name)).

Definition _capitalize_name (name : str) : str := title name.

(** ** The model and training *)

Definition START : ascii := "^"%char.
Definition END : ascii := "$"%char.

Abbreviation Counter := (gmap ascii Z).
Abbreviation Chains := (gmap (list ascii) (gmap ascii Z)).

Record Model : Type := mkModel {
  order : nat;
  chains : Chains;
  names : list str
}.

(** [MarkovNameGenerator.__init__] *)
Definition __init__ (k : nat) : Model :=
  {| order := k; chains := ∅; names := [] |}.

(** [self.chains[context][next_char] += weight]: a missing context gets a
    fresh counter, a missing character counts 0. *)
Definition add_weight (ch : Chains) (context : str) (next_char : ascii)
    (weight : Z) : Chains :=
  let counter := default ∅ (ch !! context) in
  <[context := <[next_char := default 0 (counter !! next_char) + weight]> counter]> ch.

(** [padded_name[i:i + order]] *)
Definition slice (i j : nat) (s : str) : str := firstn (j - i) (skipn i s).

Definition padded_form (k : nat) (clean_name : str) : str :=
  repeat START k ++ lower clean_name ++ [END].

(** The body of the inner loop of [train] at index [i]. *)
Definition add_window (k : nat) (padded_name : str) (weight : Z)
    (ch : Chains) (i : nat) : Chains :=
  add_weight ch (slice i (i + k) padded_name) (nth (i + k) padded_name END) weight.

Definition add_windows (k : nat) (padded_name : str) (weight : Z)
    (ch : Chains) : Chains :=
  fold_left (add_window k padded_name weight)
            (seq 0 (length padded_name - k)) ch.

(** One iteration of the outer loop of [train]. *)
Definition train_step (k : nat) (st : Chains * list str) (ex : str * Z)
    : Chains * list str :=
  let '(ch, ns) := st in
  let '(name, weight) := ex in
  if _is_valid_name name then
    let clean_name := _clean_name name in
    (add_windows k (padded_form k clean_name) weight ch, ns ++ [clean_name])
  else st.

Inductive TrainError : Type := ArityMismatch.

(** [train]: [self.names] is reset, [self.chains] is not. *)
Definition train (m : Model) (names_in : list str) (weights : option (list Z))
    : TrainError + Model :=
  let weights := match weights with
                 | None => repeat 1 (length names_in)
                 | Some w => w
                 end in
  if negb (length names_in =? length weights)%nat then inl ArityMismatch
  else
    let '(ch, ns) := fold_left (train_step (order m))
                               (combine names_in weights) (chains m, []) in
    inr {| order := order m; chains := ch; names := ns |}.

Definition weight_of (ch : Chains) (context : str) (c : ascii) : option Z :=
  match ch !! context with
  | Some counter => counter !! c
  | None => None
  end.

(** ** Weighted choice *)

(** [itertools.accumulate(weights)] *)
Fixpoint accumulate_from (acc : Z) (ws : list Z) : list Z :=
  match ws with
  | [] => []
  | w :: t => (acc + w) :: accumulate_from (acc + w) t
  end.

Definition accumulate (ws : list Z) : list Z := accumulate_from 0 ws.

(** [bisect.bisect_right(a, x, lo, hi)]; the loop halves [hi - lo], so
    [hi - lo] rounds are enough. *)
Fixpoint bisect_rounds (rounds : nat) (a : list Z) (x : Z) (lo hi : nat) : nat :=
  match rounds with
  | O => lo
  | S rounds' =>
      if (lo <? hi)%nat then
        let mid := ((lo + hi) / 2)%nat in
        if x <? nth mid a 0 then bisect_rounds rounds' a x lo mid
        else bisect_rounds rounds' a x (mid + 1) hi
      else lo
  end.

Definition bisect (a : list Z) (x : Z) (lo hi : nat) : nat :=
  bisect_rounds (hi - lo) a x lo hi.

(** The exceptions of [generate]: the first four are [ValueError]s, the
    last is the [OverflowError] of [random.choices]. *)
Inductive Error : Type :=
| ModelNotTrained      (* "Model not trained yet. Call train() first." *)
| InvalidStart         (* "Invalid starting string ..." *)
| InvalidEnd           (* "Invalid ending string ..." *)
| WeightsNotPositive   (* "Total of weights must be greater than zero" *)
| WeightsOverflow.     (* "int too large to convert to float" *)

(** The least positive integer that has no [float]: the integers below it
    round to at most the largest float, [2^1024 - 2^971], and from it on
    the conversion raises [OverflowError]. *)
Definition float_limit : Z := 2 ^ 1024 - 2 ^ 970.

(** [random.choices(population, weights=weights)[0]].  The total is turned
    into a float first ([cum_weights[-1] + 0.0]), which raises
    [OverflowError] when it is out of the float range; a total that is not
    positive raises [ValueError].  The draw [random() * total] is compared
    with integers only, so its integer part decides; it is [r mod total]
    for the next number [r] of the source. *)
Definition random_choices (r : Z) (population : list ascii) (weights : list Z)
    : Error + ascii :=
  let cum_weights := accumulate weights in
  let total := List.last cum_weights 0 in
  if float_limit <=? Z.abs total then inl WeightsOverflow
  else if total <=? 0 then inl WeightsNotPositive
  else
    let hi := (length population - 1)%nat in
    inr (nth (bisect cum_weights (r mod total) 0 hi) population END).

(** ** Generation *)

Inductive Outcome : Type :=
| Returned (result : str)
| Raised (e : Error)
| RecursionExceeded.   (* more nested calls than the fuel allows *)

(** How the stepping loop is left: it runs to its end or breaks with a
    name, returns the result of a fresh call, or raises. *)
Inductive LoopExit : Type :=
| Finished (name : str)
| Restart
| LoopRaised (e : Error).

Inductive Flow : Type :=
| Stop (exit : LoopExit)
| Next (name context : str).

Definition _try_alternative_context (ch : Chains) (context : str) : bool :=
  existsb (fun i => bool_decide (is_Some (ch !! skipn i context)))
          (seq 1 (length context - 1)).

(** Lines 88-99: the in-progress name and the initial context. *)
Definition seed (k : nat) (start_with : str) : str * str :=
  if nonempty start_with then
    if (k <=? length start_with)%nat then
      (start_with,
       match k with
       | O => start_with                       (* start_with[-0:] *)
       | _ => skipn (length start_with - k) start_with
       end)
    else (start_with, repeat START (k - length start_with) ++ start_with)
  else ([], repeat START k).

Section Generation.

Variable rnd : nat -> Z.

(** One iteration of the [for] loop of [generate]: the loop is left
    ([Stop]) or goes on with a new name and context ([Next]). *)
Definition loop_body (k : nat) (min_length : Z) (start_with : str)
    (ch : Chains) (pos : nat) (name context : str) : Flow * Chains * nat :=
  if bool_decide (ch !! context = None)
     && negb (_try_alternative_context ch context)
  then (Stop (Finished name), ch, pos)                          (* break *)
  else
    let '(possible_chars, ch1) :=
      match ch !! context with
      | Some counter => (counter, ch)
      | None => (∅, <[context := ∅]> ch)    (* defaultdict stores the key *)
      end in
    let items := map_to_list possible_chars in
    match items with
    | [] => (Stop (Finished name), ch1, pos)                    (* break *)
    | _ =>
        match random_choices (rnd pos) (map fst items) (map snd items) with
        | inl e => (Stop (LoopRaised e), ch1, pos)
        | inr next_char =>
            if bool_decide (next_char = END) then
              if min_length <=? Z.of_nat (length name)
              then (Stop (Finished name), ch1, S pos)           (* break *)
              else if nonempty start_with
                   then (Stop Restart, ch1, S pos)
                   else (Next [] (repeat START k), ch1, S pos)  (* continue *)
            else (Next (name ++ [next_char])
                       (skipn 1 context ++ [next_char]), ch1, S pos)
        end
    end.

(** The [for] loop of [generate], [n] iterations left. *)
Fixpoint gen_loop (n : nat) (k : nat) (min_length : Z) (start_with : str)
    (ch : Chains) (pos : nat) (name context : str)
    : LoopExit * Chains * nat :=
  match n with
  | O => (Finished name, ch, pos)
  | S n' =>
      match loop_body k min_length start_with ch pos name context with
      | (Stop exit, ch1, pos1) => (exit, ch1, pos1)
      | (Next name1 context1, ch1, pos1) =>
          gen_loop n' k min_length start_with ch1 pos1 name1 context1
      end
  end.

(** The ways one iteration can go, read off [loop_body]. *)
Inductive body_case (k : nat) (min_length : Z) (start_with : str)
    (ch : Chains) (pos : nat) (name context : str)
    : Flow * Chains * nat -> Prop :=
| case_absent :
    ch !! context = None -> _try_alternative_context ch context = false ->
    body_case k min_length start_with ch pos name context
              (Stop (Finished name), ch, pos)
| case_backoff :
    ch !! context = None -> _try_alternative_context ch context = true ->
    body_case k min_length start_with ch pos name context
              (Stop (Finished name), <[context := ∅]> ch, pos)
| case_no_continuation :
    ch !! context = Some ∅ ->
    body_case k min_length start_with ch pos name context
              (Stop (Finished name), ch, pos)
| case_raise counter e :
    ch !! context = Some counter -> counter <> ∅ ->
    random_choices (rnd pos) (map fst (map_to_list counter))
                   (map snd (map_to_list counter)) = inl e ->
    body_case k min_length start_with ch pos name context
              (Stop (LoopRaised e), ch, pos)
| case_end counter w :
    ch !! context = Some counter -> counter !! END = Some w ->
    min_length <= Z.of_nat (length name) ->
    body_case k min_length start_with ch pos name context
              (Stop (Finished name), ch, S pos)
| case_restart counter w :
    ch !! context = Some counter -> counter !! END = Some w ->
    Z.of_nat (length name) < min_length -> start_with <> [] ->
    body_case k min_length start_with ch pos name context
              (Stop Restart, ch, S pos)
| case_reset counter w :
    ch !! context = Some counter -> counter !! END = Some w ->
    Z.of_nat (length name) < min_length -> start_with = [] ->
    body_case k min_length start_with ch pos name context
              (Next [] (repeat START k), ch, S pos)
| case_append counter c w :
    ch !! context = Some counter -> counter !! c = Some w -> c <> END ->
    body_case k min_length start_with ch pos name context
              (Next (name ++ [c]) (skipn 1 context ++ [c]), ch, S pos).

(** [generate(max_length, min_length, start_with, end_with)] on the table
    [ch] of a model of order [k], with the random cursor at [pos]. *)
Fixpoint generate (fuel : nat) (k : nat) (ch : Chains) (pos : nat)
    (max_length min_length : Z) (start_with end_with : str) {struct fuel}
    : Outcome * Chains * nat :=
  let again (ch' : Chains) (pos' : nat) (sw ew : str) :=
    match fuel with
    | O => (RecursionExceeded, ch', pos')
    | S fuel' => generate fuel' k ch' pos' max_length min_length sw ew
    end in
  if bool_decide (ch = ∅) then (Raised ModelNotTrained, ch, pos)
  else
    let start_with := strip (lower start_with) in
    if nonempty start_with && negb (_is_valid_name_part start_with)
    then (Raised InvalidStart, ch, pos)
    else
      let end_with := strip (lower end_with) in
      if nonempty end_with && negb (_is_valid_name_part end_with)
      then (Raised InvalidEnd, ch, pos)
      else
        let '(name, context) := seed k start_with in
        match gen_loop (Z.to_nat (max_length - Z.of_nat (length name)))
                       k min_length start_with ch pos name context with
        | (LoopRaised e, ch1, pos1) => (Raised e, ch1, pos1)
        | (Restart, ch1, pos1) => again ch1 pos1 start_with end_with
        | (Finished name, ch1, pos1) =>
            let '(res, ch2, pos2) :=
              if nonempty name
              then (Returned (_capitalize_name name), ch1, pos1)
              else again ch1 pos1 start_with end_with in
            match res with
            | Returned result =>
                if nonempty result && nonempty end_with
                   && negb (endswith (lower result) end_with)
                then again ch2 pos2 start_with end_with
                else (Returned result, ch2, pos2)
            | _ => (res, ch2, pos2)
            end
        end.

(** The nested call [self.generate(...)], while fuel lasts. *)
Definition retry (fuel : nat) (k : nat) (max_length min_length : Z)
    (start_with end_with : str) (ch : Chains) (pos : nat)
    : Outcome * Chains * nat :=
  match fuel with
  | O => (RecursionExceeded, ch, pos)
  | S fuel' => generate fuel' k ch pos max_length min_length start_with end_with
  end.

(** The stepping loop started from the seed. *)
Definition run_loop (k : nat) (max_length min_length : Z) (start_with : str)
    (ch : Chains) (pos : nat) : LoopExit * Chains * nat :=
  let '(name, context) := seed k start_with in
  gen_loop (Z.to_nat (max_length - Z.of_nat (length name)))
           k min_length start_with ch pos name context.

(** What happens after the loop (lines 136-140). *)
Definition finish (fuel : nat) (k : nat) (max_length min_length : Z)
    (start_with end_with : str) (name : str) (ch1 : Chains) (pos1 : nat)
    : Outcome * Chains * nat :=
  let '(res, ch2, pos2) :=
    if nonempty name
    then (Returned (_capitalize_name name), ch1, pos1)
    else retry fuel k max_length min_length start_with end_with ch1 pos1 in
  match res with
  | Returned result =>
      if nonempty result && nonempty end_with
         && negb (endswith (lower result) end_with)
      then retry fuel k max_length min_length start_with end_with ch2 pos2
      else (Returned result, ch2, pos2)
  | _ => (res, ch2, pos2)
  end.

End Generation.

(** ** Predicates on characters and tables *)

Definition not_marker (c : ascii) : Prop := c <> START /\ c <> END.


(** [ch'] is [ch] with empty counters stored under some missing contexts:
    all that reading [self.chains[context]] can do to the table. *)
Definition extends (ch ch' : Chains) : Prop :=
  forall ctx, ch' !! ctx = ch !! ctx \/ (ch !! ctx = None /\ ch' !! ctx = Some ∅).

(** Every stored weight is positive. *)
Definition weights_positive (ch : Chains) : Prop :=
  forall ctx counter c w, ch !! ctx = Some counter -> counter !! c = Some w -> 0 < w.

(** The total weight of a counter, as [random.choices] computes it. *)
Definition total_weight (counter : Counter) : Z :=
  List.last (accumulate (map snd (map_to_list counter))) 0.

(** The total weight of every counter has a [float]. *)
Definition totals_in_float_range (ch : Chains) : Prop :=
  map_Forall (fun _ counter => Z.abs (total_weight counter) < float_limit) ch.

(** Every context key has length [k]. *)
Definition keys_have_length (k : nat) (ch : Chains) : Prop :=
  forall ctx, is_Some (ch !! ctx) -> length ctx = k.

(** No transition targets the start marker and, for an order of at least
    1, no transition out of the all-start context targets the end marker. *)
Definition targets_ok (k : nat) (ch : Chains) : Prop :=
  forall ctx counter c w, ch !! ctx = Some counter -> counter !! c = Some w ->
    c <> START /\ ((1 <= k)%nat -> ctx = repeat START k -> c <> END).

(** The all-start context is a key with a continuation. *)
Definition has_start (k : nat) (ch : Chains) : Prop :=
  exists counter, ch !! repeat START k = Some counter /\ counter <> ∅.

(** A non-empty table has the all-start context, with a continuation. *)
Definition start_present (k : nat) (ch : Chains) : Prop :=
  ch <> ∅ -> has_start k ch.

(** The weight stored for a transition, 0 when there is none. *)
Definition stored (ch : Chains) (context : str) (c : ascii) : Z :=
  default 0 (weight_of ch context c).

(** Index [i] of the inner loop of [train] adds to the entry of
    [(context, c)]. *)
Definition window_at (k : nat) (padded_name : str) (context : str) (c : ascii)
    (i : nat) : bool :=
  bool_decide (slice i (i + k) padded_name = context
               /\ nth (i + k) padded_name END = c).

(** How many windows of the padded name are [(context, c)]. *)
Definition occurrences (k : nat) (padded_name : str) (context : str)
    (c : ascii) : nat :=
  length (List.filter (window_at k padded_name context c)
                      (seq 0 (length padded_name - k))).

(** What one example adds to the entry of [(context, c)]: its weight once
    for every occurrence of the window, nothing if the name is skipped. *)
Definition contribution (k : nat) (context : str) (c : ascii) (ex : str * Z)
    : Z :=
  if _is_valid_name (fst ex)
  then snd ex * Z.of_nat (occurrences k (padded_form k (_clean_name (fst ex))) context c)
  else 0.

Definition window_weight (k : nat) (corpus : list (str * Z)) (context : str)
    (c : ascii) : Z :=
  fold_right Z.add 0 (map (contribution k context c) corpus).

(** The sum as the specification words it: the weights of the examples
    whose padded form contains the window, each example counted once. *)
Definition contains_window (k : nat) (padded_name : str) (context : str)
    (c : ascii) : bool :=
  existsb (window_at k padded_name context c) (seq 0 (length padded_name - k)).

Definition weight_of_containing_examples (k : nat) (corpus : list (str * Z))
    (context : str) (c : ascii) : Z :=
  fold_right Z.add 0
    (map (fun ex : str * Z =>
            if _is_valid_name (fst ex)
               && contains_window k (padded_form k (_clean_name (fst ex))) context c
            then snd ex else 0) corpus).

(** The examples of a corpus that [train] accepts, and what one of them
    adds to the entry of [(context, c)]. *)
Definition accepted_examples (corpus : list (str * Z)) : list (str * Z) :=
  List.filter (fun ex => _is_valid_name (fst ex)) corpus.

Definition example_weight (k : nat) (context : str) (c : ascii)
    (ex : str * Z) : Z :=
  snd ex
  * Z.of_nat (occurrences k (padded_form k (_clean_name (fst ex))) context c).

(** ** Models that a program can build *)

Definition with_chains (m : Model) (ch : Chains) : Model :=
  {| order := order m; chains := ch; names := names m |}.

(** A model of order [k]: constructed, then trained and used for
    generation any number of times. *)
Inductive reachable (k : nat) : Model -> Prop :=
| reach_init : reachable k (__init__ k)
| reach_train m names_in weights m' :
    reachable k m -> train m names_in weights = inr m' -> reachable k m'
| reach_generate m rnd fuel pos max_length min_length start_with end_with
                 out ch' pos' :
    reachable k m ->
    generate rnd fuel (order m) (chains m) pos max_length min_length
             start_with end_with = (out, ch', pos') ->
    reachable k (with_chains m ch').

Definition table_inv (k : nat) (ch : Chains) : Prop :=
  keys_have_length k ch /\ targets_ok k ch /\ start_present k ch.

(** A call that keeps the table invariant [Inv] and ends with an outcome
    satisfying [Q]. *)
Definition call_ok (Inv : Chains -> Prop) (Q : Outcome -> Prop)
    (f : Chains -> nat -> Outcome * Chains * nat) : Prop :=
  forall ch pos out ch' pos',
    Inv ch -> f ch pos = (out, ch', pos') -> Q out /\ Inv ch'.

(** A constraint of [generate] that passes validation: empty after
    cleaning, or letters only. *)
Definition constraint_ok (s : str) : Prop :=
  nonempty (clean_constraint s)
  && negb (_is_valid_name_part (clean_constraint s)) = false.

Definition outcome_of (res : Outcome * Chains * nat) : Outcome := fst (fst res).
Definition table_of (res : Outcome * Chains * nat) : Chains := snd (fst res).

(** ** Sample models *)

Definition trained (k : nat) (names_in : list str) (weights : option (list Z))
    : Model :=
  match train (__init__ k) names_in weights with
  | inr m => m
  | inl _ => __init__ k
  end.

(** The corpus of the specification's scenario, order 2. *)
Definition juha_names : list str := [s2l "Juha"; s2l "Juho"; s2l "Jussi"].
Definition juha_weights : list Z := [100; 50; 10].
Definition juha_model : Model := trained 2 juha_names (Some juha_weights).

(** Two examples of one name whose weights cancel. *)
Definition cancelled_model : Model :=
  trained 2 [s2l "ab"; s2l "ab"] (Some [3; -3]).

(** A name with a tab between two letters, and the model trained on it. *)
Definition tabbed_name : str := ["a"%char; ascii_of_N 9; "b"%char].
Definition tabbed_model : Model := trained 2 [tabbed_name] None.

(** One call of [train] on a fresh model, and a second call with the same
    corpus. *)
Definition ab_once : Model := trained 2 [s2l "ab"] None.
Definition ab_twice : Model :=
  match train ab_once [s2l "ab"] None with
  | inr m => m
  | inl _ => ab_once
  end.

(** A name whose padded form holds the window ("n", "a") twice. *)
Definition nana_corpus : list (str * Z) := [(s2l "nana", 1)].
Definition nana_model : Model := trained 1 [s2l "nana"] (Some [1]).

(** The counter of the context "ju" in [juha_model]. *)
Definition ju_counter : gmap ascii Z :=
  <["h"%char := 150]> (<["s"%char := 10]> ∅).

Definition zero_draws : nat -> Z := fun _ => 0.
Definition spread_draws : nat -> Z := fun n => Z.of_nat n * 151.

(** ** Paths of the chain *)

(** [rest] can be read off the table from [context]: each character is a
    continuation of the current context other than the end marker, and the
    context slides by one. *)
Inductive chain_path (ch : Chains) : str -> str -> Prop :=
| path_nil context : chain_path ch context []
| path_cons context counter c w rest :
    ch !! context = Some counter -> counter !! c = Some w -> c <> END ->
    chain_path ch (skipn 1 context ++ [c]) rest ->
    chain_path ch context (c :: rest).

(** The context is not a key, or is a key without continuation. *)
Definition no_continuation (ch : Chains) (context : str) : Prop :=
  ch !! context = None \/ ch !! context = Some ∅.

(** ** The earlier entry point

    [generate] of main.py: the same method without [end_with]. *)
Fixpoint generate_v1 (rnd : nat -> Z) (fuel : nat) (k : nat) (ch : Chains)
    (pos : nat) (max_length min_length : Z) (start_with : str) {struct fuel}
    : Outcome * Chains * nat :=
  let again (ch' : Chains) (pos' : nat) (sw : str) :=
    match fuel with
    | O => (RecursionExceeded, ch', pos')
    | S fuel' => generate_v1 rnd fuel' k ch' pos' max_length min_length sw
    end in
  if bool_decide (ch = ∅) then (Raised ModelNotTrained, ch, pos)
  else
    let start_with := strip (lower start_with) in
    if nonempty start_with && negb (_is_valid_name_part start_with)
    then (Raised InvalidStart, ch, pos)
    else
      let '(name, context) := seed k start_with in
      match gen_loop rnd (Z.to_nat (max_length - Z.of_nat (length name)))
                     k min_length start_with ch pos name context with
      | (LoopRaised e, ch1, pos1) => (Raised e, ch1, pos1)
      | (Restart, ch1, pos1) => again ch1 pos1 start_with
      | (Finished name, ch1, pos1) =>
          if nonempty name
          then (Returned (_capitalize_name name), ch1, pos1)
          else again ch1 pos1 start_with
      end.

(** Every key of the table has at least one continuation. *)
Definition counters_nonempty (ch : Chains) : Prop :=
  forall ctx counter, ch !! ctx = Some counter -> counter <> ∅.

(** The table part of one iteration of the outer loop of [train]. *)
Definition chain_step (k : nat) (ch : Chains) (ex : str * Z) : Chains :=
  fst (train_step k (ch, []) ex).

(** [counter[c] += w] on one counter. *)
Definition bump (counter : gmap ascii Z) (c : ascii) (w : Z) : gmap ascii Z :=
  <[c := default 0 (counter !! c) + w]> counter.

(** White space of the string is made of single spaces (code 32), none of
    them next to another; [previous_is_space] tells whether white space
    comes just before the string. *)
Fixpoint spaced (previous_is_space : bool) (s : str) : bool :=
  match s with
  | [] => true
  | c :: t =>
      if isspace c
      then negb previous_is_space && is_code 32 c && spaced true t
      else spaced false t
  end.

(** ** Statistics *)

(** The dict of [get_stats].  The float quotient of the average is held as
    the exact fraction of the two integers. *)
Record Stats : Type := mkStats {
  training_names_count : nat;
  unique_contexts : nat;
  chain_order : nat;
  average_name_length : QArith_base.Q
}.

Definition total_name_length (ns : list str) : nat :=
  fold_right Nat.add 0%nat (map (fun n : str => length n) ns).

Definition get_stats (m : Model) : Stats :=
  {| training_names_count := length (names m);
     unique_contexts := size (chains m);
     chain_order := order m;
     average_name_length :=
       match names m with
       | [] => QArith_base.Qmake 0 1
       | _ => QArith_base.Qmake (Z.of_nat (total_name_length (names m)))
                                (Pos.of_nat (length (names m)))
       end |}.

(** ** The loop of [main] that collects names *)

(** How the [while] loop is left: its condition fails, a [ValueError] is
    caught and the loop broken, or an error that is no [ValueError] (the
    recursion limit, the overflow of the weighted draw) leaves [main]. *)
Inductive RunEnd : Type :=
| ConditionFailed
| ValueErrorCaught (e : Error)
| RecursionLimit
| OverflowRaised.

Record Run : Type := mkRun {
  run_end : RunEnd;
  generated_names : gset (list ascii);
  attempts : nat;
  run_table : Chains;
  run_pos : nat
}.

(** The [while] loop of [main] (lines 442-457), [remaining] being
    [max_attempts - attempts].  [depth] is the number of nested calls a call
    of [generate] may make. *)
Fixpoint attempt_loop (rnd : nat -> Z) (depth k : nat) (count : Z)
    (allow_duplicates : bool) (all_names : list str)
    (max_length min_length : Z) (start_with end_with : str)
    (remaining : nat) (generated : gset (list ascii)) (done : nat)
    (ch : Chains) (pos : nat) : Run :=
  match remaining with
  | O => mkRun ConditionFailed generated done ch pos
  | S remaining' =>
      if negb (Z.of_nat (size generated) <? count)
      then mkRun ConditionFailed generated done ch pos
      else
        match generate rnd depth k ch pos max_length min_length
                       start_with end_with with
        | (Returned name, ch', pos') =>
            let generated' :=
              if nonempty name
                 && (allow_duplicates || negb (bool_decide (name ∈ all_names)))
              then {[name]} ∪ generated
              else generated in
            attempt_loop rnd depth k count allow_duplicates all_names
                         max_length min_length start_with end_with
                         remaining' generated' (S done) ch' pos'
        | (Raised WeightsOverflow, ch', pos') =>
            mkRun OverflowRaised generated done ch' pos'
        | (Raised e, ch', pos') =>
            mkRun (ValueErrorCaught e) generated done ch' pos'
        | (RecursionExceeded, ch', pos') =>
            mkRun RecursionLimit generated done ch' pos'
        end
  end.

(** [generated_names = set(); attempts = 0; max_attempts = count * 10] and
    the loop. *)
Definition collect_names (rnd : nat -> Z) (depth k : nat) (count : Z)
    (allow_duplicates : bool) (all_names : list str)
    (max_length min_length : Z) (start_with end_with : str)
    (ch : Chains) (pos : nat) : Run :=
  attempt_loop rnd depth k count allow_duplicates all_names
               max_length min_length start_with end_with
               (Z.to_nat (count * 10)) ∅ 0%nat ch pos.

(** ** The rows of a name file

    The loop of [load_names_from_csv] over the rows that [csv.reader]
    yields (the same loop serves both encodings).  Opening and decoding the
    file and splitting its lines into fields are outside the embedding: a
    row is a list of fields.  [int] stands for Python's built-in [int] on
    a [str], [None] being its [ValueError]; nothing is assumed about it. *)

Fixpoint lstrip_chars (chars : ascii -> bool) (s : str) : str :=
  match s with
  | [] => []
  | c :: t => if chars c then lstrip_chars chars t else s
  end.

Fixpoint rstrip_chars (chars : ascii -> bool) (s : str) : str :=
  match s with
  | [] => []
  | c :: t =>
      match rstrip_chars chars t with
      | [] => if chars c then [] else [c]
      | r => c :: r
      end
  end.

(** [row[i].strip()] followed by the strip of the double quote (code 34)
    at both ends. *)
Definition field (s : str) : str :=
  rstrip_chars (is_code 34) (lstrip_chars (is_code 34) (strip s)).

(** The header words a name is compared with, lower-cased.  The third word
    of the source holds the replacement character U+FFFD, which no string
    of the embedding holds. *)
Definition header_words : list str :=
  [ [ "f"%char; ascii_of_N 246; "r"%char; "n"%char; "a"%char; "m"%char;
      "n"%char ];
    s2l "name" ].

Definition is_comma (c : ascii) : bool := is_code 44 c.

Section Rows.

Variable int : str -> option Z.

(** [int(prevalence_str.replace(',', ''))] when there is a comma,
    [int(prevalence_str)] otherwise. *)
Definition parse_prevalence (prevalence_str : str) : option Z :=
  if existsb is_comma prevalence_str
  then int (List.filter (fun c => negb (is_comma c)) prevalence_str)
  else int prevalence_str.

(** One iteration of [for row_num, row in enumerate(reader)]. *)
Definition read_row (language : str) (acc : list str * list Z)
    (numbered : nat * list str) : list str * list Z :=
  let '(names_acc, weights_acc) := acc in
  let '(row_num, row) := numbered in
  if (row_num =? 0)%nat && str_eqb language (s2l "swedish") then acc
  else
    match row with
    | c0 :: c1 :: _ =>
        let name := field c0 in
        let prevalence_str := field c1 in
        if negb (nonempty name)
           || bool_decide (lower name ∈ header_words)
        then acc
        else
          match parse_prevalence prevalence_str with
          | Some prevalence =>
              if 0 <? prevalence
              then (names_acc ++ [name], weights_acc ++ [prevalence])
              else acc
          | None => acc
          end
    | _ => acc
    end.

Definition read_rows (language : str) (rows : list (list str))
    (acc : list str * list Z) : list str * list Z :=
  fold_left (read_row language) (combine (seq 0 (length rows)) rows) acc.

End Rows.

(** What the loop keeps true of the two lists. *)
Definition rows_ok (acc : list str * list Z) : Prop :=
  length (fst acc) = length (snd acc)
  /\ Forall (fun w => 0 < w) (snd acc)
  /\ Forall (fun n : str => n <> [] /\ lower n ∉ header_words) (fst acc).

(** A second corpus for [juha_model], and the model after training on it. *)
Definition more_names : list str := [s2l "Aino"; s2l "x1"].
Definition more_weights : list Z := [7; 3].
Definition juha_more_model : Model :=
  {| order := 2;
     chains := fold_left (chain_step 2) (combine more_names more_weights)
                         (chains juha_model);
     names := map _clean_name (List.filter _is_valid_name more_names) |}.

(** The corpus of [juha_model] with its first two examples swapped. *)
Definition juha_names_swapped : list str := [s2l "Juho"; s2l "Juha"; s2l "Jussi"].
Definition juha_weights_swapped : list Z := [50; 100; 10].
Definition juha_swapped_model : Model :=
  {| order := 2;
     chains := fold_left (chain_step 2)
                         (combine juha_names_swapped juha_weights_swapped) ∅;
     names := map _clean_name (List.filter _is_valid_name juha_names_swapped) |}.

(** A run of the loop of [main] on [juha_model]. *)
Definition juha_run : Run :=
  collect_names spread_draws 5 2 2 false [s2l "Juha"] 10 2 [] []
                (chains juha_model) 0.

(** Rows of a name file, for the examples: fields in double quotes, a header
    row, a count that is no number, a count of 0, and a row of one field.
    [decimal] reads the strings of decimal digits. *)
Definition decimal (s : str) : option Z :=
  if nonempty s && forallb (between 48 57) s
  then Some (fold_left (fun a c => a * 10 + (Z.of_N (code c) - 48)) s 0)
  else None.

Definition quoted (s : str) : str :=
  ascii_of_N 34 :: s ++ [ascii_of_N 34].

Definition sample_rows : list (list str) :=
  [ [quoted (s2l "Juha"); quoted (s2l "29,887")];
    [s2l "Name"; s2l "Count"];
    [s2l " Aino "; s2l " 12 "];
    [s2l "Maria"; s2l "many"];
    [s2l "Anna"; s2l "0"];
    [s2l "Solo"] ].

(** ** From the name files to the training corpus

    What [load_names_from_csv] meets at the path of a language and a
    gender: no file; a file that the reader reads to its end as UTF-8,
    yielding [rows]; or a file whose decoding as UTF-8 fails after the
    reader has yielded [before], and which yields [rows] when opened again
    as Latin-1. *)
Inductive FileContent : Type :=
| Missing
| Decoded (rows : list (list str))
| DecodedAgain (before rows : list (list str)).

(** The dict of [load_names_by_language], keyed by ['boys'] and
    ['girls']. *)
Abbreviation NamesData := (gmap (list ascii) (list str * list Z)).

(** The two lookups of [main], from a name to its total prevalence. *)
Abbreviation Prevalence := (gmap (list ascii) Z).

(** [for n, w in zip(names, weights): d[n] = d.get(n, 0) + w] *)
Definition add_prevalences (lookup : Prevalence) (ns : list str)
    (ws : list Z) : Prevalence :=
  fold_left (fun d '(n, w) => <[n := default 0 (d !! n) + w]> d)
            (combine ns ws) lookup.

(** The total weight of the entries of a name. *)
Definition total_prevalence (n : str) (entries : list (str * Z)) : Z :=
  fold_right Z.add 0
             (map snd (List.filter (fun e => str_eqb (fst e) n) entries)).

(** The first loop of [main] over the two genders when the language is
    ['both']. *)
Definition merge_languages (names_data_fi names_data_sv : NamesData)
    : NamesData :=
  fold_left (fun names_data gender =>
               let '(names_fi, weights_fi) :=
                 default ([], []) (names_data_fi !! gender) in
               let '(names_sv, weights_sv) :=
                 default ([], []) (names_data_sv !! gender) in
               <[gender := (names_fi ++ names_sv, weights_fi ++ weights_sv)]>
                 names_data)
            [s2l "boys"; s2l "girls"] ∅.

(** The loop of [main] that fills [all_names] and [all_weights]. *)
Definition combine_genders (names_data : NamesData) (gender_arg : str)
    : list str * list Z :=
  fold_left (fun acc gender =>
               match names_data !! gender with
               | Some (gender_names, gender_weights) =>
                   if bool_decide (gender_arg ∈ [gender; s2l "both"])
                   then (fst acc ++ gender_names, snd acc ++ gender_weights)
                   else acc
               | None => acc
               end)
            [s2l "boys"; s2l "girls"] ([], []).

Section Files.

Variable int : str -> option Z.
Variable files : str -> str -> FileContent.

(** [None] is the [FileNotFoundError].  The second pass runs on the lists
    as the first pass left them. *)
Definition load_names_from_csv (language gender : str)
    : option (list str * list Z) :=
  match files language gender with
  | Missing => None
  | Decoded rows => Some (read_rows int language rows ([], []))
  | DecodedAgain before rows =>
      Some (read_rows int language rows
                      (read_rows int language before ([], [])))
  end.

Definition load_names_by_language (language gender : str) : NamesData :=
  let result : NamesData := ∅ in
  let result :=
    if bool_decide (gender ∈ [s2l "boys"; s2l "both"])
    then <[s2l "boys" :=
             default ([], []) (load_names_from_csv language (s2l "male"))]>
           result
    else result in
  let result :=
    if bool_decide (gender ∈ [s2l "girls"; s2l "both"])
    then <[s2l "girls" :=
             default ([], []) (load_names_from_csv language (s2l "female"))]>
           result
    else result in
  result.

(** [names_data] of [main]. *)
Definition load_names_data (language gender : str) : NamesData :=
  if str_eqb language (s2l "both")
  then merge_languages (load_names_by_language (s2l "finnish") gender)
                       (load_names_by_language (s2l "swedish") gender)
  else load_names_by_language language gender.

(** [all_names, all_weights] of [main]. *)
Definition load_corpus (language gender : str) : list str * list Z :=
  combine_genders (load_names_data language gender) gender.

(** [main] up to the call of [train]; [None] when it returns for want of
    names. *)
Definition main_train (k : nat) (language gender : str)
    : option (TrainError + Model) :=
  let '(all_names, all_weights) := load_corpus language gender in
  match all_names with
  | [] => None
  | _ => Some (train (__init__ k) all_names (Some all_weights))
  end.

(** [finnish_prevalence, swedish_prevalence] of [main]. *)
Definition prevalence_lookups (language gender : str)
    : Prevalence * Prevalence :=
  if str_eqb language (s2l "both") then
    let names_data_fi := load_names_by_language (s2l "finnish") gender in
    let names_data_sv := load_names_by_language (s2l "swedish") gender in
    fold_left (fun lookups g =>
                 let '(n_fi, w_fi) := default ([], []) (names_data_fi !! g) in
                 let '(n_sv, w_sv) := default ([], []) (names_data_sv !! g) in
                 (add_prevalences (fst lookups) n_fi w_fi,
                  add_prevalences (snd lookups) n_sv w_sv))
              [s2l "boys"; s2l "girls"] (∅, ∅)
  else if str_eqb language (s2l "finnish") then
    fold_left (fun lookups g =>
                 match load_names_data language gender !! g with
                 | Some (n, w) =>
                     (add_prevalences (fst lookups) n w, snd lookups)
                 | None => lookups
                 end)
              [s2l "boys"; s2l "girls"] (∅, ∅)
  else
    fold_left (fun lookups g =>
                 match load_names_data language gender !! g with
                 | Some (n, w) =>
                     (fst lookups, add_prevalences (snd lookups) n w)
                 | None => lookups
                 end)
              [s2l "boys"; s2l "girls"] (∅, ∅).

End Files.

(** Two corpora put end to end. *)
Definition corpus_app (p q : list str * list Z) : list str * list Z :=
  (fst p ++ fst q, snd p ++ snd q).

(** Name files for the examples: the Finnish male file fails to decode
    after its first row, the Swedish female file decodes, and there is no
    other file. *)
Definition sample_files (language gender : str) : FileContent :=
  if str_eqb language (s2l "finnish") && str_eqb gender (s2l "male")
  then DecodedAgain (firstn 1 sample_rows) sample_rows
  else if str_eqb language (s2l "swedish") && str_eqb gender (s2l "female")
  then Decoded [[s2l "Name"; s2l "Count"]; [s2l "Aino"; s2l "5"]]
  else Missing.

(** ** Facts on characters

    Each is settled by running through the 256 code points. *)

Ltac each_code c :=
  destruct c as [[|] [|] [|] [|] [|] [|] [|] [|]]; vm_compute;
  try reflexivity; try discriminate; try tauto.

Lemma lower_char_idem c : lower_char (lower_char c) = lower_char c.
Proof. each_code c. Qed.

Lemma lower_upper_char c : lower_char (upper_char c) = lower_char c.
Proof. each_code c. Qed.

Lemma isspace_lower_char c : isspace (lower_char c) = isspace c.
Proof. each_code c. Qed.

Lemma lower_char_START c : lower_char c = START -> c = START.
Proof. each_code c. Qed.

Lemma lower_char_END c : lower_char c = END -> c = END.
Proof. each_code c. Qed.

Lemma upper_char_START c : upper_char c = START -> c = START.
Proof. each_code c. Qed.

Lemma upper_char_END c : upper_char c = END -> c = END.
Proof. each_code c. Qed.

Lemma is_letter_not_marker c : is_letter c = true -> c <> START /\ c <> END.
Proof. each_code c; intros _; split; discriminate. Qed.

Lemma is_name_char_not_marker c :
  is_name_char c = true -> c <> START /\ c <> END.
Proof. each_code c; intros _; split; discriminate. Qed.

Lemma is_letter_not_space c : is_letter c = true -> isspace c = false.
Proof. each_code c. Qed.

Lemma space_not_marker : " "%char <> START /\ " "%char <> END.
Proof. split; discriminate. Qed.

(** ** Facts on strings *)

Lemma nonempty_true (s : str) : nonempty s = true <-> s <> [].
Proof. destruct s; simpl; split; intros H; congruence. Qed.

Lemma nonempty_false (s : str) : nonempty s = false <-> s = [].
Proof. destruct s; simpl; split; intros H; congruence. Qed.

Lemma length_title_from b (s : str) : length (title_from b s) = length s.
Proof.
  revert b; induction s as [|c t IH]; intros b; simpl; [reflexivity|].
  now rewrite IH.
Qed.

Lemma length_title (s : str) : length (title s) = length s.
Proof. apply length_title_from. Qed.

Lemma lower_title_from b (s : str) : lower (title_from b s) = lower s.
Proof.
  revert b; induction s as [|c t IH]; intros b; simpl; [reflexivity|].
  unfold lower in IH. rewrite IH.
  destruct b; now rewrite ?lower_char_idem, ?lower_upper_char.
Qed.

Lemma lower_title (s : str) : lower (title s) = lower s.
Proof. apply lower_title_from. Qed.

Lemma lower_idem (s : str) : lower (lower s) = lower s.
Proof.
  unfold lower. rewrite map_map. apply map_ext. intros; apply lower_char_idem.
Qed.

Lemma title_nonempty (s : str) : s <> [] -> title s <> [].
Proof. destruct s; [congruence|]. intros _; unfold title; simpl; discriminate. Qed.

(** A predicate on characters kept by both case mappings is kept by
    [title] and by [lower]. *)
Section KeptByCase.
Variable P : ascii -> Prop.
Hypothesis P_lower : forall c, P c -> P (lower_char c).
Hypothesis P_upper : forall c, P c -> P (upper_char c).

Lemma Forall_title_from b (s : str) : Forall P s -> Forall P (title_from b s).
Proof.
  intros H; revert b; induction H as [|c t Hc Ht IH]; intros b; simpl;
    constructor; auto.
  destruct b; auto.
Qed.

Lemma Forall_lower (s : str) : Forall P s -> Forall P (lower s).
Proof.
  unfold lower. induction 1; simpl; constructor; auto.
Qed.
End KeptByCase.

Lemma not_marker_lower c : not_marker c -> not_marker (lower_char c).
Proof.
  intros [H1 H2]; split; intros E;
    [apply H1, lower_char_START | apply H2, lower_char_END]; exact E.
Qed.

Lemma not_marker_upper c : not_marker c -> not_marker (upper_char c).
Proof.
  intros [H1 H2]; split; intros E;
    [apply H1, upper_char_START | apply H2, upper_char_END]; exact E.
Qed.

Lemma lstrip_incl (s : str) c : In c (lstrip s) -> In c s.
Proof.
  induction s as [|a t IH]; simpl; [tauto|].
  destruct (isspace a); simpl; tauto.
Qed.

Lemma rstrip_incl (s : str) c : In c (rstrip s) -> In c s.
Proof.
  revert c; induction s as [|a t IH]; intros c; simpl; [tauto|].
  destruct (rstrip t) as [|b r] eqn:E.
  - destruct (isspace a); simpl; tauto.
  - intros [->|H]; [now left|right; apply IH; exact H].
Qed.

Lemma strip_incl (s : str) c : In c (strip s) -> In c s.
Proof. intros H. apply lstrip_incl, rstrip_incl, H. Qed.

Lemma lstrip_head (s : str) c t : lstrip s = c :: t -> isspace c = false.
Proof.
  induction s as [|a u IH]; simpl; [discriminate|].
  destruct (isspace a) eqn:E; [exact IH|].
  intros [= <- <-]; exact E.
Qed.

Lemma rstrip_cons_nonspace c (t : str) :
  isspace c = false -> rstrip (c :: t) = c :: rstrip t.
Proof. intros H; simpl; rewrite H; destruct (rstrip t); reflexivity. Qed.

Lemma rstrip_idem (s : str) : rstrip (rstrip s) = rstrip s.
Proof.
  induction s as [|c t IH]; simpl; [reflexivity|].
  destruct (rstrip t) as [|b r] eqn:E.
  - destruct (isspace c) eqn:Ec; simpl; [reflexivity|now rewrite Ec].
  - change (rstrip (c :: b :: r) = c :: b :: r).
    cbn [rstrip]. cbn [rstrip] in IH. now rewrite IH.
Qed.

Lemma strip_idem (s : str) : strip (strip s) = strip s.
Proof.
  unfold strip. destruct (lstrip s) as [|c t] eqn:E; [reflexivity|].
  pose proof (lstrip_head _ _ _ E) as Hc.
  rewrite (rstrip_cons_nonspace _ _ Hc). cbn [lstrip]. rewrite Hc.
  rewrite (rstrip_cons_nonspace _ _ Hc). now rewrite rstrip_idem.
Qed.

Lemma lstrip_lower (s : str) : lstrip (lower s) = lower (lstrip s).
Proof.
  induction s as [|c t IH]; [reflexivity|].
  change (lower (c :: t)) with (lower_char c :: lower t).
  cbn [lstrip]. rewrite isspace_lower_char.
  destruct (isspace c); [exact IH|reflexivity].
Qed.

Lemma rstrip_lower (s : str) : rstrip (lower s) = lower (rstrip s).
Proof.
  induction s as [|c t IH]; [reflexivity|].
  change (lower (c :: t)) with (lower_char c :: lower t).
  cbn [rstrip]. rewrite IH, isspace_lower_char.
  destruct (rstrip t); simpl; [destruct (isspace c)|]; reflexivity.
Qed.

Lemma strip_lower (s : str) : strip (lower s) = lower (strip s).
Proof. unfold strip. now rewrite lstrip_lower, rstrip_lower. Qed.

Lemma clean_constraint_idem (s : str) :
  clean_constraint (clean_constraint s) = clean_constraint s.
Proof.
  unfold clean_constraint.
  now rewrite !strip_lower, lower_idem, <- !strip_lower, strip_idem.
Qed.

Lemma lower_clean_constraint (s : str) :
  lower (clean_constraint s) = clean_constraint s.
Proof. unfold clean_constraint. now rewrite strip_lower, lower_idem. Qed.

Lemma valid_part_letters (s : str) :
  _is_valid_name_part s = true -> Forall (fun c => is_letter c = true) (strip s).
Proof.
  unfold _is_valid_name_part. intros [_ H]%andb_prop.
  apply List.Forall_forall. intros c Hc.
  rewrite forallb_forall in H. apply H. exact Hc.
Qed.

(** ** Weighted choice *)

Lemma bisect_rounds_range rounds a x lo hi :
  (lo <= hi)%nat ->
  (lo <= bisect_rounds rounds a x lo hi <= hi)%nat.
Proof.
  revert lo hi; induction rounds as [|n IH]; intros lo hi Hle;
    cbn [bisect_rounds]; [lia|].
  destruct (lo <? hi)%nat eqn:E; [|lia].
  apply Nat.ltb_lt in E.
  assert (Hmid : (lo <= (lo + hi) / 2 < hi)%nat).
  { split; [apply Nat.div_le_lower_bound; lia
           |apply Nat.Div0.div_lt_upper_bound; lia]. }
  destruct Hmid as [H1 H2]. set (mid := ((lo + hi) / 2)%nat) in *.
  destruct (x <? nth mid a 0).
  - pose proof (IH lo mid H1). lia.
  - assert (H3 : (mid + 1 <= hi)%nat) by lia.
    pose proof (IH (mid + 1)%nat hi H3). lia.
Qed.

Lemma random_choices_In r population weights c :
  population <> [] ->
  random_choices r population weights = inr c -> In c population.
Proof.
  unfold random_choices. intros Hne.
  destruct (float_limit <=? _); [discriminate|].
  destruct (List.last (accumulate weights) 0 <=? 0); [discriminate|].
  intros [= <-]. apply nth_In.
  pose proof (bisect_rounds_range (length population - 1 - 0)
                (accumulate weights)
                (r mod List.last (accumulate weights) 0) 0
                (length population - 1) ltac:(lia)) as H.
  unfold bisect. destruct population; [congruence|]. simpl in *. lia.
Qed.

Lemma last_accumulate_positive acc ws :
  ws <> [] -> 0 <= acc -> Forall (fun w => 0 < w) ws ->
  0 < List.last (accumulate_from acc ws) 0.
Proof.
  intros Hne Hacc Hpos; revert acc Hacc.
  induction Hpos as [|w t Hw Ht IH]; intros acc Hacc; [congruence|].
  destruct t as [|w' t']; [simpl; lia|].
  change (accumulate_from acc (w :: w' :: t'))
    with ((acc + w) :: accumulate_from (acc + w) (w' :: t')).
  assert (E : accumulate_from (acc + w) (w' :: t') <> []) by (simpl; congruence).
  destruct (accumulate_from (acc + w) (w' :: t')) as [|z zs] eqn:Ez; [congruence|].
  change (0 < List.last (z :: zs) 0). rewrite <- Ez.
  apply IH; [congruence|lia].
Qed.

Lemma random_choices_positive r population weights :
  weights <> [] -> Forall (fun w => 0 < w) weights ->
  Z.abs (List.last (accumulate weights) 0) < float_limit ->
  exists c, random_choices r population weights = inr c.
Proof.
  intros Hne Hpos Hlim. unfold random_choices.
  destruct (Z.leb_spec float_limit (Z.abs (List.last (accumulate weights) 0)))
    as [Hover|_]; [lia|].
  unfold accumulate in *.
  pose proof (last_accumulate_positive 0 weights Hne ltac:(lia) Hpos) as H.
  destruct (Z.leb_spec (List.last (accumulate_from 0 weights) 0) 0); [lia|].
  eexists; reflexivity.
Qed.

Lemma random_choices_error r population weights e :
  random_choices r population weights = inl e ->
  e = WeightsNotPositive \/ e = WeightsOverflow.
Proof.
  unfold random_choices. destruct (float_limit <=? _); [intros [= <-]; now right|].
  destruct (_ <=? 0); [intros [= <-]; now left|discriminate].
Qed.

(** ** The stepping loop *)

Lemma map_to_list_nil_inv (counter : gmap ascii Z) :
  map_to_list counter = [] -> counter = ∅.
Proof. apply map_to_list_empty_iff. Qed.

Lemma In_items_lookup (counter : gmap ascii Z) c :
  In c (map fst (map_to_list counter)) -> exists w, counter !! c = Some w.
Proof.
  intros H. apply in_map_iff in H as [[c' w] [E H]]. simpl in E; subst c'.
  exists w. apply elem_of_map_to_list, list_elem_of_In, H.
Qed.

Lemma loop_body_cases rnd k min_length start_with ch pos name context :
  body_case rnd k min_length start_with ch pos name context
            (loop_body rnd k min_length start_with ch pos name context).
Proof.
  unfold loop_body.
  destruct (ch !! context) as [counter|] eqn:Hctx.
  - rewrite bool_decide_eq_false_2 by congruence. cbn [andb].
    destruct (map_to_list counter) as [|it items] eqn:Hitems.
    { apply map_to_list_nil_inv in Hitems; subst counter.
      now apply case_no_continuation. }
    rewrite <- Hitems.
    assert (Hne : counter <> ∅).
    { intros ->. rewrite map_to_list_empty in Hitems. discriminate. }
    destruct (random_choices _ _ _) as [e|c] eqn:Hrc;
      [now apply case_raise with counter|].
    assert (Hin : exists w, counter !! c = Some w).
    { apply In_items_lookup. eapply random_choices_In; [|exact Hrc].
      rewrite Hitems; discriminate. }
    destruct Hin as [w Hw].
    destruct (bool_decide (c = END)) eqn:Hend.
    + apply bool_decide_eq_true in Hend; subst c.
      destruct (Z.leb_spec min_length (Z.of_nat (length name))).
      * now apply case_end with counter w.
      * destruct (nonempty start_with) eqn:Hsw.
        -- apply case_restart with counter w; auto.
           now apply nonempty_true.
        -- apply case_reset with counter w; auto.
           now apply nonempty_false.
    + apply bool_decide_eq_false in Hend.
      now apply case_append with counter w.
  - rewrite bool_decide_eq_true_2 by reflexivity. cbn [andb].
    destruct (_try_alternative_context ch context) eqn:Halt; cbn [negb].
    + rewrite map_to_list_empty. now apply case_backoff.
    + now apply case_absent.
Qed.

Lemma extends_refl ch : extends ch ch.
Proof. intros ctx; now left. Qed.

Lemma extends_insert_empty ch (context : str) :
  ch !! context = None -> extends ch (<[context := ∅]> ch).
Proof.
  intros H ctx. destruct (decide (context = ctx)) as [->|Hne].
  - right. now rewrite lookup_insert_eq.
  - left. now rewrite lookup_insert_ne.
Qed.

Lemma extends_trans ch1 ch2 ch3 :
  extends ch1 ch2 -> extends ch2 ch3 -> extends ch1 ch3.
Proof.
  intros H12 H23 ctx.
  destruct (H12 ctx) as [E1|[E1 E1']], (H23 ctx) as [E2|[E2 E2']].
  - left; congruence.
  - right; split; congruence.
  - right; split; congruence.
  - congruence.
Qed.

Lemma extends_nonempty ch ch' : extends ch ch' -> ch <> ∅ -> ch' <> ∅.
Proof.
  intros H Hne ->. apply Hne. apply map_eq. intros ctx.
  destruct (H ctx) as [E|[_ E]]; rewrite lookup_empty in *; congruence.
Qed.

Lemma extends_weights_positive ch ch' :
  extends ch ch' -> weights_positive ch -> weights_positive ch'.
Proof.
  intros H Hpos ctx counter c w Hctx Hc.
  destruct (H ctx) as [E|[_ E]]; rewrite E in Hctx.
  - eapply Hpos; eauto.
  - injection Hctx as <-. rewrite lookup_empty in Hc. discriminate.
Qed.

Lemma extends_targets_ok k ch ch' :
  extends ch ch' -> targets_ok k ch -> targets_ok k ch'.
Proof.
  intros H Hok ctx counter c w Hctx Hc.
  destruct (H ctx) as [E|[_ E]]; rewrite E in Hctx.
  - eapply Hok; eauto.
  - injection Hctx as <-. rewrite lookup_empty in Hc. discriminate.
Qed.

Lemma counter_draw_succeeds ch (ctx : str) counter r e :
  weights_positive ch -> totals_in_float_range ch ->
  ch !! ctx = Some counter -> counter <> ∅ ->
  random_choices r (map fst (map_to_list counter))
                 (map snd (map_to_list counter)) <> inl e.
Proof.
  intros Hpos Hlim Hctx Hne.
  destruct (random_choices_positive r (map fst (map_to_list counter))
              (map snd (map_to_list counter))) as [c ->]; [| | |discriminate].
  - intros E. apply map_eq_nil in E. now apply map_to_list_nil_inv in E.
  - apply List.Forall_forall. intros w Hw.
    apply in_map_iff in Hw as [[c w'] [E Hin]]. simpl in E; subst w'.
    apply list_elem_of_In, elem_of_map_to_list in Hin.
    eapply Hpos; eauto.
  - exact (Hlim ctx counter Hctx).
Qed.

Lemma extends_totals_in_float_range ch ch' :
  extends ch ch' -> totals_in_float_range ch -> totals_in_float_range ch'.
Proof.
  intros H Hlim ctx counter Hctx.
  destruct (H ctx) as [E|[_ E]]; rewrite E in Hctx.
  - exact (Hlim ctx counter Hctx).
  - injection Hctx as <-. reflexivity.
Qed.

Lemma try_alternative_inv ch (ctx : str) :
  _try_alternative_context ch ctx = true ->
  exists i, (1 <= i < length ctx)%nat /\ is_Some (ch !! skipn i ctx).
Proof.
  unfold _try_alternative_context. intros H.
  apply existsb_exists in H as [i [Hi H]].
  apply in_seq in Hi. apply bool_decide_eq_true in H.
  exists i; split; [lia|exact H].
Qed.

(** With keys of one length and a context no longer than it, no strict
    suffix of the context is a key. *)
Lemma try_alternative_false k ch (ctx : str) :
  keys_have_length k ch -> (length ctx <= k)%nat \/ k = 0%nat ->
  _try_alternative_context ch ctx = false.
Proof.
  intros Hkeys Hlen.
  destruct (_try_alternative_context ch ctx) eqn:E; [|reflexivity].
  apply try_alternative_inv in E as [i [Hi Hsome]].
  apply Hkeys in Hsome. rewrite length_skipn in Hsome. lia.
Qed.

Section LoopFacts.

Variable rnd : nat -> Z.
Variables (k : nat) (min_length : Z) (start_with : str).

(** Takes one iteration of [gen_loop] apart along [body_case]. *)
Ltac loop_cases ch pos name ctx :=
  cbn [gen_loop];
  let Hc := fresh "Hcase" in
  pose proof (loop_body_cases rnd k min_length start_with ch pos name ctx) as Hc;
  destruct (loop_body rnd k min_length start_with ch pos name ctx)
    as [[fl ch1] pos1];
  inversion Hc; subst; clear Hc.

Lemma gen_loop_extends n ch pos name ctx exit ch' pos' :
  gen_loop rnd n k min_length start_with ch pos name ctx = (exit, ch', pos') ->
  extends ch ch'.
Proof.
  revert ch pos name ctx.
  induction n as [|n IH]; intros ch pos name ctx;
    [intros [= <- <- <-]; apply extends_refl|].
  loop_cases ch pos name ctx; intros H;
    try (injection H as <- <- <-);
    eauto using extends_refl, extends_insert_empty.
Qed.

Lemma gen_loop_appends n ch pos name ctx name' ch' pos' :
  start_with <> [] \/ min_length <= 0 ->
  gen_loop rnd n k min_length start_with ch pos name ctx
    = (Finished name', ch', pos') ->
  exists rest, name' = name ++ rest.
Proof.
  intros Hno. revert ch pos name ctx.
  induction n as [|n IH]; intros ch pos name ctx;
    [intros [= <- <- <-]; exists []; now rewrite app_nil_r|].
  loop_cases ch pos name ctx; intros H;
    try (injection H as <- <- <-; exists []; now rewrite app_nil_r);
    try discriminate.
  - destruct Hno; [congruence|lia].
  - apply IH in H as [rest ->]. exists (c :: rest). now rewrite <- app_assoc.
Qed.

Lemma gen_loop_no_restart n ch pos name ctx ch' pos' :
  min_length <= 0 ->
  gen_loop rnd n k min_length start_with ch pos name ctx <> (Restart, ch', pos').
Proof.
  intros Hmin. revert ch pos name ctx.
  induction n as [|n IH]; intros ch pos name ctx; [discriminate|].
  loop_cases ch pos name ctx; try discriminate; try lia; apply IH.
Qed.

Lemma gen_loop_length n ch pos name ctx name' ch' pos' :
  gen_loop rnd n k min_length start_with ch pos name ctx
    = (Finished name', ch', pos') ->
  (length name' <= length name + n)%nat.
Proof.
  revert ch pos name ctx.
  induction n as [|n IH]; intros ch pos name ctx;
    [intros [= <- <- <-]; lia|].
  loop_cases ch pos name ctx; intros H;
    try (injection H as <- <- <-; lia); try discriminate.
  - apply IH in H. simpl in H. lia.
  - apply IH in H. rewrite length_app in H. simpl in H. lia.
Qed.

Lemma gen_loop_no_markers n ch pos name ctx name' ch' pos' :
  targets_ok k ch -> Forall not_marker name ->
  gen_loop rnd n k min_length start_with ch pos name ctx
    = (Finished name', ch', pos') ->
  Forall not_marker name'.
Proof.
  intros Hok. revert pos name ctx.
  induction n as [|n IH]; intros pos name ctx Hname;
    [intros [= <- <- <-]; exact Hname|].
  loop_cases ch pos name ctx; intros H;
    try (injection H as <- <- <-; exact Hname); try discriminate.
  - eapply IH; [|exact H]. constructor.
  - eapply IH; [|exact H]. apply Forall_app; split; [exact Hname|].
    constructor; [|constructor]. split; [|assumption].
    eapply Hok; eauto.
Qed.

Lemma gen_loop_raises_only n ch pos name ctx e ch' pos' :
  gen_loop rnd n k min_length start_with ch pos name ctx
    = (LoopRaised e, ch', pos') ->
  e = WeightsNotPositive \/ e = WeightsOverflow.
Proof.
  revert ch pos name ctx.
  induction n as [|n IH]; intros ch pos name ctx; [discriminate|].
  loop_cases ch pos name ctx; intros H; try discriminate; eauto.
  injection H as <- <- <-. eapply random_choices_error; eauto.
Qed.

Lemma gen_loop_no_raise n ch pos name ctx e ch' pos' :
  weights_positive ch -> totals_in_float_range ch ->
  gen_loop rnd n k min_length start_with ch pos name ctx
    <> (LoopRaised e, ch', pos').
Proof.
  intros Hpos Hlim. revert pos name ctx.
  induction n as [|n IH]; intros pos name ctx; [discriminate|].
  loop_cases ch pos name ctx; try discriminate; try apply IH.
  intros [= -> _ _]. eapply counter_draw_succeeds; eauto.
Qed.

(** On a table whose keys all have length [k], the loop never stores
    anything. *)
Lemma gen_loop_chains_same n ch pos name ctx exit ch' pos' :
  keys_have_length k ch -> (length ctx <= k)%nat \/ k = 0%nat ->
  gen_loop rnd n k min_length start_with ch pos name ctx = (exit, ch', pos') ->
  ch' = ch.
Proof.
  intros Hkeys. revert pos name ctx.
  induction n as [|n IH]; intros pos name ctx Hlen;
    [now intros [= <- <- <-]|].
  pose proof (try_alternative_false k ch ctx Hkeys Hlen) as Hfalse.
  loop_cases ch pos name ctx; intros H;
    try (now injection H as <- <- <-); try congruence.
  - eapply IH; [|exact H]. rewrite repeat_length. lia.
  - eapply IH; [|exact H]. rewrite length_app, length_skipn. simpl. lia.
Qed.

End LoopFacts.
(** ** One call of [generate] *)

Lemma generate_unfold rnd fuel k ch pos max_length min_length start_with end_with :
  generate rnd fuel k ch pos max_length min_length start_with end_with =
  if bool_decide (ch = ∅) then (Raised ModelNotTrained, ch, pos)
  else
    let p := clean_constraint start_with in
    if nonempty p && negb (_is_valid_name_part p)
    then (Raised InvalidStart, ch, pos)
    else
      let e := clean_constraint end_with in
      if nonempty e && negb (_is_valid_name_part e)
      then (Raised InvalidEnd, ch, pos)
      else
        match run_loop rnd k max_length min_length p ch pos with
        | (LoopRaised err, ch1, pos1) => (Raised err, ch1, pos1)
        | (Restart, ch1, pos1) =>
            retry rnd fuel k max_length min_length p e ch1 pos1
        | (Finished name, ch1, pos1) =>
            finish rnd fuel k max_length min_length p e name ch1 pos1
        end.
Proof.
  unfold run_loop, finish, retry, clean_constraint.
  destruct fuel; cbn [generate];
    destruct (seed k (strip (lower start_with))) as [name0 context0];
    reflexivity.
Qed.

Lemma generate_clean_args rnd fuel k ch pos max_length min_length start_with end_with :
  generate rnd fuel k ch pos max_length min_length start_with end_with =
  generate rnd fuel k ch pos max_length min_length
           (clean_constraint start_with) (clean_constraint end_with).
Proof.
  rewrite !generate_unfold. cbv zeta. now rewrite !clean_constraint_idem.
Qed.

(** Induction over the nested calls of [generate], for constraints that are
    already clean: a table invariant [Inv] kept by the loop, and a property
    [Q] of outcomes established wherever a call ends by itself. *)
Section GenerateInduction.

Variable rnd : nat -> Z.
Variables (k : nat) (max_length min_length : Z) (p e : str).
Hypothesis p_clean : clean_constraint p = p.
Hypothesis e_clean : clean_constraint e = e.

Variable Inv : Chains -> Prop.
Variable Q : Outcome -> Prop.

Hypothesis Inv_loop : forall ch pos exit ch' pos',
  Inv ch -> run_loop rnd k max_length min_length p ch pos = (exit, ch', pos') ->
  Inv ch'.
Hypothesis Q_exceeded : Q RecursionExceeded.
Hypothesis Q_untrained : forall ch, Inv ch -> ch = ∅ -> Q (Raised ModelNotTrained).
Hypothesis Q_invalid_start :
  nonempty p && negb (_is_valid_name_part p) = true -> Q (Raised InvalidStart).
Hypothesis Q_invalid_end :
  nonempty e && negb (_is_valid_name_part e) = true -> Q (Raised InvalidEnd).
Hypothesis Q_loop_raised : forall ch pos err ch' pos',
  Inv ch -> ch <> ∅ ->
  run_loop rnd k max_length min_length p ch pos = (LoopRaised err, ch', pos') ->
  Q (Raised err).
Hypothesis Q_name : forall ch pos name ch' pos',
  Inv ch -> ch <> ∅ ->
  nonempty p && negb (_is_valid_name_part p) = false ->
  nonempty e && negb (_is_valid_name_part e) = false ->
  run_loop rnd k max_length min_length p ch pos = (Finished name, ch', pos') ->
  name <> [] ->
  e = [] \/ endswith (lower (title name)) e = true ->
  Q (Returned (title name)).

Lemma generate_body_ok fuel :
  call_ok Inv Q (retry rnd fuel k max_length min_length p e) ->
  call_ok Inv Q
    (fun ch pos => generate rnd fuel k ch pos max_length min_length p e).
Proof.
  intros Hretry ch pos out ch' pos' Hinv. rewrite generate_unfold. cbv zeta.
  rewrite p_clean, e_clean.
  destruct (bool_decide (ch = ∅)) eqn:Hch.
  { apply bool_decide_eq_true in Hch. intros [= <- <- <-]. split; eauto. }
  apply bool_decide_eq_false in Hch.
  destruct (sumbool_of_bool (nonempty p && negb (_is_valid_name_part p)))
    as [Hvp|Hvp]; rewrite Hvp.
  { intros [= <- <- <-]. split; eauto. }
  destruct (sumbool_of_bool (nonempty e && negb (_is_valid_name_part e)))
    as [Hve|Hve]; rewrite Hve.
  { intros [= <- <- <-]. split; eauto. }
  destruct (run_loop rnd k max_length min_length p ch pos)
    as [[exit ch1] pos1] eqn:Hloop.
  pose proof (Inv_loop _ _ _ _ _ Hinv Hloop) as Hinv1.
  destruct exit as [name| |err].
  - unfold finish.
    destruct (nonempty name) eqn:Hname.
    + apply nonempty_true in Hname. unfold _capitalize_name.
      destruct (nonempty (title name) && nonempty e
                && negb (endswith (lower (title name)) e)) eqn:Hcheck.
      * apply Hretry; exact Hinv1.
      * intros [= <- <- <-]. split; [|exact Hinv1].
        apply (Q_name ch pos name ch1 pos1 Hinv Hch Hvp Hve Hloop Hname).
        apply andb_false_iff in Hcheck as [Hcheck|Hcheck].
        -- apply andb_false_iff in Hcheck as [Hcheck|Hcheck].
           ++ apply nonempty_false in Hcheck.
              now apply title_nonempty in Hname.
           ++ left. now apply nonempty_false.
        -- right. now apply negb_false_iff.
    + destruct (retry rnd fuel k max_length min_length p e ch1 pos1)
        as [[res ch2] pos2] eqn:Hres.
      destruct (Hretry _ _ _ _ _ Hinv1 Hres) as [Hq Hinv2].
      destruct res as [result| |]; try (intros [= <- <- <-]; split; eauto).
      destruct (nonempty result && nonempty e
                && negb (endswith (lower result) e)).
      * apply Hretry; exact Hinv2.
      * intros [= <- <- <-]; split; eauto.
  - apply Hretry; exact Hinv1.
  - intros [= <- <- <-]. split; [|exact Hinv1].
    exact (Q_loop_raised ch pos err ch1 pos1 Hinv Hch Hloop).
Qed.

Lemma generate_ind fuel :
  call_ok Inv Q
    (fun ch pos => generate rnd fuel k ch pos max_length min_length p e).
Proof.
  induction fuel as [|fuel IH]; apply generate_body_ok.
  - intros ch pos out ch' pos' Hinv [= <- <- <-]. split; eauto.
  - exact IH.
Qed.

End GenerateInduction.
(** ** Training: one entry *)

Lemma lookup_add_weight ch (ctx : str) c w (ctx' : str) :
  add_weight ch ctx c w !! ctx' =
  if decide (ctx = ctx')
  then Some (<[c := default 0 (default ∅ (ch !! ctx) !! c) + w]>
               (default ∅ (ch !! ctx)))
  else ch !! ctx'.
Proof. unfold add_weight. cbv zeta. apply lookup_insert. Qed.

Lemma stored_add_weight ch (ctx : str) c w (ctx' : str) c' :
  stored (add_weight ch ctx c w) ctx' c' =
  stored ch ctx' c' + (if bool_decide (ctx = ctx' /\ c = c') then w else 0).
Proof.
  unfold stored, weight_of. rewrite lookup_add_weight.
  destruct (decide (ctx = ctx')) as [->|Hctx].
  - rewrite lookup_insert. destruct (decide (c = c')) as [->|Hc].
    + rewrite bool_decide_eq_true_2 by auto.
      destruct (ch !! ctx') as [counter|]; simpl; [reflexivity|].
      now rewrite lookup_empty.
    + rewrite bool_decide_eq_false_2 by tauto.
      destruct (ch !! ctx') as [counter|]; simpl; [lia|].
      rewrite lookup_empty; simpl; lia.
  - rewrite bool_decide_eq_false_2 by tauto. lia.
Qed.

(** An entry of the table after [add_weight] is the one just written or an
    entry that was there. *)
Lemma add_weight_entry ch (ctx : str) c w (ctx' : str) counter' c' w' :
  add_weight ch ctx c w !! ctx' = Some counter' -> counter' !! c' = Some w' ->
  (ctx' = ctx /\ c' = c /\ w' = stored ch ctx c + w)
  \/ (exists counter0, ch !! ctx' = Some counter0 /\ counter0 !! c' = Some w').
Proof.
  rewrite lookup_add_weight. destruct (decide (ctx = ctx')) as [<-|Hctx].
  - intros [= <-]. rewrite lookup_insert.
    destruct (decide (c = c')) as [<-|Hc].
    + intros [= <-]. left. unfold stored, weight_of.
      destruct (ch !! ctx); simpl; auto.
    + intros H. right. destruct (ch !! ctx) as [counter|]; simpl in H.
      * now exists counter.
      * rewrite lookup_empty in H. discriminate.
  - intros H1 H2. right. now exists counter'.
Qed.

Lemma add_weight_key ch (ctx : str) c w (ctx' : str) :
  is_Some (add_weight ch ctx c w !! ctx') -> ctx' = ctx \/ is_Some (ch !! ctx').
Proof.
  rewrite lookup_add_weight. destruct (decide (ctx = ctx')); auto.
Qed.

Lemma stored_nonneg ch (ctx : str) c :
  weights_positive ch -> 0 <= stored ch ctx c.
Proof.
  intros Hpos. unfold stored, weight_of.
  destruct (ch !! ctx) as [counter|] eqn:E; simpl; [|lia].
  destruct (counter !! c) as [w|] eqn:Ec; simpl; [|lia].
  pose proof (Hpos _ _ _ _ E Ec). lia.
Qed.

Lemma add_weight_positive ch (ctx : str) c w :
  0 < w -> weights_positive ch -> weights_positive (add_weight ch ctx c w).
Proof.
  intros Hw Hpos ctx' counter' c' w' H1 H2.
  destruct (add_weight_entry _ _ _ _ _ _ _ _ H1 H2)
    as [(_ & _ & ->)|(counter0 & E1 & E2)].
  - pose proof (stored_nonneg ch ctx c Hpos). lia.
  - eapply Hpos; eauto.
Qed.

Lemma add_weight_has_start k ch (ctx : str) c w :
  has_start k ch \/ ctx = repeat START k -> has_start k (add_weight ch ctx c w).
Proof.
  intros H. unfold has_start. rewrite lookup_add_weight.
  destruct (decide (ctx = repeat START k)) as [E|E].
  - eexists; split; [reflexivity|]. apply insert_non_empty.
  - destruct H as [H|H]; [exact H|contradiction].
Qed.

Lemma add_weight_nonempty ch (ctx : str) c w : add_weight ch ctx c w <> ∅.
Proof. unfold add_weight. apply insert_non_empty. Qed.

(** ** Training: the padded form and its windows *)

Lemma Forall_collapse_from (P : ascii -> Prop) b (s : str) :
  P " "%char -> Forall P s -> Forall P (collapse_from b s).
Proof.
  intros Hsp H; revert b; induction H as [|c t Hc Ht IH]; intros b; simpl;
    [constructor|].
  destruct (isspace c); [destruct b|]; auto.
Qed.

Lemma collapse_whitespace_nonempty (s : str) :
  s <> [] -> collapse_whitespace s <> [].
Proof.
  destruct s as [|c t]; [congruence|]. intros _.
  unfold collapse_whitespace; simpl. destruct (isspace c); discriminate.
Qed.

Lemma valid_name_inv (name : str) :
  _is_valid_name name = true ->
  strip name <> [] /\ Forall (fun c => is_name_char c = true) (strip name).
Proof.
  unfold _is_valid_name. intros [H1 H2]%andb_prop. split.
  - now apply nonempty_true.
  - apply List.Forall_forall. rewrite forallb_forall in H2. exact H2.
Qed.

(** The lower-cased clean name of an accepted example is not empty and
    holds no boundary marker. *)
Lemma lower_clean_name_ok (name : str) :
  _is_valid_name name = true ->
  lower (_clean_name name) <> [] /\ Forall not_marker (lower (_clean_name name)).
Proof.
  intros [Hne Hall]%valid_name_inv. unfold _clean_name. split.
  - rewrite lower_title. unfold lower. intros E. apply map_eq_nil in E.
    revert E. now apply collapse_whitespace_nonempty.
  - apply Forall_lower; [exact not_marker_lower|].
    apply Forall_title_from; [exact not_marker_lower|exact not_marker_upper|].
    apply Forall_collapse_from; [exact space_not_marker|].
    eapply Forall_impl; [exact Hall|]. exact is_name_char_not_marker.
Qed.

Lemma length_padded_form k (clean_name : str) :
  length (padded_form k clean_name) = (k + length (lower clean_name) + 1)%nat.
Proof.
  unfold padded_form. rewrite !length_app, repeat_length. simpl. lia.
Qed.

Lemma length_slice (s : str) i k :
  (i < length s - k)%nat -> length (slice i (i + k) s) = k.
Proof.
  intros H. unfold slice. rewrite length_firstn, length_skipn. lia.
Qed.

Lemma padded_target k (clean_name : str) i :
  nth (i + k) (padded_form k clean_name) END
  = nth i (lower clean_name ++ [END]) END.
Proof.
  unfold padded_form. rewrite (Nat.add_comm i k).
  rewrite <- (repeat_length START k) at 1. apply app_nth2_plus.
Qed.

Lemma nth_lower_END (lc : str) i :
  Forall not_marker lc -> (i < length lc + 1)%nat ->
  nth i (lc ++ [END]) END <> START
  /\ ((i < length lc)%nat -> not_marker (nth i (lc ++ [END]) END)).
Proof.
  intros Hall Hi.
  destruct (Nat.lt_ge_cases i (length lc)) as [Hlt|Hge].
  - rewrite app_nth1 by exact Hlt.
    assert (Hm : not_marker (nth i lc END)).
    { rewrite List.Forall_forall in Hall. apply Hall. now apply nth_In. }
    split; [apply Hm|intros _; exact Hm].
  - replace i with (length lc) by lia. rewrite nth_middle.
    split; [discriminate|lia].
Qed.

(** A window that is the all-start context is the first one. *)
Lemma start_window_is_first k (clean_name : str) i :
  (1 <= k)%nat -> Forall not_marker (lower clean_name) ->
  (i < length (lower clean_name) + 1)%nat ->
  slice i (i + k) (padded_form k clean_name) = repeat START k -> i = 0%nat.
Proof.
  intros Hk Hall Hi Hslice.
  destruct i as [|i]; [reflexivity|exfalso].
  assert (E : nth (k - 1) (slice (S i) (S i + k) (padded_form k clean_name)) START
              = START) by (rewrite Hslice; apply nth_repeat).
  unfold slice in E. rewrite nth_firstn in E.
  replace (k - 1 <? S i + k - S i)%nat with true in E
    by (symmetry; apply Nat.ltb_lt; lia).
  rewrite nth_skipn in E.
  replace (S i + (k - 1))%nat with (i + k)%nat in E by lia.
  rewrite (nth_indep _ START END) in E
    by (rewrite length_padded_form; lia).
  rewrite padded_target in E.
  destruct (nth_lower_END (lower clean_name) i Hall ltac:(lia)) as [_ H].
  destruct (H ltac:(lia)) as [H1 _]. contradiction.
Qed.

Lemma first_window k (clean_name : str) :
  slice 0 (0 + k) (padded_form k clean_name) = repeat START k.
Proof.
  unfold slice, padded_form. simpl. rewrite Nat.sub_0_r.
  rewrite <- (repeat_length START k) at 1. apply take_app_length.
Qed.

(** ** Training: one example, then the corpus *)

Lemma fold_left_invariant {A B : Type} (I : A -> Prop) (f : A -> B -> A)
    (l : list B) (a : A) :
  (forall a b, In b l -> I a -> I (f a b)) -> I a -> I (fold_left f l a).
Proof.
  revert a; induction l as [|b l IH]; intros a Hstep Ha; simpl; [exact Ha|].
  apply IH; [|apply Hstep; simpl; auto].
  intros a' b' Hb'; apply Hstep; simpl; auto.
Qed.

Lemma stored_fold_windows k padded w l ch (ctx : str) c :
  stored (fold_left (add_window k padded w) l ch) ctx c
  = stored ch ctx c
    + w * Z.of_nat (length (List.filter (window_at k padded ctx c) l)).
Proof.
  revert ch; induction l as [|i l IH]; intros ch; [simpl; lia|].
  cbn [fold_left List.filter]. rewrite IH.
  unfold add_window. rewrite stored_add_weight.
  fold (window_at k padded ctx c i).
  destruct (window_at k padded ctx c i); cbn [length]; lia.
Qed.

Lemma stored_add_windows k padded w ch (ctx : str) c :
  stored (add_windows k padded w ch) ctx c
  = stored ch ctx c + w * Z.of_nat (occurrences k padded ctx c).
Proof. apply stored_fold_windows. Qed.

Section AddWindows.

Variables (k : nat) (clean_name : str) (w : Z).
Hypothesis lc_nonempty : lower clean_name <> [].
Hypothesis lc_ok : Forall not_marker (lower clean_name).

Let padded := padded_form k clean_name.

Lemma window_index i :
  In i (seq 0 (length padded - k)) -> (i < length (lower clean_name) + 1)%nat.
Proof.
  intros H%in_seq. subst padded. rewrite length_padded_form in H. lia.
Qed.

Lemma add_windows_keys ch :
  keys_have_length k ch -> keys_have_length k (add_windows k padded w ch).
Proof.
  unfold add_windows. apply fold_left_invariant. clear ch.
  intros ch i Hi Hkeys ctx Hsome.
  apply add_weight_key in Hsome as [->|Hsome]; [|now apply Hkeys].
  apply length_slice. apply in_seq in Hi. lia.
Qed.

Lemma add_windows_targets ch :
  targets_ok k ch -> targets_ok k (add_windows k padded w ch).
Proof.
  unfold add_windows. apply fold_left_invariant. clear ch.
  intros ch i Hi Hok ctx counter c w' H1 H2.
  pose proof (window_index i Hi) as Hlt.
  destruct (add_weight_entry _ _ _ _ _ _ _ _ H1 H2)
    as [(-> & -> & _)|(counter0 & E1 & E2)]; [|eapply Hok; eauto].
  subst padded. rewrite padded_target.
  destruct (nth_lower_END (lower clean_name) i lc_ok Hlt) as [Hs Hm].
  split; [exact Hs|]. intros Hk Hslice.
  apply start_window_is_first in Hslice; auto. subst i.
  apply Hm. destruct (lower clean_name); [congruence|simpl; lia].
Qed.

Lemma add_windows_positive ch :
  0 < w -> weights_positive ch -> weights_positive (add_windows k padded w ch).
Proof.
  intros Hw. unfold add_windows. apply fold_left_invariant.
  intros ch' i _. now apply add_weight_positive.
Qed.

Lemma add_windows_has_start ch : has_start k (add_windows k padded w ch).
Proof.
  unfold add_windows.
  assert (E : (length padded - k = S (length (lower clean_name)))%nat).
  { subst padded. rewrite length_padded_form. lia. }
  rewrite E. cbn [seq fold_left].
  apply fold_left_invariant.
  - intros ch' i _ H. apply add_weight_has_start. now left.
  - unfold add_window. apply add_weight_has_start. right.
    apply first_window.
Qed.

End AddWindows.

Lemma has_start_nonempty k ch : has_start k ch -> ch <> ∅.
Proof. intros (counter & H & _) ->. rewrite lookup_empty in H. discriminate. Qed.

Lemma train_step_table_inv k st ex :
  table_inv k (fst st) -> table_inv k (fst (train_step k st ex)).
Proof.
  destruct st as [ch ns], ex as [name w]. unfold train_step.
  destruct (_is_valid_name name) eqn:Hvalid; [|auto].
  destruct (lower_clean_name_ok name Hvalid) as [Hne Hok].
  intros (Hkeys & Htargets & _). cbn [fst]. split; [|split].
  - now apply add_windows_keys.
  - now apply add_windows_targets.
  - intros _. now apply add_windows_has_start.
Qed.

Lemma train_step_positive k st ex :
  0 < snd ex -> weights_positive (fst st) ->
  weights_positive (fst (train_step k st ex)).
Proof.
  destruct st as [ch ns], ex as [name w]. unfold train_step. cbn [fst snd].
  destruct (_is_valid_name name); [|auto].
  intros Hw Hpos. cbn [fst]. now apply add_windows_positive.
Qed.

Lemma train_step_stored k st ex (ctx : str) c :
  stored (fst (train_step k st ex)) ctx c
  = stored (fst st) ctx c + contribution k ctx c ex.
Proof.
  destruct st as [ch ns], ex as [name w]. unfold train_step, contribution.
  cbn [fst snd]. destruct (_is_valid_name name); cbn [fst]; [|lia].
  apply stored_add_windows.
Qed.

Lemma train_fold_stored k exs st (ctx : str) c :
  stored (fst (fold_left (train_step k) exs st)) ctx c
  = stored (fst st) ctx c + window_weight k exs ctx c.
Proof.
  unfold window_weight.
  revert st; induction exs as [|ex exs IH]; intros st;
    cbn [fold_left map fold_right]; [lia|].
  rewrite IH, train_step_stored. lia.
Qed.

Lemma train_fold_table_inv k exs st :
  table_inv k (fst st) -> table_inv k (fst (fold_left (train_step k) exs st)).
Proof.
  apply (fold_left_invariant (fun s => table_inv k (fst s))).
  intros st' ex _. apply train_step_table_inv.
Qed.

Lemma train_fold_positive k exs st :
  Forall (fun ex : str * Z => 0 < snd ex) exs -> weights_positive (fst st) ->
  weights_positive (fst (fold_left (train_step k) exs st)).
Proof.
  intros Hall. apply (fold_left_invariant (fun s => weights_positive (fst s))).
  intros st' ex Hin.
  apply train_step_positive. rewrite List.Forall_forall in Hall. now apply Hall.
Qed.

(** [train] with weights: an arity error, or the fold over the pairs. *)
Lemma train_eq m names_in ws :
  train m names_in (Some ws) =
  if negb (length names_in =? length ws)%nat then inl ArityMismatch
  else inr {| order := order m;
              chains := fst (fold_left (train_step (order m))
                                       (combine names_in ws) (chains m, []));
              names := snd (fold_left (train_step (order m))
                                      (combine names_in ws) (chains m, [])) |}.
Proof.
  unfold train. destruct (negb (length names_in =? length ws)%nat); [reflexivity|].
  destruct (fold_left _ _ _); reflexivity.
Qed.

Lemma train_default_weights m names_in :
  train m names_in None = train m names_in (Some (repeat 1 (length names_in))).
Proof. reflexivity. Qed.

Lemma empty_table_inv k : table_inv k ∅.
Proof.
  split; [|split].
  - intros ctx [x H]. rewrite lookup_empty in H. discriminate.
  - intros ctx counter c w H. rewrite lookup_empty in H. discriminate.
  - intros H. congruence.
Qed.

Lemma train_table_inv m names_in weights m' :
  table_inv (order m) (chains m) -> train m names_in weights = inr m' ->
  order m' = order m /\ table_inv (order m) (chains m').
Proof.
  intros Hinv. destruct weights as [ws|]; [|rewrite train_default_weights];
    rewrite train_eq;
    (destruct (negb _); [discriminate|]); intros [= <-]; cbn [order chains];
    (split; [reflexivity|]); now apply train_fold_table_inv.
Qed.

(** ** The seed and the loop started from it *)

Lemma seed_name k (p : str) : fst (seed k p) = p.
Proof.
  unfold seed. destruct p as [|c t]; [reflexivity|]. cbn [nonempty].
  destruct (k <=? length (c :: t))%nat; reflexivity.
Qed.

Lemma seed_context_length k (p : str) :
  (length (snd (seed k p)) <= k)%nat \/ k = 0%nat.
Proof.
  unfold seed. destruct (nonempty p).
  - destruct (Nat.leb_spec k (length p)); cbn [snd].
    + destruct k; [now right|left]. rewrite length_skipn. lia.
    + left. rewrite length_app, repeat_length. lia.
  - left. cbn [snd]. now rewrite repeat_length.
Qed.

(** The initial context is the last [k] characters of the prefix, padded on
    the left with start markers when the prefix is shorter. *)
Lemma seed_context_spec k (p : str) :
  (1 <= k)%nat -> p <> [] ->
  snd (seed k p) = repeat START (k - length p) ++ skipn (length p - k) p
  /\ length (snd (seed k p)) = k.
Proof.
  intros Hk Hp. unfold seed. apply nonempty_true in Hp. rewrite Hp.
  destruct (Nat.leb_spec k (length p)); cbn [snd].
  - destruct k; [lia|]. replace (S k - length p)%nat with 0%nat by lia.
    split; [reflexivity|]. rewrite length_skipn. lia.
  - replace (length p - k)%nat with 0%nat by lia. split; [reflexivity|].
    rewrite length_app, repeat_length. lia.
Qed.

Lemma run_loop_eq rnd k max_length min_length (p : str) ch pos :
  run_loop rnd k max_length min_length p ch pos =
  gen_loop rnd (Z.to_nat (max_length - Z.of_nat (length p))) k min_length p
           ch pos p (snd (seed k p)).
Proof.
  unfold run_loop. pose proof (seed_name k p) as E.
  destruct (seed k p) as [name ctx]. cbn [fst snd] in *. now subst name.
Qed.

Lemma run_loop_extends rnd k max_length min_length (p : str) ch pos exit ch' pos' :
  run_loop rnd k max_length min_length p ch pos = (exit, ch', pos') ->
  extends ch ch'.
Proof. rewrite run_loop_eq. apply gen_loop_extends. Qed.

Lemma run_loop_chains_same rnd k max_length min_length (p : str) ch pos exit ch' pos' :
  keys_have_length k ch ->
  run_loop rnd k max_length min_length p ch pos = (exit, ch', pos') ->
  ch' = ch.
Proof.
  intros Hkeys. rewrite run_loop_eq.
  apply gen_loop_chains_same; [exact Hkeys|apply seed_context_length].
Qed.

(** ** The table under [generate] *)

Lemma generate_chains_same rnd fuel k ch pos max_length min_length
    start_with end_with out ch' pos' :
  keys_have_length k ch ->
  generate rnd fuel k ch pos max_length min_length start_with end_with
    = (out, ch', pos') ->
  ch' = ch.
Proof.
  intros Hkeys. rewrite generate_clean_args. intros H.
  refine (proj2 (generate_ind rnd k max_length min_length
                   (clean_constraint start_with) (clean_constraint end_with)
                   (clean_constraint_idem _) (clean_constraint_idem _)
                   (fun c => c = ch) (fun _ => True)
                   _ _ _ _ _ _ _ fuel ch pos out ch' pos' eq_refl H));
    try (intros; exact I).
  intros c pos0 exit c' pos0' -> Hloop.
  eapply run_loop_chains_same; eauto.
Qed.

Lemma generate_extends rnd fuel k ch pos max_length min_length
    start_with end_with out ch' pos' :
  generate rnd fuel k ch pos max_length min_length start_with end_with
    = (out, ch', pos') ->
  extends ch ch'.
Proof.
  rewrite generate_clean_args. intros H.
  refine (proj2 (generate_ind rnd k max_length min_length
                   (clean_constraint start_with) (clean_constraint end_with)
                   (clean_constraint_idem _) (clean_constraint_idem _)
                   (fun c => extends ch c) (fun _ => True)
                   _ _ _ _ _ _ _ fuel ch pos out ch' pos'
                   (extends_refl ch) H));
    try (intros; exact I).
  intros c pos0 exit c' pos0' Hc Hloop.
  eapply extends_trans; [exact Hc|]. eapply run_loop_extends; eauto.
Qed.

(** ** Invariants of the models a program can build *)

Lemma reachable_inv k m :
  reachable k m -> order m = k /\ table_inv k (chains m).
Proof.
  induction 1 as [|m names_in weights m' Hm [Ho IH] Htrain
                  |m rnd fuel pos max_length min_length sw ew out ch' pos'
                     Hm [Ho IH] Hgen].
  - split; [reflexivity|apply empty_table_inv].
  - rewrite <- Ho in IH.
    destruct (train_table_inv _ _ _ _ IH Htrain) as [E Hinv].
    rewrite E, Ho in *. now split.
  - rewrite Ho in Hgen. cbn [with_chains order chains]. split; [exact Ho|].
    destruct IH as (Hkeys & Hrest).
    apply generate_chains_same in Hgen; [|exact Hkeys]. subst ch'.
    now split.
Qed.

(** ** Properties of generated names *)

Lemma constraint_ok_cases (s : str) :
  constraint_ok s ->
  clean_constraint s = [] \/ _is_valid_name_part (clean_constraint s) = true.
Proof.
  unfold constraint_ok. intros [H|H]%andb_false_iff.
  - left. now apply nonempty_false.
  - right. now apply negb_false_iff.
Qed.

Lemma clean_valid_not_marker (p : str) :
  clean_constraint p = p -> _is_valid_name_part p = true -> Forall not_marker p.
Proof.
  intros Hp Hvalid. rewrite <- Hp. unfold clean_constraint.
  rewrite strip_lower. apply Forall_lower; [exact not_marker_lower|].
  eapply Forall_impl; [exact (valid_part_letters p Hvalid)|].
  exact is_letter_not_marker.
Qed.

Lemma checked_not_marker (p : str) :
  clean_constraint p = p ->
  nonempty p && negb (_is_valid_name_part p) = false -> Forall not_marker p.
Proof.
  intros Hp [H|H]%andb_false_iff.
  - apply nonempty_false in H. subst p. constructor.
  - apply clean_valid_not_marker; [exact Hp|now apply negb_false_iff].
Qed.

Lemma not_marker_not_In (s : str) :
  Forall not_marker s -> ~ In START s /\ ~ In END s.
Proof.
  rewrite List.Forall_forall. intros H.
  split; intros Hin; destruct (H _ Hin); congruence.
Qed.

Lemma startswith_app (s rest : str) : startswith (s ++ rest) s = true.
Proof.
  unfold startswith, str_eqb. apply bool_decide_eq_true. apply take_app_length.
Qed.

(** [C2] For every model built by construction, training and generation,
    a call of [generate], with any arguments, any random draws and any
    depth of nested calls, leaves the transition table as it was: the same
    context keys with the same weighted next characters. *)
Theorem generate_leaves_table_unchanged k m rnd fuel pos max_length min_length
    start_with end_with :
  reachable k m ->
  table_of (generate rnd fuel (order m) (chains m) pos max_length min_length
                     start_with end_with) = chains m.
Proof.
  intros Hm. destruct (reachable_inv k m Hm) as [Ho (Hkeys & _)].
  destruct (generate _ _ _ _ _ _ _ _ _) as [[out ch'] pos'] eqn:Hgen.
  cbn [table_of fst snd]. rewrite Ho in Hgen.
  eapply generate_chains_same; eauto.
Qed.

(** [C5] When [generate] is called with a suffix that is not empty after
    cleaning and returns a string, the string ends with the cleaned suffix
    once lower-cased.  A name that the loop produced and that does not end
    with the suffix is not returned: the call continues as the nested call
    with the same (cleaned) arguments. *)
Theorem returned_name_ends_with_suffix rnd fuel k ch pos max_length min_length
    start_with end_with :
  clean_constraint end_with <> [] ->
  (forall r ch' pos',
     generate rnd fuel k ch pos max_length min_length start_with end_with
       = (Returned r, ch', pos') ->
     endswith (lower r) (clean_constraint end_with) = true)
  /\ (forall name ch1 pos1,
        ch <> ∅ -> constraint_ok start_with -> constraint_ok end_with ->
        run_loop rnd k max_length min_length (clean_constraint start_with)
                 ch pos = (Finished name, ch1, pos1) ->
        name <> [] ->
        endswith (lower (_capitalize_name name)) (clean_constraint end_with)
          = false ->
        generate rnd fuel k ch pos max_length min_length start_with end_with
        = retry rnd fuel k max_length min_length
                (clean_constraint start_with) (clean_constraint end_with)
                ch1 pos1).
Proof.
  intros Hne. split.
  - intros r ch' pos'. rewrite generate_clean_args. intros H.
    refine (proj1 (generate_ind rnd k max_length min_length
                     (clean_constraint start_with) (clean_constraint end_with)
                     (clean_constraint_idem _) (clean_constraint_idem _)
                     (fun _ => True)
                     (fun out => forall r, out = Returned r ->
                        endswith (lower r) (clean_constraint end_with) = true)
                     _ _ _ _ _ _ _ fuel ch pos (Returned r) ch' pos' I H)
                  r eq_refl);
      try (intros; exact I); try (intros; discriminate).
    intros c pos0 name c' pos0' _ _ _ _ _ _ [E|E] r0 [= <-];
      [contradiction|exact E].
  - intros name ch1 pos1 Hch Hsw Hew Hloop Hname Hends.
    rewrite generate_unfold. cbv zeta.
    rewrite bool_decide_eq_false_2 by exact Hch.
    unfold constraint_ok in Hsw, Hew. rewrite Hsw, Hew, Hloop.
    unfold finish. apply nonempty_true in Hname as Hn. rewrite Hn.
    apply title_nonempty, nonempty_true in Hname.
    unfold _capitalize_name in *. rewrite Hname, Hends.
    apply nonempty_true in Hne. now rewrite Hne.
Qed.

(** [C6] When [generate] is called with a prefix that is not empty after
    cleaning and returns a string, the string starts with the cleaned
    prefix once lower-cased.  The in-progress name is seeded with the
    prefix; for an order of at least 1 the initial context is the last [k]
    characters of the prefix, left-padded with start markers when the
    prefix is shorter; and the loop only appends to the name. *)
Theorem returned_name_starts_with_prefix rnd fuel k ch pos max_length min_length
    start_with end_with :
  let p := clean_constraint start_with in
  p <> [] ->
  (forall r ch' pos',
     generate rnd fuel k ch pos max_length min_length start_with end_with
       = (Returned r, ch', pos') ->
     startswith (lower r) p = true)
  /\ fst (seed k p) = p
  /\ ((1 <= k)%nat ->
      snd (seed k p) = repeat START (k - length p) ++ skipn (length p - k) p
      /\ length (snd (seed k p)) = k)
  /\ (forall n ch0 pos0 name ctx name' ch1 pos1,
        gen_loop rnd n k min_length p ch0 pos0 name ctx
          = (Finished name', ch1, pos1) ->
        exists rest, name' = name ++ rest).
Proof.
  intros p Hne. split; [|split; [|split]].
  - intros r ch' pos'. rewrite generate_clean_args. fold p. intros H.
    refine (proj1 (generate_ind rnd k max_length min_length
                     p (clean_constraint end_with)
                     (clean_constraint_idem _) (clean_constraint_idem _)
                     (fun _ => True)
                     (fun out => forall r, out = Returned r ->
                        startswith (lower r) p = true)
                     _ _ _ _ _ _ _ fuel ch pos (Returned r) ch' pos' I H)
                  r eq_refl);
      try (intros; exact I); try (intros; discriminate).
    intros c pos0 name c' pos0' _ _ _ _ Hloop _ _ r0 [= <-].
    rewrite run_loop_eq in Hloop.
    apply gen_loop_appends in Hloop as [rest ->]; [|now left].
    rewrite lower_title. unfold lower at 1. rewrite map_app.
    fold (lower p). unfold p at 1. rewrite lower_clean_constraint.
    apply startswith_app.
  - apply seed_name.
  - intros Hk. now apply seed_context_spec.
  - intros n ch0 pos0 name ctx name' ch1 pos1.
    apply gen_loop_appends. now left.
Qed.

(** [C10] For every model built by construction, training and generation,
    a string returned by [generate] holds neither the start marker nor the
    end marker. *)
Theorem returned_name_has_no_marker k m rnd fuel pos max_length min_length
    start_with end_with r ch' pos' :
  reachable k m ->
  generate rnd fuel (order m) (chains m) pos max_length min_length
           start_with end_with = (Returned r, ch', pos') ->
  ~ In START r /\ ~ In END r.
Proof.
  intros Hm. destruct (reachable_inv k m Hm) as [Ho (_ & Htargets & _)].
  rewrite Ho, generate_clean_args. intros H.
  apply not_marker_not_In.
  refine (proj1 (generate_ind rnd k max_length min_length
                   (clean_constraint start_with) (clean_constraint end_with)
                   (clean_constraint_idem _) (clean_constraint_idem _)
                   (targets_ok k)
                   (fun out => forall r, out = Returned r -> Forall not_marker r)
                   _ _ _ _ _ _ _ fuel (chains m) pos (Returned r) ch' pos'
                   Htargets H)
                r eq_refl);
    try (intros; discriminate).
  - intros c pos0 exit c' pos0' Hc Hloop.
    eapply extends_targets_ok; [|exact Hc]. eapply run_loop_extends; eauto.
  - intros c pos0 name c' pos0' Hc _ Hvp _ Hloop _ _ r0 [= <-].
    rewrite run_loop_eq in Hloop.
    apply Forall_title_from; [exact not_marker_lower|exact not_marker_upper|].
    eapply gen_loop_no_markers; [exact Hc| |exact Hloop].
    apply checked_not_marker; [apply clean_constraint_idem|exact Hvp].
Qed.

(** ** Errors and termination *)

Lemma run_loop_nonempty rnd k max_length min_length (p : str) ch pos exit ch' pos' :
  ch <> ∅ ->
  run_loop rnd k max_length min_length p ch pos = (exit, ch', pos') -> ch' <> ∅.
Proof. intros Hne H. eapply extends_nonempty; [eapply run_loop_extends|]; eauto. Qed.

(** [C8] (amended) [generate] raises [ModelNotTrained] exactly when the
    table is empty.  On a non-empty table, with a prefix and a suffix that
    pass validation, the only exceptions a call in the chain of nested
    calls can raise are those of the weighted draw; on a table of positive
    weights whose totals are in the float range none is raised, so the call
    returns a name unless the nested calls exceed the depth allowed. *)
Theorem model_not_trained_iff_table_empty rnd fuel k ch pos max_length min_length
    start_with end_with :
  let out := outcome_of (generate rnd fuel k ch pos max_length min_length
                                  start_with end_with) in
  (out = Raised ModelNotTrained <-> ch = ∅)
  /\ (ch <> ∅ -> constraint_ok start_with -> constraint_ok end_with ->
      (forall err, out = Raised err ->
                   err = WeightsNotPositive \/ err = WeightsOverflow)
      /\ (weights_positive ch -> totals_in_float_range ch ->
          (exists r, out = Returned r) \/ out = RecursionExceeded)).
Proof.
  cbv zeta. unfold outcome_of.
  destruct (generate _ _ _ _ _ _ _ _ _) as [[out ch'] pos'] eqn:Hgen.
  cbn [fst]. split; [split|].
  - intros ->. destruct (decide (ch = ∅)) as [E|Hne]; [exact E|exfalso].
    rewrite generate_clean_args in Hgen.
    refine (proj1 (generate_ind rnd k max_length min_length
                     (clean_constraint start_with) (clean_constraint end_with)
                     (clean_constraint_idem _) (clean_constraint_idem _)
                     (fun c => c <> ∅)
                     (fun out => out <> Raised ModelNotTrained)
                     _ _ _ _ _ _ _ fuel ch pos _ ch' pos' Hne Hgen) eq_refl);
      try (intros; discriminate).
    + intros c pos0 exit c' pos0'. apply run_loop_nonempty.
    + intros c Hc E. contradiction.
    + intros c pos0 err c' pos0' _ _ Hloop. rewrite run_loop_eq in Hloop.
      apply gen_loop_raises_only in Hloop as [->| ->]; discriminate.
  - intros ->. rewrite generate_unfold in Hgen.
    rewrite bool_decide_eq_true_2 in Hgen by reflexivity.
    now injection Hgen as <- _ _.
  - intros Hne Hsw Hew. rewrite generate_clean_args in Hgen. split.
    + refine (proj1 (generate_ind rnd k max_length min_length
                       (clean_constraint start_with)
                       (clean_constraint end_with)
                       (clean_constraint_idem _) (clean_constraint_idem _)
                       (fun c => c <> ∅)
                       (fun out => forall err, out = Raised err ->
                          err = WeightsNotPositive \/ err = WeightsOverflow)
                       _ _ _ _ _ _ _ fuel ch pos _ ch' pos' Hne Hgen));
        try (intros; discriminate).
      * intros c pos0 exit c' pos0'. apply run_loop_nonempty.
      * intros c Hc E. contradiction.
      * intros E. unfold constraint_ok in Hsw. congruence.
      * intros E. unfold constraint_ok in Hew. congruence.
      * intros c pos0 err c' pos0' _ _ Hloop err0 [= <-].
        rewrite run_loop_eq in Hloop.
        exact (gen_loop_raises_only _ _ _ _ _ _ _ _ _ _ _ _ Hloop).
    + intros Hpos Hlim.
      refine (proj1 (generate_ind rnd k max_length min_length
                       (clean_constraint start_with)
                       (clean_constraint end_with)
                       (clean_constraint_idem _) (clean_constraint_idem _)
                       (fun c => c <> ∅ /\ weights_positive c
                                 /\ totals_in_float_range c)
                       (fun out => (exists r, out = Returned r)
                                   \/ out = RecursionExceeded)
                       _ _ _ _ _ _ _ fuel ch pos _ ch' pos'
                       (conj Hne (conj Hpos Hlim)) Hgen)).
      * intros c pos0 exit c' pos0' (Hc1 & Hc2 & Hc3) Hloop.
        pose proof (run_loop_extends _ _ _ _ _ _ _ _ _ _ Hloop) as Hext.
        split; [eapply run_loop_nonempty; eauto|]. split.
        -- eapply extends_weights_positive; eauto.
        -- eapply extends_totals_in_float_range; eauto.
      * now right.
      * intros c [Hc _] E. contradiction.
      * intros E. unfold constraint_ok in Hsw. congruence.
      * intros E. unfold constraint_ok in Hew. congruence.
      * intros c pos0 err0 c' pos0' (_ & Hc2 & Hc3) _ Hloop.
        rewrite run_loop_eq in Hloop.
        exfalso. eapply gen_loop_no_raise; [exact Hc2|exact Hc3|exact Hloop].
      * intros. left. now eexists.
Qed.

(** From the all-start context of a trained table the first draw is a
    character of a name, so the name is not empty afterwards. *)
Lemma gen_loop_first_char rnd n k min_length (sw : str) ch pos name ch' pos' :
  (1 <= k)%nat -> min_length <= 0 ->
  has_start k ch -> targets_ok k ch ->
  gen_loop rnd (S n) k min_length sw ch pos [] (repeat START k)
    = (Finished name, ch', pos') ->
  name <> [].
Proof.
  intros Hk Hmin (counter & Hctx & Hne) Hok. cbn [gen_loop].
  pose proof (loop_body_cases rnd k min_length sw ch pos [] (repeat START k))
    as Hcase.
  destruct (loop_body rnd k min_length sw ch pos [] (repeat START k))
    as [[fl ch1] pos1].
  inversion Hcase; subst; intros H; try discriminate H;
    try match goal with
        | Hx : _ = None |- _ => rewrite Hctx in Hx; discriminate Hx
        | Hx : ?x = Some ?cnt, Hy : ?cnt !! END = Some _ |- _ =>
            destruct (Hok _ _ _ _ Hx Hy) as [_ Hend];
            exfalso; now apply Hend
        | Hx : _ = Some ?cnt |- _ =>
            rewrite Hctx in Hx; injection Hx as E; contradiction
        end.
  apply gen_loop_appends in H as [rest ->]; [|now right].
  discriminate.
Qed.

Lemma returned_name_length rnd fuel k ch pos max_length min_length
    start_with end_with r ch' pos' :
  generate rnd fuel k ch pos max_length min_length start_with end_with
    = (Returned r, ch', pos') ->
  Z.of_nat (length r)
  <= Z.max max_length (Z.of_nat (length (clean_constraint start_with))).
Proof.
  rewrite generate_clean_args. intros H.
  refine (proj1 (generate_ind rnd k max_length min_length
                   (clean_constraint start_with) (clean_constraint end_with)
                   (clean_constraint_idem _) (clean_constraint_idem _)
                   (fun _ => True)
                   (fun out => forall r, out = Returned r ->
                      Z.of_nat (length r)
                      <= Z.max max_length
                               (Z.of_nat (length (clean_constraint start_with))))
                   _ _ _ _ _ _ _ fuel ch pos (Returned r) ch' pos' I H)
                r eq_refl);
    try (intros; exact I); try (intros; discriminate).
  intros c pos0 name c' pos0' _ _ _ _ Hloop _ _ r0 [= <-].
  rewrite run_loop_eq in Hloop. apply gen_loop_length in Hloop.
  rewrite length_title. lia.
Qed.

(** With [max_length <= 0] and no prefix the loop never runs, the name stays
    empty, and every call hands over to a nested call: whatever the depth
    allowed, no name comes back. *)
Lemma generate_without_room_never_returns rnd fuel k ch pos max_length
    min_length end_with :
  ch <> ∅ -> max_length <= 0 -> constraint_ok end_with ->
  generate rnd fuel k ch pos max_length min_length [] end_with
  = (RecursionExceeded, ch, pos).
Proof.
  intros Hch Hmax Hew.
  induction fuel as [|fuel IH]; rewrite generate_unfold; cbv zeta;
    rewrite bool_decide_eq_false_2 by exact Hch;
    unfold constraint_ok in Hew; rewrite Hew;
    change (clean_constraint []) with (@nil ascii);
    cbn [nonempty andb]; rewrite run_loop_eq; cbn [length];
    replace (Z.to_nat (max_length - Z.of_nat 0)) with 0%nat by lia;
    cbn [gen_loop]; unfold finish; cbn [nonempty retry].
  - reflexivity.
  - rewrite generate_clean_args in IH.
    change (clean_constraint []) with (@nil ascii) in IH.
    now rewrite IH.
Qed.

(** [C4] (amended) On a model built by construction, training and
    generation, of order at least 1, with a non-empty table of positive
    weights whose totals are in the float range: for [max_length >= 1] and
    a prefix that passes validation and is no longer than [max_length],
    [generate] with [min_length = 0] and no suffix returns a string in a
    single pass, without any nested call, whatever the random draws, and
    the string is no longer than [max_length].  With such a prefix that
    bound holds for every string that [generate] returns, whatever
    [min_length] and the suffix are. *)
Theorem generate_min_length_zero_returns k m rnd pos max_length start_with
    end_with :
  let p := clean_constraint start_with in
  reachable k m -> (1 <= k)%nat ->
  chains m <> ∅ -> weights_positive (chains m) ->
  totals_in_float_range (chains m) ->
  constraint_ok start_with -> clean_constraint end_with = [] ->
  1 <= max_length -> Z.of_nat (length p) <= max_length ->
  (forall fuel, exists r pos',
     generate rnd fuel (order m) (chains m) pos max_length 0
              start_with end_with = (Returned r, chains m, pos')
     /\ Z.of_nat (length r) <= max_length)
  /\ (forall fuel min_length suffix r ch' pos',
        generate rnd fuel (order m) (chains m) pos max_length min_length
                 start_with suffix = (Returned r, ch', pos') ->
        Z.of_nat (length r) <= max_length).
Proof.
  intros p Hm Hk Hch Hpos Hlim Hsw Hew Hroom Hfit.
  split.
  2:{ intros fuel min_length suffix r ch' pos' H.
      apply returned_name_length in H. fold p in H. lia. }
  destruct (reachable_inv k m Hm) as [Ho (Hkeys & Htargets & Hstart)].
  intros fuel. rewrite Ho, generate_unfold. cbv zeta.
  rewrite bool_decide_eq_false_2 by exact Hch.
  unfold constraint_ok in Hsw. fold p in Hsw |- *. rewrite Hsw, Hew.
  cbn [nonempty andb].
  destruct (run_loop rnd k max_length 0 p (chains m) pos)
    as [[exit ch1] pos1] eqn:Hloop.
  pose proof (run_loop_chains_same _ _ _ _ _ _ _ _ _ _ Hkeys Hloop) as ->.
  rewrite run_loop_eq in Hloop.
  destruct exit as [name| |err].
  - assert (Hname : name <> []).
    { destruct p as [|c t] eqn:Hp.
      - change (snd (seed k [])) with (repeat START k) in Hloop.
        cbn [length] in Hloop.
        destruct (Z.to_nat (max_length - Z.of_nat 0)) as [|n] eqn:Hn; [lia|].
        assert (H0 : 0 <= 0) by lia.
        exact (gen_loop_first_char rnd n k 0 [] (chains m) pos name
                 (chains m) pos1 Hk H0 (Hstart Hch) Htargets Hloop).
      - apply gen_loop_appends in Hloop as [rest ->]; [discriminate|].
        left; discriminate. }
    unfold finish. apply nonempty_true in Hname. rewrite Hname.
    rewrite andb_false_r. cbn [andb].
    exists (_capitalize_name name), pos1. split; [reflexivity|].
    apply gen_loop_length in Hloop. unfold _capitalize_name.
    rewrite length_title. lia.
  - exfalso. eapply gen_loop_no_restart; [|exact Hloop]. lia.
  - exfalso. eapply gen_loop_no_raise; [exact Hpos|exact Hlim|exact Hloop].
Qed.

(** ** Properties of training *)

Lemma lstrip_keeps (s : str) c : In c s -> isspace c = false -> In c (lstrip s).
Proof.
  intros Hin Hc. induction s as [|a t IH]; [contradiction|]. simpl.
  destruct (isspace a) eqn:Ea; [|exact Hin].
  destruct Hin as [->|Hin]; [congruence|auto].
Qed.

Lemma rstrip_keeps (s : str) c : In c s -> isspace c = false -> In c (rstrip s).
Proof.
  intros Hin Hc. induction s as [|a t IH]; [contradiction|]. simpl.
  destruct Hin as [->|Hin].
  - rewrite Hc. destruct (rstrip t); simpl; auto.
  - specialize (IH Hin). destruct (rstrip t); [contradiction|].
    right; exact IH.
Qed.

(** A name with a character outside the class is rejected. *)
Lemma invalid_name_of_bad_char (name : str) c :
  In c name -> is_name_char c = false -> _is_valid_name name = false.
Proof.
  intros Hin Hc. unfold _is_valid_name. apply andb_false_iff. right.
  apply not_true_is_false. intros Hall. rewrite forallb_forall in Hall.
  assert (Hsp : isspace c = false).
  { unfold is_name_char in Hc. destruct (isspace c); [|reflexivity].
    rewrite orb_true_r in Hc. discriminate. }
  specialize (Hall c (rstrip_keeps _ _ (lstrip_keeps _ _ Hin Hsp) Hsp)).
  congruence.
Qed.

Lemma combine_app_same_length {A B : Type} (l1 l2 : list A) (r1 r2 : list B) :
  length l1 = length r1 ->
  combine (l1 ++ l2) (r1 ++ r2) = combine l1 r1 ++ combine l2 r2.
Proof.
  revert r1; induction l1 as [|a l1 IH]; intros [|b r1] H; simpl in *;
    try discriminate; [reflexivity|].
  f_equal. apply IH. congruence.
Qed.

Lemma train_skips_invalid m names1 bad names2 ws1 w ws2 :
  length names1 = length ws1 -> length names2 = length ws2 ->
  _is_valid_name bad = false ->
  train m (names1 ++ bad :: names2) (Some (ws1 ++ w :: ws2))
  = train m (names1 ++ names2) (Some (ws1 ++ ws2))
  /\ exists m', train m (names1 ++ names2) (Some (ws1 ++ ws2)) = inr m'.
Proof.
  intros H1 H2 Hbad. rewrite !train_eq.
  rewrite !length_app. cbn [length]. rewrite H1, H2.
  rewrite !Nat.eqb_refl. cbn [negb]. split; [|eexists; reflexivity].
  rewrite (combine_app_same_length names1 (bad :: names2) ws1 (w :: ws2) H1).
  rewrite (combine_app_same_length names1 names2 ws1 ws2 H1).
  rewrite !fold_left_app. cbn [combine fold_left].
  replace (train_step (order m)
             (fold_left (train_step (order m)) (combine names1 ws1) (chains m, []))
             (bad, w))
    with (fold_left (train_step (order m)) (combine names1 ws1) (chains m, []));
    [reflexivity|].
  destruct (fold_left _ _ _) as [ch ns]. unfold train_step. now rewrite Hbad.
Qed.

Lemma stored_of_lookup ch (ctx : str) counter c w :
  ch !! ctx = Some counter -> counter !! c = Some w -> stored ch ctx c = w.
Proof. intros H1 H2. unfold stored, weight_of. now rewrite H1, H2. Qed.

Lemma Forall_combine_snd {A : Type} (P : Z -> Prop) (l : list A) (ws : list Z) :
  Forall P ws -> Forall (fun ex : A * Z => P (snd ex)) (combine l ws).
Proof.
  intros H. apply List.Forall_forall. intros [a w] Hin.
  apply in_combine_r in Hin. rewrite List.Forall_forall in H. now apply H.
Qed.

Lemma train_positive m names_in ws m' :
  weights_positive (chains m) -> Forall (fun w => 0 < w) ws ->
  train m names_in (Some ws) = inr m' -> weights_positive (chains m').
Proof.
  intros Hpos Hws. rewrite train_eq.
  destruct (negb _); [discriminate|]. intros [= <-]. cbn [chains].
  apply train_fold_positive; [now apply Forall_combine_snd|exact Hpos].
Qed.

Lemma weights_positive_empty : weights_positive ∅.
Proof. intros ctx counter c w H. rewrite lookup_empty in H. discriminate. Qed.

(** [C7] (amended) After [train] on a freshly constructed model of order
    [k], with a corpus whose weights are all positive, every key of the
    table has length [k], and every stored weight is positive and is the
    sum, over the accepted examples, of the weight of the example times the
    number of places where the context-to-character window occurs in its
    padded form. *)
Theorem trained_table_keys_and_weights k names_in ws m :
  Forall (fun w => 0 < w) ws ->
  train (__init__ k) names_in (Some ws) = inr m ->
  forall context counter, chains m !! context = Some counter ->
    length context = k
    /\ forall c w, counter !! c = Some w ->
         0 < w /\ w = window_weight k (combine names_in ws) context c.
Proof.
  intros Hws Htrain ctx counter Hctx.
  pose proof (train_positive (__init__ k) _ _ _ weights_positive_empty
                Hws Htrain) as Hpos.
  destruct (train_table_inv (__init__ k) names_in (Some ws) m
              (empty_table_inv k) Htrain) as [_ (Hkeys & _)].
  cbn [order __init__] in Hkeys. split; [apply Hkeys; eauto|].
  intros c w Hc. split; [eapply Hpos; eauto|].
  rewrite <- (stored_of_lookup _ _ _ _ _ Hctx Hc).
  rewrite train_eq in Htrain. destruct (negb _); [discriminate|].
  injection Htrain as <-. cbn [chains order __init__].
  rewrite train_fold_stored. cbn [fst]. unfold stored, weight_of.
  rewrite lookup_empty. simpl. lia.
Qed.

(** ** The sample models *)

Lemma juha_trained :
  train (__init__ 2) juha_names (Some juha_weights) = inr juha_model.
Proof. unfold juha_model, trained. rewrite !train_eq. reflexivity. Qed.

Lemma juha_weights_positive_list : Forall (fun w => 0 < w) juha_weights.
Proof. unfold juha_weights. repeat constructor. Qed.

Lemma juha_reachable : reachable 2 juha_model.
Proof. eapply reach_train; [apply reach_init|exact juha_trained]. Qed.

Lemma juha_positive : weights_positive (chains juha_model).
Proof.
  exact (train_positive (__init__ 2) _ _ _ weights_positive_empty
           juha_weights_positive_list juha_trained).
Qed.

Lemma juha_nonempty : chains juha_model <> ∅.
Proof.
  intros E. apply (f_equal (fun ch : Chains => ch !! s2l "ju")) in E.
  vm_compute in E. discriminate E.
Qed.

Lemma juha_ju_counter : chains juha_model !! s2l "ju" = Some ju_counter.
Proof. vm_compute. reflexivity. Qed.

(** A result is known by its three parts; the table part of a result on
    [juha_model] is known without computing it. *)
Lemma result_eq (x : Outcome * Chains * nat) out ch pos :
  outcome_of x = out -> table_of x = ch -> snd x = pos -> x = (out, ch, pos).
Proof. destruct x as [[o c] p]. cbn. now intros -> -> ->. Qed.

Lemma juha_table_of rnd fuel pos max_length min_length start_with end_with :
  table_of (generate rnd fuel 2 (chains juha_model) pos max_length min_length
                     start_with end_with) = chains juha_model.
Proof.
  destruct (reachable_inv 2 juha_model juha_reachable) as [_ (Hkeys & _)].
  destruct (generate _ _ _ _ _ _ _ _ _) as [[out ch'] pos'] eqn:Hgen.
  cbn [table_of fst snd]. eapply generate_chains_same; eauto.
Qed.

Lemma juha_suffix_run :
  generate spread_draws 5 2 (chains juha_model) 0 10 2 [] (s2l "O")
  = (Returned (s2l "Juho"), chains juha_model, 5%nat).
Proof.
  apply result_eq; [vm_compute; reflexivity|apply juha_table_of
                   |vm_compute; reflexivity].
Qed.

Lemma juha_prefix_run :
  generate spread_draws 5 2 (chains juha_model) 0 10 2 (s2l "ju") []
  = (Returned (s2l "Jussi"), chains juha_model, 4%nat).
Proof.
  apply result_eq; [vm_compute; reflexivity|apply juha_table_of
                   |vm_compute; reflexivity].
Qed.

(** ** Where the code departs from the claims *)




(** [C3] The claim fails on the code.  A second [train] with the same
    corpus resets the retained names but adds to the table: every weight
    is doubled. *)
Theorem second_train_adds_to_table :
  names ab_twice = names ab_once
  /\ weight_of (chains ab_once) (s2l "^^") "a"%char = Some 1
  /\ weight_of (chains ab_twice) (s2l "^^") "a"%char = Some 2
  /\ chains ab_twice <> chains ab_once.
Proof.
  repeat split; try (vm_compute; reflexivity).
  intros E.
  apply (f_equal (fun ch : Chains => weight_of ch (s2l "^^") "a"%char)) in E.
  vm_compute in E. discriminate E.
Qed.

(** In general the table after [train] holds what it held before plus the
    contributions of the corpus. *)
Lemma train_adds_to_stored m names_in ws m' (ctx : str) c :
  train m names_in (Some ws) = inr m' ->
  stored (chains m') ctx c
  = stored (chains m) ctx c + window_weight (order m) (combine names_in ws) ctx c.
Proof.
  rewrite train_eq. destruct (negb _); [discriminate|]. intros [= <-].
  cbn [chains]. now rewrite train_fold_stored.
Qed.

(** Counterexample to [C4] as stated: with [max_length = 0] and no prefix
    the call on a trained model never returns, whatever the draws and the
    depth allowed: every call hands over to a nested call. *)
Lemma generate_without_room_exceeds_every_depth :
  reachable 2 juha_model /\ chains juha_model <> ∅ /\ constraint_ok []
  /\ forall rnd fuel,
       generate rnd fuel 2 (chains juha_model) 0 0 0 [] []
       = (RecursionExceeded, chains juha_model, 0%nat).
Proof.
  assert (H : constraint_ok []) by reflexivity.
  split; [exact juha_reachable|]. split; [exact juha_nonempty|].
  split; [exact H|]. intros rnd fuel.
  apply generate_without_room_never_returns;
    [exact juha_nonempty|lia|exact H].
Qed.

(** A prefix longer than [max_length] comes back as it is, longer than
    [max_length]. *)
Lemma long_prefix_exceeds_max_length :
  outcome_of (generate zero_draws 0 2 (chains juha_model) 0 2 0
                       (s2l "jussi") [])
  = Returned (s2l "Jussi")
  /\ 2 < Z.of_nat (length (s2l "Jussi")).
Proof. split; vm_compute; reflexivity. Qed.

(** Counterexample to [C7] as stated: the padded form of "nana" holds the
    window from "n" to "a" twice, and the stored weight is twice the weight
    of the example, not the weight of the examples holding the window. *)
Lemma repeated_window_counts_twice :
  train (__init__ 1) [s2l "nana"] (Some [1]) = inr nana_model
  /\ weight_of (chains nana_model) (s2l "n") "a"%char = Some 2
  /\ weight_of_containing_examples 1 nana_corpus (s2l "n") "a"%char = 1.
Proof. repeat split; vm_compute; reflexivity. Qed.

Lemma cancelled_trained :
  train (__init__ 2) [s2l "ab"; s2l "ab"] (Some [3; -3]) = inr cancelled_model.
Proof. unfold cancelled_model, trained. rewrite !train_eq. reflexivity. Qed.

Lemma tabbed_trained :
  train (__init__ 2) [tabbed_name] None = inr tabbed_model.
Proof.
  unfold tabbed_model, trained. rewrite !train_default_weights, !train_eq.
  reflexivity.
Qed.

Lemma juha_in_float_range : totals_in_float_range (chains juha_model).
Proof. apply (bool_decide_unpack _). vm_compute. exact I. Qed.

(** Counterexample to [C8] as stated: on a table that is not empty, with
    no prefix and no suffix, a call raises the [ValueError] of the weighted
    draw when the weights of a counter cancel, and a call that has no room
    for a character exceeds every depth of nested calls. *)
Lemma error_raised_on_trained_table :
  (train (__init__ 2) [s2l "ab"; s2l "ab"] (Some [3; -3]) = inr cancelled_model
   /\ chains cancelled_model <> ∅ /\ constraint_ok []
   /\ outcome_of (generate zero_draws 0 2 (chains cancelled_model) 0 12 2
                           [] [])
      = Raised WeightsNotPositive)
  /\ (chains juha_model <> ∅
      /\ forall rnd fuel,
           outcome_of (generate rnd fuel 2 (chains juha_model) 0 (-1) 2 [] [])
           = RecursionExceeded).
Proof.
  assert (H : constraint_ok []) by reflexivity.
  split; [split; [exact cancelled_trained|split; [|split; [exact H|]]]|].
  - intros E. apply (f_equal (fun ch : Chains => ch !! s2l "^^")) in E.
    vm_compute in E. discriminate E.
  - vm_compute. reflexivity.
  - split; [exact juha_nonempty|]. intros rnd fuel.
    rewrite generate_without_room_never_returns;
      [reflexivity|exact juha_nonempty|lia|exact H].
Qed.

(** Counterexample to [C9] as stated: a tab is none of letter, space,
    hyphen and apostrophe, yet a name that holds one is trained on; its
    clean form, with a space for the tab, is retained and its windows are
    in the table. *)
Lemma name_with_tab_is_trained :
  In (ascii_of_N 9) tabbed_name
  /\ is_letter (ascii_of_N 9) = false
  /\ ascii_of_N 9 <> " "%char /\ ascii_of_N 9 <> "-"%char
  /\ ascii_of_N 9 <> "'"%char
  /\ train (__init__ 2) [tabbed_name] None = inr tabbed_model
  /\ names tabbed_model = [s2l "A B"]
  /\ weight_of (chains tabbed_model) (s2l "^^") "a"%char = Some 1
  /\ weight_of (chains tabbed_model) (s2l "a ") "b"%char = Some 1.
Proof.
  split; [right; left; reflexivity|]. split; [reflexivity|].
  split; [discriminate|]. split; [discriminate|]. split; [discriminate|].
  split; [exact tabbed_trained|].
  repeat split; vm_compute; reflexivity.
Qed.

(** ** The theorems at work on the sample models *)


Lemma generate_leaves_table_unchanged_witness :
  reachable 2 juha_model
  /\ table_of (generate spread_draws 5 (order juha_model) (chains juha_model)
                        0 10 2 (s2l "ju") (s2l "i"))
     = chains juha_model.
Proof.
  split; [exact juha_reachable|].
  exact (generate_leaves_table_unchanged 2 juha_model spread_draws 5 0 10 2
           (s2l "ju") (s2l "i") juha_reachable).
Defined.

Lemma returned_name_ends_with_suffix_witness :
  clean_constraint (s2l "O") <> []
  /\ generate spread_draws 5 2 (chains juha_model) 0 10 2 [] (s2l "O")
     = (Returned (s2l "Juho"), chains juha_model, 5%nat)
  /\ endswith (lower (s2l "Juho")) (clean_constraint (s2l "O")) = true.
Proof.
  assert (Hne : clean_constraint (s2l "O") <> []) by (vm_compute; discriminate).
  split; [exact Hne|]. split; [exact juha_suffix_run|].
  exact (proj1 (returned_name_ends_with_suffix spread_draws 5 2
                  (chains juha_model) 0 10 2 [] (s2l "O") Hne)
               (s2l "Juho") (chains juha_model) 5%nat juha_suffix_run).
Defined.

Lemma returned_name_starts_with_prefix_witness :
  clean_constraint (s2l "ju") <> []
  /\ generate spread_draws 5 2 (chains juha_model) 0 10 2 (s2l "ju") []
     = (Returned (s2l "Jussi"), chains juha_model, 4%nat)
  /\ startswith (lower (s2l "Jussi")) (clean_constraint (s2l "ju")) = true.
Proof.
  assert (Hne : clean_constraint (s2l "ju") <> []) by (vm_compute; discriminate).
  split; [exact Hne|]. split; [exact juha_prefix_run|].
  exact (proj1 (returned_name_starts_with_prefix spread_draws 5 2
                  (chains juha_model) 0 10 2 (s2l "ju") [] Hne)
               (s2l "Jussi") (chains juha_model) 4%nat juha_prefix_run).
Defined.

Lemma returned_name_has_no_marker_witness :
  reachable 2 juha_model
  /\ generate spread_draws 5 (order juha_model) (chains juha_model) 0 10 2
              (s2l "ju") []
     = (Returned (s2l "Jussi"), chains juha_model, 4%nat)
  /\ ~ In START (s2l "Jussi") /\ ~ In END (s2l "Jussi").
Proof.
  split; [exact juha_reachable|]. split; [exact juha_prefix_run|].
  exact (returned_name_has_no_marker 2 juha_model spread_draws 5 0 10 2
           (s2l "ju") [] (s2l "Jussi") (chains juha_model) 4%nat
           juha_reachable juha_prefix_run).
Defined.

Lemma model_not_trained_iff_table_empty_witness :
  chains juha_model <> ∅
  /\ weights_positive (chains juha_model)
  /\ totals_in_float_range (chains juha_model)
  /\ constraint_ok (s2l "ju") /\ constraint_ok (s2l "O")
  /\ ((exists r,
         outcome_of (generate spread_draws 5 2 (chains juha_model) 0 10 2
                              (s2l "ju") (s2l "O")) = Returned r)
      \/ outcome_of (generate spread_draws 5 2 (chains juha_model) 0 10 2
                              (s2l "ju") (s2l "O")) = RecursionExceeded).
Proof.
  assert (H1 : constraint_ok (s2l "ju")) by (vm_compute; reflexivity).
  assert (H2 : constraint_ok (s2l "O")) by (vm_compute; reflexivity).
  split; [exact juha_nonempty|]. split; [exact juha_positive|].
  split; [exact juha_in_float_range|].
  split; [exact H1|]. split; [exact H2|].
  exact (proj2 (proj2 (model_not_trained_iff_table_empty spread_draws 5 2
                         (chains juha_model) 0 10 2 (s2l "ju") (s2l "O"))
                      juha_nonempty H1 H2)
               juha_positive juha_in_float_range).
Defined.

Lemma generate_min_length_zero_returns_witness :
  reachable 2 juha_model /\ (1 <= 2)%nat
  /\ chains juha_model <> ∅ /\ weights_positive (chains juha_model)
  /\ totals_in_float_range (chains juha_model)
  /\ constraint_ok (s2l "ju") /\ clean_constraint [] = []
  /\ 1 <= 5 /\ Z.of_nat (length (clean_constraint (s2l "ju"))) <= 5
  /\ forall fuel, exists r pos',
       generate spread_draws fuel (order juha_model) (chains juha_model) 0
                5 0 (s2l "ju") [] = (Returned r, chains juha_model, pos')
       /\ Z.of_nat (length r) <= 5.
Proof.
  assert (H1 : (1 <= 2)%nat) by lia.
  assert (H2 : constraint_ok (s2l "ju")) by (vm_compute; reflexivity).
  assert (H3 : clean_constraint [] = []) by reflexivity.
  assert (H4 : 1 <= 5) by lia.
  assert (H5 : Z.of_nat (length (clean_constraint (s2l "ju"))) <= 5)
    by (vm_compute; discriminate).
  split; [exact juha_reachable|]. split; [exact H1|].
  split; [exact juha_nonempty|]. split; [exact juha_positive|].
  split; [exact juha_in_float_range|].
  split; [exact H2|]. split; [exact H3|]. split; [exact H4|].
  split; [exact H5|].
  exact (proj1 (generate_min_length_zero_returns 2 juha_model spread_draws 0 5
                  (s2l "ju") [] juha_reachable H1 juha_nonempty juha_positive
                  juha_in_float_range H2 H3 H4 H5)).
Defined.

Lemma trained_table_keys_and_weights_witness :
  Forall (fun w => 0 < w) juha_weights
  /\ train (__init__ 2) juha_names (Some juha_weights) = inr juha_model
  /\ chains juha_model !! s2l "ju" = Some ju_counter
  /\ length (s2l "ju") = 2%nat
  /\ forall c w, ju_counter !! c = Some w ->
       0 < w
       /\ w = window_weight 2 (combine juha_names juha_weights) (s2l "ju") c.
Proof.
  split; [exact juha_weights_positive_list|]. split; [exact juha_trained|].
  split; [exact juha_ju_counter|].
  exact (trained_table_keys_and_weights 2 juha_names juha_weights juha_model
           juha_weights_positive_list juha_trained (s2l "ju") ju_counter
           juha_ju_counter).
Defined.

(** ** Further properties of [generate] *)

Lemma constraint_ok_letters (s : str) :
  constraint_ok s <-> Forall (fun c => is_letter c = true) (clean_constraint s).
Proof.
  unfold constraint_ok, _is_valid_name_part.
  change (strip (clean_constraint s))
    with (strip (strip (lower s))). rewrite strip_idem.
  fold (clean_constraint s). split.
  - intros [H|H]%andb_false_iff.
    + apply nonempty_false in H. rewrite H. constructor.
    + apply negb_false_iff in H. apply andb_prop in H as [_ H].
      apply List.Forall_forall. rewrite forallb_forall in H. exact H.
  - intros H. destruct (nonempty (clean_constraint s)) eqn:E; [|reflexivity].
    cbn [andb]. apply negb_false_iff.
    apply forallb_forall. rewrite List.Forall_forall in H. exact H.
Qed.

Lemma constraint_ok_dec (s : str) : constraint_ok s \/ ~ constraint_ok s.
Proof.
  unfold constraint_ok.
  destruct (nonempty (clean_constraint s)
            && negb (_is_valid_name_part (clean_constraint s)));
    [right; discriminate|left; reflexivity].
Qed.

Lemma generate_on_empty_table rnd fuel k pos max_length min_length
    start_with end_with :
  generate rnd fuel k ∅ pos max_length min_length start_with end_with
  = (Raised ModelNotTrained, ∅, pos).
Proof.
  rewrite generate_unfold. now rewrite bool_decide_eq_true_2 by reflexivity.
Qed.

Lemma generate_on_invalid_start rnd fuel k ch pos max_length min_length
    start_with end_with :
  ch <> ∅ -> ~ constraint_ok start_with ->
  generate rnd fuel k ch pos max_length min_length start_with end_with
  = (Raised InvalidStart, ch, pos).
Proof.
  intros Hch Hsw. rewrite generate_unfold. cbv zeta.
  rewrite bool_decide_eq_false_2 by exact Hch.
  unfold constraint_ok in Hsw.
  destruct (nonempty (clean_constraint start_with) && _);
    [reflexivity|congruence].
Qed.

Lemma generate_on_invalid_end rnd fuel k ch pos max_length min_length
    start_with end_with :
  ch <> ∅ -> constraint_ok start_with -> ~ constraint_ok end_with ->
  generate rnd fuel k ch pos max_length min_length start_with end_with
  = (Raised InvalidEnd, ch, pos).
Proof.
  intros Hch Hsw Hew. rewrite generate_unfold. cbv zeta.
  rewrite bool_decide_eq_false_2 by exact Hch.
  unfold constraint_ok in Hsw, Hew. rewrite Hsw.
  destruct (nonempty (clean_constraint end_with) && _);
    [reflexivity|congruence].
Qed.

(** With a table that is not empty and constraints that pass, no call of
    the chain raises a validation error. *)
Lemma generate_no_validation_error rnd fuel k ch pos max_length min_length
    start_with end_with :
  ch <> ∅ -> constraint_ok start_with -> constraint_ok end_with ->
  let out := outcome_of (generate rnd fuel k ch pos max_length min_length
                                  start_with end_with) in
  out <> Raised InvalidStart /\ out <> Raised InvalidEnd.
Proof.
  intros Hch Hsw Hew. cbv zeta.
  destruct (generate rnd fuel k ch pos max_length min_length
                     start_with end_with) as [[out ch'] pos'] eqn:Hgen.
  cbn [outcome_of fst]. rewrite generate_clean_args in Hgen.
  refine (proj1 (generate_ind rnd k max_length min_length
                   (clean_constraint start_with) (clean_constraint end_with)
                   (clean_constraint_idem _) (clean_constraint_idem _)
                   (fun _ => True)
                   (fun out => out <> Raised InvalidStart
                               /\ out <> Raised InvalidEnd)
                   _ _ _ _ _ _ _ fuel ch pos out ch' pos' I Hgen));
    try (intros; exact I); try (intros; split; discriminate).
  - intros E. unfold constraint_ok in Hsw. rewrite Hsw in E. discriminate.
  - intros E. unfold constraint_ok in Hew. rewrite Hew in E. discriminate.
  - intros c pos0 err c' pos0' _ _ Hloop. rewrite run_loop_eq in Hloop.
    apply gen_loop_raises_only in Hloop as [->| ->]; split; discriminate.
Qed.

(** [X1] Validation of the constraints.  [generate] raises the error of the
    starting string exactly when the table is not empty and the cleaned
    prefix holds a character that is not a letter; it raises the error of
    the ending string exactly when, moreover, the prefix passes and the
    cleaned suffix holds such a character.  Either error leaves the table
    and the random cursor as they were. *)
Theorem invalid_constraint_raised rnd fuel k ch pos max_length min_length
    start_with end_with :
  let res := generate rnd fuel k ch pos max_length min_length
                      start_with end_with in
  let letters s := Forall (fun c => is_letter c = true) (clean_constraint s) in
  (outcome_of res = Raised InvalidStart <-> ch <> ∅ /\ ~ letters start_with)
  /\ (outcome_of res = Raised InvalidEnd
      <-> ch <> ∅ /\ letters start_with /\ ~ letters end_with)
  /\ (outcome_of res = Raised InvalidStart \/ outcome_of res = Raised InvalidEnd ->
      table_of res = ch /\ snd res = pos).
Proof.
  cbv zeta. rewrite <- !constraint_ok_letters.
  destruct (decide (ch = ∅)) as [Hch|Hch].
  { subst ch. rewrite generate_on_empty_table.
    cbn [outcome_of table_of fst snd].
    split; [|split]; [split; intros H; [discriminate H|tauto] ..|].
    intros [H|H]; discriminate H. }
  destruct (constraint_ok_dec start_with) as [Hsw|Hsw].
  - destruct (constraint_ok_dec end_with) as [Hew|Hew].
    + destruct (generate_no_validation_error rnd fuel k ch pos max_length
                  min_length start_with end_with Hch Hsw Hew) as [N1 N2].
      split; [|split]; [split; intros H; [contradiction|tauto] ..|].
      intros [H|H]; contradiction.
    + rewrite (generate_on_invalid_end _ _ _ _ _ _ _ _ _ Hch Hsw Hew).
      cbn [outcome_of table_of fst snd].
      split; [|split].
      * split; intros H; [discriminate H|tauto].
      * split; intros H; [tauto|reflexivity].
      * intros _; split; reflexivity.
  - rewrite (generate_on_invalid_start _ _ _ _ _ _ _ _ _ Hch Hsw).
    cbn [outcome_of table_of fst snd].
    split; [|split].
    * split; intros H; [tauto|reflexivity].
    * split; intros H; [discriminate H|tauto].
    * intros _; split; reflexivity.
Qed.

Lemma chain_path_extends ch ch' (ctx rest : str) :
  extends ch ch' -> chain_path ch' ctx rest -> chain_path ch ctx rest.
Proof.
  intros Hext H. induction H as [ctx|ctx counter c w rest Hctx Hc Hend _ IH];
    [constructor|].
  destruct (Hext ctx) as [E|[_ E]]; rewrite E in Hctx.
  - econstructor; eauto.
  - injection Hctx as <-. rewrite lookup_empty in Hc. discriminate.
Qed.

(** The name the loop ends with extends the name it started with along a
    path of the chain, or, after a reset, is a path from the all-start
    context. *)
Lemma gen_loop_path rnd n k min_length (sw : str) ch pos (name ctx : str)
    name' ch' pos' :
  gen_loop rnd n k min_length sw ch pos name ctx = (Finished name', ch', pos') ->
  (exists rest, name' = name ++ rest /\ chain_path ch ctx rest)
  \/ (sw = [] /\ chain_path ch (repeat START k) name').
Proof.
  revert pos name ctx.
  induction n as [|n IH]; intros pos name ctx.
  { intros [= <- <- <-]. left. exists []. rewrite app_nil_r.
    split; [reflexivity|constructor]. }
  cbn [gen_loop].
  pose proof (loop_body_cases rnd k min_length sw ch pos name ctx) as Hcase.
  destruct (loop_body rnd k min_length sw ch pos name ctx) as [[fl ch1] pos1].
  inversion Hcase; subst; intros H; try discriminate H;
    try (injection H as <- <- <-; left; exists []; rewrite app_nil_r;
         split; [reflexivity|constructor]).
  - apply IH in H as [(rest & -> & Hp)|[_ Hp]]; right; split; auto.
  - apply IH in H as [(rest & -> & Hp)|Hr]; [left|right; exact Hr].
    exists (c :: rest). rewrite <- app_assoc. split; [reflexivity|].
    econstructor; eauto.
Qed.

(** [X2] A returned name is never empty, and it is the title-cased form of
    the cleaned prefix followed by a path of the chain that starts at the
    seed context: every appended character is a recorded continuation,
    other than the end marker, of the context before it. *)
Theorem returned_name_is_chain_path rnd fuel k ch pos max_length min_length
    start_with end_with r ch' pos' :
  generate rnd fuel k ch pos max_length min_length start_with end_with
    = (Returned r, ch', pos') ->
  let p := clean_constraint start_with in
  r <> []
  /\ exists rest, r = title (p ++ rest) /\ chain_path ch (snd (seed k p)) rest.
Proof.
  rewrite generate_clean_args. intros H. cbv zeta.
  refine (proj1 (generate_ind rnd k max_length min_length
                   (clean_constraint start_with) (clean_constraint end_with)
                   (clean_constraint_idem _) (clean_constraint_idem _)
                   (fun c => extends ch c)
                   (fun out => forall r, out = Returned r ->
                      r <> []
                      /\ exists rest,
                           r = title (clean_constraint start_with ++ rest)
                           /\ chain_path ch
                                (snd (seed k (clean_constraint start_with))) rest)
                   _ _ _ _ _ _ _ fuel ch pos (Returned r) ch' pos'
                   (extends_refl ch) H) r eq_refl);
    try (intros; discriminate).
  - intros c pos0 exit c' pos0' Hc Hloop.
    eapply extends_trans; [exact Hc|]. eapply run_loop_extends; eauto.
  - intros c pos0 name c' pos0' Hc _ _ _ Hloop Hname _ r0 [= <-].
    split; [now apply title_nonempty|].
    rewrite run_loop_eq in Hloop.
    apply gen_loop_path in Hloop as [(rest & -> & Hp)|[E Hp]].
    + exists rest. split; [reflexivity|]. eapply chain_path_extends; eauto.
    + exists name. rewrite E. split; [reflexivity|].
      change (snd (seed k [])) with (repeat START k).
      eapply chain_path_extends; eauto.
Qed.

(** From a context without continuation the loop ends at once: the name is
    unchanged and nothing is drawn. *)
Lemma gen_loop_dead_end rnd n k min_length (sw : str) ch pos (name ctx : str) :
  no_continuation ch ctx ->
  exists ch', gen_loop rnd n k min_length sw ch pos name ctx
              = (Finished name, ch', pos)
              /\ extends ch ch' /\ no_continuation ch' ctx.
Proof.
  intros Hno. destruct n as [|n].
  { exists ch. repeat split; [apply extends_refl|exact Hno]. }
  cbn [gen_loop].
  pose proof (loop_body_cases rnd k min_length sw ch pos name ctx) as Hcase.
  destruct (loop_body rnd k min_length sw ch pos name ctx) as [[fl ch1] pos1].
  assert (Hcounter : forall counter c w,
            ch !! ctx = Some counter -> counter !! c = Some w -> False).
  { intros counter c w H1 H2. destruct Hno as [E|E]; rewrite E in H1;
      [discriminate|]. injection H1 as <-. rewrite lookup_empty in H2.
    discriminate. }
  inversion Hcase; subst;
    try (exfalso; eapply Hcounter; eassumption).
  - exists ch1. repeat split; [apply extends_refl|exact Hno].
  - exists (<[ctx := ∅]> ch). repeat split.
    + now apply extends_insert_empty.
    + right. apply lookup_insert_eq.
  - exists ch1. repeat split; [apply extends_refl|exact Hno].
  - exfalso. destruct Hno as [E|E]; rewrite E in *; [discriminate|].
    match goal with H : Some _ = Some _ |- _ => injection H as E' end.
    congruence.
Qed.

Lemma run_loop_dead_end rnd k max_length min_length (p : str) ch pos :
  max_length <= Z.of_nat (length p) \/ no_continuation ch (snd (seed k p)) ->
  exists ch', run_loop rnd k max_length min_length p ch pos
              = (Finished p, ch', pos)
              /\ extends ch ch'
              /\ (max_length <= Z.of_nat (length p)
                  \/ no_continuation ch' (snd (seed k p))).
Proof.
  intros [Hlen|Hno]; rewrite run_loop_eq.
  - replace (Z.to_nat (max_length - Z.of_nat (length p))) with 0%nat by lia.
    exists ch. repeat split; [apply extends_refl|now left].
  - destruct (gen_loop_dead_end rnd
                (Z.to_nat (max_length - Z.of_nat (length p))) k min_length p
                ch pos p (snd (seed k p)) Hno) as (ch' & E & Hext & Hno').
    exists ch'. repeat split; auto.
Qed.

(** [X3] A prefix that leaves no room ([max_length] at most its length) or
    whose seed context has no continuation comes back as it is,
    title-cased: in a single pass, without a draw, whatever [min_length]
    is. *)
Theorem dead_end_prefix_comes_back rnd fuel k ch pos max_length min_length
    start_with end_with :
  let p := clean_constraint start_with in
  ch <> ∅ -> p <> [] -> constraint_ok start_with ->
  clean_constraint end_with = [] ->
  max_length <= Z.of_nat (length p) \/ no_continuation ch (snd (seed k p)) ->
  exists ch',
    generate rnd fuel k ch pos max_length min_length start_with end_with
    = (Returned (title p), ch', pos)
    /\ extends ch ch'.
Proof.
  intros p Hch Hp Hsw Hew Hdead.
  rewrite generate_unfold. cbv zeta. fold p.
  rewrite bool_decide_eq_false_2 by exact Hch.
  unfold constraint_ok in Hsw. fold p in Hsw. rewrite Hsw, Hew.
  cbn [nonempty andb].
  destruct (run_loop_dead_end rnd k max_length min_length p ch pos Hdead)
    as (ch' & -> & Hext & _).
  exists ch'. split; [|exact Hext].
  unfold finish, _capitalize_name. apply nonempty_true in Hp. rewrite Hp.
  now rewrite andb_false_r.
Qed.

Lemma dead_end_retry rnd k max_length min_length (p e : str) :
  clean_constraint p = p -> clean_constraint e = e ->
  p <> [] -> e <> [] ->
  nonempty p && negb (_is_valid_name_part p) = false ->
  nonempty e && negb (_is_valid_name_part e) = false ->
  endswith (lower (title p)) e = false ->
  forall fuel ch pos,
    ch <> ∅ ->
    max_length <= Z.of_nat (length p) \/ no_continuation ch (snd (seed k p)) ->
    exists ch',
      generate rnd fuel k ch pos max_length min_length p e
      = (RecursionExceeded, ch', pos)
      /\ extends ch ch'.
Proof.
  intros Hpc Hec Hp He Hvp Hve Hends.
  assert (Hstep : forall fuel ch pos,
            ch <> ∅ ->
            max_length <= Z.of_nat (length p)
            \/ no_continuation ch (snd (seed k p)) ->
            exists ch1,
              generate rnd fuel k ch pos max_length min_length p e
              = retry rnd fuel k max_length min_length p e ch1 pos
              /\ extends ch ch1
              /\ (max_length <= Z.of_nat (length p)
                  \/ no_continuation ch1 (snd (seed k p)))).
  { intros fuel ch pos Hch Hdead. rewrite generate_unfold. cbv zeta.
    rewrite Hpc, Hec. rewrite bool_decide_eq_false_2 by exact Hch.
    rewrite Hvp, Hve.
    destruct (run_loop_dead_end rnd k max_length min_length p ch pos Hdead)
      as (ch1 & -> & Hext & Hdead1).
    exists ch1. split; [|split; assumption].
    unfold finish, _capitalize_name.
    apply nonempty_true in Hp as Hp1. rewrite Hp1.
    apply title_nonempty, nonempty_true in Hp as Hp2. rewrite Hp2.
    apply nonempty_true in He as He1. now rewrite He1, Hends. }
  induction fuel as [|fuel IH]; intros ch pos Hch Hdead.
  - destruct (Hstep 0%nat ch pos Hch Hdead) as (ch1 & -> & Hext & Hdead1).
    cbn [retry]. exists ch1. split; [reflexivity|exact Hext].
  - destruct (Hstep (S fuel) ch pos Hch Hdead) as (ch1 & -> & Hext & Hdead1).
    cbn [retry].
    destruct (IH ch1 pos (extends_nonempty _ _ Hext Hch) Hdead1)
      as (ch2 & -> & Hext2).
    exists ch2. split; [reflexivity|eapply extends_trans; eauto].
Qed.

(** [X4] With such a prefix and a suffix that the title-cased prefix does
    not end with, [generate] never returns: every call hands over to a
    nested call, whatever the depth allowed, and nothing is drawn. *)
Theorem dead_end_prefix_with_other_suffix_never_returns rnd fuel k ch pos
    max_length min_length start_with end_with :
  let p := clean_constraint start_with in
  let e := clean_constraint end_with in
  ch <> ∅ -> p <> [] -> e <> [] ->
  constraint_ok start_with -> constraint_ok end_with ->
  max_length <= Z.of_nat (length p) \/ no_continuation ch (snd (seed k p)) ->
  endswith (lower (title p)) e = false ->
  exists ch',
    generate rnd fuel k ch pos max_length min_length start_with end_with
    = (RecursionExceeded, ch', pos)
    /\ extends ch ch'.
Proof.
  intros p e Hch Hp He Hsw Hew Hdead Hends.
  rewrite generate_clean_args.
  apply dead_end_retry; auto using clean_constraint_idem.
Qed.

(** [X5] The method of main.py agrees with [generate] called without a
    suffix: same outcome, same table, same cursor, at every depth. *)
Theorem generate_v1_is_generate_without_suffix rnd fuel k ch pos max_length
    min_length start_with :
  generate_v1 rnd fuel k ch pos max_length min_length start_with
  = generate rnd fuel k ch pos max_length min_length start_with [].
Proof.
  revert ch pos start_with.
  induction fuel as [|fuel IH]; intros ch pos start_with;
    rewrite generate_unfold; cbv zeta; cbn [generate_v1];
    fold (clean_constraint start_with);
    change (clean_constraint []) with (@nil ascii); cbn [nonempty andb];
    (destruct (bool_decide (ch = ∅)); [reflexivity|]);
    (destruct (nonempty (clean_constraint start_with)
               && negb (_is_valid_name_part (clean_constraint start_with)));
     [reflexivity|]);
    unfold run_loop;
    destruct (seed k (clean_constraint start_with)) as [name0 ctx0];
    destruct (gen_loop _ _ _ _ _ _ _ _ _) as [[exit ch1] pos1];
    (destruct exit as [name| |err]; [|cbn [retry]; first [reflexivity|apply IH]
                                    |reflexivity]);
    unfold finish; cbn [retry]; change (nonempty []) with false;
    (destruct (nonempty name);
     [rewrite andb_false_r; reflexivity|]).
  - reflexivity.
  - rewrite IH.
    destruct (generate _ _ _ _ _ _ _ _ _) as [[[r| |] c] q]; try reflexivity.
    now rewrite andb_false_r.
Qed.

(** What every returned name satisfies, in one statement. *)
Lemma generate_returned_facts rnd fuel k ch pos max_length min_length
    start_with end_with r ch' pos' :
  generate rnd fuel k ch pos max_length min_length start_with end_with
    = (Returned r, ch', pos') ->
  r <> []
  /\ startswith (lower r) (clean_constraint start_with) = true
  /\ (clean_constraint end_with = []
      \/ endswith (lower r) (clean_constraint end_with) = true)
  /\ Z.of_nat (length r)
     <= Z.max max_length (Z.of_nat (length (clean_constraint start_with))).
Proof.
  rewrite generate_clean_args. intros H.
  refine (proj1 (generate_ind rnd k max_length min_length
                   (clean_constraint start_with) (clean_constraint end_with)
                   (clean_constraint_idem _) (clean_constraint_idem _)
                   (fun _ => True)
                   (fun out => forall r, out = Returned r ->
                      r <> []
                      /\ startswith (lower r) (clean_constraint start_with) = true
                      /\ (clean_constraint end_with = []
                          \/ endswith (lower r) (clean_constraint end_with) = true)
                      /\ Z.of_nat (length r)
                         <= Z.max max_length
                              (Z.of_nat (length (clean_constraint start_with))))
                   _ _ _ _ _ _ _ fuel ch pos (Returned r) ch' pos' I H)
                r eq_refl);
    try (intros; exact I); try (intros; discriminate).
  intros c pos0 name c' pos0' _ _ _ _ Hloop Hname Hends r0 [= <-].
  rewrite run_loop_eq in Hloop.
  split; [now apply title_nonempty|].
  pose proof (gen_loop_length _ _ _ _ _ _ _ _ _ _ _ _ Hloop) as Hlen.
  assert (Hpre : exists rest, name = clean_constraint start_with ++ rest).
  { destruct (clean_constraint start_with) as [|c0 t0] eqn:E;
      [now exists name|].
    eapply gen_loop_appends; [|exact Hloop]. left; discriminate. }
  destruct Hpre as [rest ->].
  split; [|split; [exact Hends|rewrite length_title; lia]].
  rewrite lower_title. unfold lower at 1. rewrite map_app.
  fold (lower (clean_constraint start_with)).
  rewrite lower_clean_constraint. apply startswith_app.
Qed.

(** ** Further properties of [train] *)

Lemma train_step_fst k ch ns ex :
  fst (train_step k (ch, ns) ex) = chain_step k ch ex.
Proof.
  unfold chain_step, train_step. destruct ex as [name w].
  destruct (_is_valid_name name); reflexivity.
Qed.

Lemma train_step_snd k ch ns ex :
  snd (train_step k (ch, ns) ex)
  = ns ++ (if _is_valid_name (fst ex) then [_clean_name (fst ex)] else []).
Proof.
  unfold train_step. destruct ex as [name w]. cbn [fst].
  destruct (_is_valid_name name); cbn [snd]; [reflexivity|].
  now rewrite app_nil_r.
Qed.

Lemma train_fold_fst k exs ch ns :
  fst (fold_left (train_step k) exs (ch, ns)) = fold_left (chain_step k) exs ch.
Proof.
  revert ch ns; induction exs as [|ex exs IH]; intros ch ns; [reflexivity|].
  cbn [fold_left]. rewrite <- (train_step_fst k ch ns ex).
  destruct (train_step k (ch, ns) ex) as [ch1 ns1]. apply IH.
Qed.

Lemma train_fold_snd k exs ch ns :
  snd (fold_left (train_step k) exs (ch, ns))
  = ns ++ map _clean_name (List.filter _is_valid_name (map fst exs)).
Proof.
  revert ch ns; induction exs as [|ex exs IH]; intros ch ns;
    [cbn; now rewrite app_nil_r|].
  cbn [fold_left map List.filter].
  pose proof (train_step_snd k ch ns ex) as E.
  destruct (train_step k (ch, ns) ex) as [ch1 ns1]. cbn [snd] in E.
  rewrite IH, E. destruct (_is_valid_name (fst ex)); cbn [map];
    now rewrite <- app_assoc.
Qed.

Lemma map_fst_combine {A B : Type} (l : list A) (r : list B) :
  length l = length r -> map fst (combine l r) = l.
Proof.
  revert r; induction l as [|a l IH]; intros [|b r] H; simpl in *;
    try discriminate; [reflexivity|]. f_equal. apply IH. congruence.
Qed.

Lemma train_ok m names_in ws :
  length names_in = length ws ->
  train m names_in (Some ws)
  = inr {| order := order m;
           chains := fold_left (chain_step (order m)) (combine names_in ws)
                               (chains m);
           names := map _clean_name (List.filter _is_valid_name names_in) |}.
Proof.
  intros H. rewrite train_eq, H, Nat.eqb_refl. cbn [negb].
  now rewrite train_fold_fst, train_fold_snd, map_fst_combine.
Qed.

Lemma train_inr_length m names_in ws m' :
  train m names_in (Some ws) = inr m' -> length names_in = length ws.
Proof.
  rewrite train_eq. destruct (Nat.eqb_spec (length names_in) (length ws));
    [auto|discriminate].
Qed.

(** [X6] [train] raises exactly when a list of weights is given whose length
    differs from the number of names; with the default weights it never
    raises. *)
Theorem train_raises_iff_lengths_differ m names_in ws :
  (train m names_in (Some ws) = inl ArityMismatch
   <-> length names_in <> length ws)
  /\ (exists m', train m names_in None = inr m').
Proof.
  split.
  - rewrite train_eq.
    destruct (Nat.eqb_spec (length names_in) (length ws)); cbn [negb];
      split; intros H; try reflexivity; try congruence; try discriminate H.
  - rewrite train_default_weights, train_ok by now rewrite repeat_length.
    eexists; reflexivity.
Qed.

Lemma train_inr_names m names_in weights m' :
  train m names_in weights = inr m' ->
  names m' = map _clean_name (List.filter _is_valid_name names_in)
  /\ order m' = order m.
Proof.
  intros H.
  assert (E : exists ws, length names_in = length ws
                         /\ train m names_in (Some ws) = inr m').
  { destruct weights as [ws|].
    - exists ws. split; [eapply train_inr_length; eauto|exact H].
    - exists (repeat 1 (length names_in)). now rewrite repeat_length. }
  destruct E as (ws & Hlen & Htrain). rewrite (train_ok _ _ _ Hlen) in Htrain.
  injection Htrain as <-. cbn [names order]. now split.
Qed.

(** [X7] After a successful [train] the retained names are the cleaned
    forms of the accepted names of this call, in order: what was retained
    before is dropped, and the weights play no part.  The order is
    unchanged. *)
Theorem train_retains_cleaned_accepted_names m names_in weights m' :
  train m names_in weights = inr m' ->
  names m' = map _clean_name (List.filter _is_valid_name names_in)
  /\ order m' = order m
  /\ (length (names m') <= length names_in)%nat.
Proof.
  intros H. destruct (train_inr_names _ _ _ _ H) as [Hn Ho].
  repeat split; [exact Hn|exact Ho|].
  rewrite Hn, length_map. apply List.filter_length_le.
Qed.

(** [X8] Two calls of [train] in a row build the table that one call builds
    on the two corpora put end to end; the retained names are those of the
    second call only. *)
Theorem train_twice_is_train_on_both m namesA wsA m1 namesB wsB m2 :
  train m namesA (Some wsA) = inr m1 ->
  train m1 namesB (Some wsB) = inr m2 ->
  exists m12,
    train m (namesA ++ namesB) (Some (wsA ++ wsB)) = inr m12
    /\ chains m2 = chains m12
    /\ names m12 = names m1 ++ names m2.
Proof.
  intros H1 H2.
  pose proof (train_inr_length _ _ _ _ H1) as L1.
  pose proof (train_inr_length _ _ _ _ H2) as L2.
  rewrite (train_ok _ _ _ L1) in H1. injection H1 as <-.
  rewrite (train_ok _ _ _ L2) in H2. injection H2 as <-.
  cbn [order chains names] in *.
  rewrite train_ok by (rewrite !length_app; congruence).
  eexists. split; [reflexivity|]. cbn [chains names].
  rewrite (combine_app_same_length _ _ _ _ L1), fold_left_app.
  rewrite List.filter_app, map_app. split; reflexivity.
Qed.

Lemma add_weight_keeps_entry ch (ctx : str) c w (ctx' : str) c' :
  is_Some (weight_of ch ctx' c') ->
  is_Some (weight_of (add_weight ch ctx c w) ctx' c').
Proof.
  unfold weight_of. rewrite lookup_add_weight.
  destruct (decide (ctx = ctx')) as [->|Hne]; [|auto].
  destruct (ch !! ctx') as [counter|]; cbn [default];
    [|intros [x Hx]; discriminate].
  rewrite lookup_insert. destruct (decide (c = c')); eauto.
Qed.

Lemma add_weight_keeps_key ch (ctx : str) c w (ctx' : str) :
  is_Some (ch !! ctx') -> is_Some (add_weight ch ctx c w !! ctx').
Proof.
  rewrite lookup_add_weight. destruct (decide (ctx = ctx')); eauto.
Qed.

Lemma chain_step_keeps (P : Chains -> Prop) k ch ex :
  (forall c (ctx : str) a w, P c -> P (add_weight c ctx a w)) ->
  P ch -> P (chain_step k ch ex).
Proof.
  intros Hadd Hch. unfold chain_step, train_step. destruct ex as [name w].
  destruct (_is_valid_name name); cbn [fst]; [|exact Hch].
  unfold add_windows. apply fold_left_invariant; [|exact Hch].
  intros c i _ Hc. unfold add_window. now apply Hadd.
Qed.

Lemma chain_fold_keeps (P : Chains -> Prop) k exs ch :
  (forall c (ctx : str) a w, P c -> P (add_weight c ctx a w)) ->
  P ch -> P (fold_left (chain_step k) exs ch).
Proof.
  intros Hadd. apply fold_left_invariant. intros c ex _.
  now apply chain_step_keeps.
Qed.

(** [X9] [train] only adds to the table it finds: every stored weight is
    the weight before plus what the corpus contributes, and no context and
    no continuation disappears, whatever the weights. *)
Theorem train_only_adds m names_in ws m' :
  train m names_in (Some ws) = inr m' ->
  (forall context c,
     stored (chains m') context c
     = stored (chains m) context c
       + window_weight (order m) (combine names_in ws) context c)
  /\ (forall context, is_Some (chains m !! context) ->
                      is_Some (chains m' !! context))
  /\ (forall context c, is_Some (weight_of (chains m) context c) ->
                        is_Some (weight_of (chains m') context c)).
Proof.
  intros H. split; [intros; now apply train_adds_to_stored|].
  pose proof (train_inr_length _ _ _ _ H) as L.
  rewrite (train_ok _ _ _ L) in H. injection H as <-. cbn [chains].
  split.
  - intros ctx Hctx.
    apply (chain_fold_keeps (fun c => is_Some (c !! ctx))); [|exact Hctx].
    intros; now apply add_weight_keeps_key.
  - intros ctx c Hc.
    apply (chain_fold_keeps (fun t => is_Some (weight_of t ctx c)));
      [|exact Hc].
    intros; now apply add_weight_keeps_entry.
Qed.

Lemma add_weight_counters_nonempty ch (ctx : str) c w :
  counters_nonempty ch -> counters_nonempty (add_weight ch ctx c w).
Proof.
  intros H ctx' counter'. rewrite lookup_add_weight.
  destruct (decide (ctx = ctx')); [|apply H].
  intros [= <-]. apply insert_non_empty.
Qed.

Lemma reachable_counters_nonempty k m :
  reachable k m -> counters_nonempty (chains m).
Proof.
  induction 1 as [|m names_in weights m' Hm IH Htrain
                  |m rnd fuel pos max_length min_length sw ew out ch' pos'
                     Hm IH Hgen].
  - intros ctx counter H. cbn [chains __init__] in H.
    rewrite lookup_empty in H. discriminate.
  - assert (E : exists ws, train m names_in (Some ws) = inr m').
    { destruct weights as [ws|]; [now exists ws|].
      now exists (repeat 1 (length names_in)). }
    destruct E as [ws E]. pose proof (train_inr_length _ _ _ _ E) as L.
    rewrite (train_ok _ _ _ L) in E. injection E as <-. cbn [chains].
    apply (chain_fold_keeps counters_nonempty); [|exact IH].
    intros; now apply add_weight_counters_nonempty.
  - destruct (reachable_inv k m Hm) as [Ho (Hkeys & _)]. rewrite Ho in Hgen.
    apply generate_chains_same in Hgen; [|exact Hkeys]. now subst ch'.
Qed.

Lemma reachable_names_nonempty k m :
  reachable k m -> Forall (fun n : str => n <> []) (names m).
Proof.
  induction 1 as [|m names_in weights m' Hm IH Htrain
                  |m rnd fuel pos max_length min_length sw ew out ch' pos'
                     Hm IH Hgen]; [constructor| |exact IH].
  destruct (train_inr_names _ _ _ _ Htrain) as [-> _].
  apply List.Forall_forall. intros n Hn.
  apply in_map_iff in Hn as (x & <- & Hx). apply filter_In in Hx as [_ Hx].
  destruct (lower_clean_name_ok x Hx) as [Hne _].
  intros E. apply Hne. now rewrite E.
Qed.

(** [X10] Shape of every table built by construction, training and
    generation: each key has the length of the order and at least one
    continuation; no continuation is the start marker; a table that is not
    empty has the all-start context as a key and, for an order of at least
    1, the end marker is not among its continuations.  No retained name is
    empty. *)
Theorem reachable_table_shape k m :
  reachable k m ->
  order m = k
  /\ (forall context counter, chains m !! context = Some counter ->
        length context = k /\ counter <> ∅
        /\ forall c w, counter !! c = Some w -> c <> START)
  /\ (chains m <> ∅ ->
      exists counter, chains m !! repeat START k = Some counter
                      /\ counter <> ∅
                      /\ ((1 <= k)%nat -> counter !! END = None))
  /\ Forall (fun n : str => n <> []) (names m).
Proof.
  intros Hm. destruct (reachable_inv k m Hm) as [Ho (Hkeys & Htargets & Hstart)].
  pose proof (reachable_counters_nonempty k m Hm) as Hcnt.
  split; [exact Ho|]. split; [|split; [|now apply (reachable_names_nonempty k)]].
  - intros ctx counter Hctx. split; [apply Hkeys; eauto|].
    split; [eapply Hcnt; eauto|].
    intros c w Hc. eapply Htargets; eauto.
  - intros Hne. destruct (Hstart Hne) as (counter & Hctx & Hc).
    exists counter. split; [exact Hctx|]. split; [exact Hc|].
    intros Hk. destruct (counter !! END) as [w|] eqn:E; [|reflexivity].
    exfalso. destruct (Htargets _ _ _ _ Hctx E) as [_ H]. now apply H.
Qed.

(** *** The order of the corpus *)

Lemma add_weight_bump ch (ctx : str) c w :
  add_weight ch ctx c w = <[ctx := bump (default ∅ (ch !! ctx)) c w]> ch.
Proof. reflexivity. Qed.

Lemma bump_comm counter a w b v :
  bump (bump counter a w) b v = bump (bump counter b v) a w.
Proof.
  unfold bump. destruct (decide (a = b)) as [->|Hne].
  - rewrite !lookup_insert_eq, !insert_insert_eq. cbn [default].
    unfold id. f_equal. lia.
  - rewrite (lookup_insert_ne _ a b) by exact Hne.
    rewrite (lookup_insert_ne _ b a) by congruence.
    now apply insert_insert_ne.
Qed.

Lemma add_weight_comm ch (x : str) a w (y : str) b v :
  add_weight (add_weight ch x a w) y b v
  = add_weight (add_weight ch y b v) x a w.
Proof.
  rewrite !add_weight_bump. destruct (decide (x = y)) as [->|Hne].
  - rewrite !lookup_insert_eq, !insert_insert_eq. cbn [default]. unfold id.
    now rewrite bump_comm.
  - rewrite (lookup_insert_ne _ x y) by exact Hne.
    rewrite (lookup_insert_ne _ y x) by congruence.
    now apply insert_insert_ne.
Qed.

Lemma fold_left_comm_step {A B : Type} (f : A -> B -> A) (g : A -> A) :
  (forall a b, f (g a) b = g (f a b)) ->
  forall l a, fold_left f l (g a) = g (fold_left f l a).
Proof.
  intros H l; induction l as [|b l IH]; intros a; [reflexivity|].
  cbn [fold_left]. now rewrite H, IH.
Qed.

Lemma add_windows_comm k p1 w1 p2 w2 ch :
  add_windows k p1 w1 (add_windows k p2 w2 ch)
  = add_windows k p2 w2 (add_windows k p1 w1 ch).
Proof.
  unfold add_windows at 1 3.
  symmetry. apply (fold_left_comm_step _ (add_windows k p1 w1)).
  intros a i. unfold add_windows. symmetry.
  apply (fold_left_comm_step _ (fun c => add_window k p2 w2 c i)).
  intros c j. unfold add_window. apply add_weight_comm.
Qed.

Lemma chain_step_comm k ch e1 e2 :
  chain_step k (chain_step k ch e1) e2 = chain_step k (chain_step k ch e2) e1.
Proof.
  unfold chain_step, train_step. destruct e1 as [n1 w1], e2 as [n2 w2].
  destruct (_is_valid_name n1), (_is_valid_name n2); cbn [fst];
    try reflexivity.
  apply add_windows_comm.
Qed.

Lemma chain_fold_permutation k exs exs' ch :
  Permutation exs exs' ->
  fold_left (chain_step k) exs ch = fold_left (chain_step k) exs' ch.
Proof.
  intros H; revert ch.
  induction H as [|x l l' _ IH|x y l|l l' l'' _ IH1 _ IH2]; intros ch;
    cbn [fold_left]; [reflexivity|apply IH| |now rewrite IH1].
  now rewrite chain_step_comm.
Qed.

Lemma filter_permutation {A : Type} (f : A -> bool) (l l' : list A) :
  Permutation l l' -> Permutation (List.filter f l) (List.filter f l').
Proof.
  induction 1 as [|x l l' _ IH|x y l|l l' l'' _ IH1 _ IH2];
    cbn [List.filter].
  - constructor.
  - destruct (f x); [now constructor|exact IH].
  - destruct (f x), (f y); try reflexivity. apply perm_swap.
  - now rewrite IH1.
Qed.

(** [X11] The table does not depend on the order of the corpus: two corpora
    with the same (name, weight) pairs in any order give the same table
    from the same model; the retained names are the same up to order. *)
Theorem train_ignores_corpus_order m names1 ws1 names2 ws2 m1 m2 :
  Permutation (combine names1 ws1) (combine names2 ws2) ->
  train m names1 (Some ws1) = inr m1 ->
  train m names2 (Some ws2) = inr m2 ->
  chains m1 = chains m2 /\ Permutation (names m1) (names m2).
Proof.
  intros Hperm H1 H2.
  pose proof (train_inr_length _ _ _ _ H1) as L1.
  pose proof (train_inr_length _ _ _ _ H2) as L2.
  rewrite (train_ok _ _ _ L1) in H1. injection H1 as <-.
  rewrite (train_ok _ _ _ L2) in H2. injection H2 as <-.
  cbn [chains names]. split; [now apply chain_fold_permutation|].
  apply Permutation_map, filter_permutation.
  rewrite <- (map_fst_combine names1 ws1 L1), <- (map_fst_combine names2 ws2 L2).
  now apply Permutation_map.
Qed.

Lemma window_weight_accepted k corpus (ctx : str) c :
  window_weight k corpus ctx c
  = fold_right Z.add 0 (map (example_weight k ctx c) (accepted_examples corpus)).
Proof.
  unfold window_weight, accepted_examples.
  induction corpus as [|ex l IH]; cbn [map fold_right List.filter];
    [reflexivity|].
  rewrite IH. unfold contribution at 1, example_weight at 2.
  destruct (_is_valid_name (fst ex)); reflexivity.
Qed.

(** [C9] (amended) An example whose name has a character outside the
    class of the validator (letters, white space of any kind, hyphen,
    apostrophe) does not make [train] raise, and is skipped: the call gives
    the model it gives on the corpus without that example.  The accepted
    examples of the call are all processed: the retained names are their
    clean forms, in order, and every stored weight grows by the weight of
    each accepted example, once for every occurrence of the window in its
    padded form.  The example is skipped with the default weights too. *)
Theorem invalid_example_is_skipped m names1 bad names2 ws1 w ws2 c :
  length names1 = length ws1 -> length names2 = length ws2 ->
  In c bad -> is_name_char c = false ->
  (exists m',
     train m (names1 ++ bad :: names2) (Some (ws1 ++ w :: ws2)) = inr m'
     /\ train m (names1 ++ names2) (Some (ws1 ++ ws2)) = inr m'
     /\ names m'
        = map _clean_name (List.filter _is_valid_name (names1 ++ names2))
     /\ forall context next_char,
          stored (chains m') context next_char
          = stored (chains m) context next_char
            + fold_right Z.add 0
                (map (example_weight (order m) context next_char)
                     (accepted_examples
                        (combine (names1 ++ names2) (ws1 ++ ws2)))))
  /\ (exists m',
        train m (names1 ++ bad :: names2) None = inr m'
        /\ train m (names1 ++ names2) None = inr m').
Proof.
  intros H1 H2 Hin Hc.
  pose proof (invalid_name_of_bad_char bad c Hin Hc) as Hbad. split.
  - destruct (train_skips_invalid m names1 bad names2 ws1 w ws2 H1 H2 Hbad)
      as [E [m' Hm']].
    exists m'. split; [now rewrite E|]. split; [exact Hm'|]. split.
    + exact (proj1 (train_inr_names _ _ _ _ Hm')).
    + intros context next_char.
      rewrite (train_adds_to_stored _ _ _ _ context next_char Hm').
      now rewrite window_weight_accepted.
  - rewrite !train_default_weights, !length_app. cbn [length].
    rewrite !repeat_app. cbn [repeat].
    destruct (train_skips_invalid m names1 bad names2
                (repeat 1 (length names1)) 1 (repeat 1 (length names2))
                ltac:(now rewrite repeat_length)
                ltac:(now rewrite repeat_length) Hbad) as [E [m' Hm']].
    exists m'. split; [now rewrite E|exact Hm'].
Qed.

(** ** The validators and the cleaning of names *)

Lemma isspace_upper_char c : isspace (upper_char c) = isspace c.
Proof. each_code c. Qed.

Lemma space_case_fixed c :
  isspace c = true -> upper_char c = c /\ lower_char c = c.
Proof. each_code c; intros _; split; reflexivity. Qed.

Lemma is_cased_upper_char c : is_cased (upper_char c) = is_cased c.
Proof. each_code c. Qed.

Lemma is_cased_lower_char c : is_cased (lower_char c) = is_cased c.
Proof. each_code c. Qed.

Lemma upper_char_idem c : upper_char (upper_char c) = upper_char c.
Proof. each_code c. Qed.

Lemma is_name_char_lower c :
  is_name_char c = true -> is_name_char (lower_char c) = true.
Proof. each_code c. Qed.

Lemma is_name_char_upper c :
  is_name_char c = true -> is_name_char (upper_char c) = true.
Proof. each_code c. Qed.

Lemma is_letter_name_char c : is_letter c = true -> is_name_char c = true.
Proof. each_code c. Qed.

Lemma space_is_name_char c : isspace c = true -> is_name_char c = true.
Proof. each_code c. Qed.

Lemma strip_nonempty_iff (s : str) :
  strip s <> [] <-> exists c, In c s /\ isspace c = false.
Proof.
  split.
  - intros H. unfold strip in H. destruct (lstrip s) as [|c t] eqn:E;
      [now contradiction H|].
    exists c. split; [|eapply lstrip_head; eauto].
    apply lstrip_incl. rewrite E. now left.
  - intros (c & Hin & Hc) E.
    pose proof (rstrip_keeps _ _ (lstrip_keeps _ _ Hin Hc) Hc) as H.
    unfold strip in E. rewrite E in H. contradiction.
Qed.

(** [X12] A name is accepted for training exactly when it has a character
    that is not white space and all its characters are letters of the
    class, white space, hyphens or apostrophes.  Every text accepted as a
    prefix or suffix is accepted as a name. *)
Theorem valid_name_iff (name : str) :
  (_is_valid_name name = true
   <-> (exists c, In c name /\ isspace c = false)
       /\ forall c, In c name -> is_name_char c = true)
  /\ (_is_valid_name_part name = true -> _is_valid_name name = true).
Proof.
  assert (Hiff : _is_valid_name name = true
                 <-> (exists c, In c name /\ isspace c = false)
                     /\ forall c, In c name -> is_name_char c = true).
  { unfold _is_valid_name. rewrite andb_true_iff, nonempty_true,
      strip_nonempty_iff, forallb_forall. split; intros [H1 H2];
      (split; [exact H1|]); intros c Hc.
    - destruct (isspace c) eqn:E; [now apply space_is_name_char|].
      apply H2. apply rstrip_keeps; [apply lstrip_keeps|]; assumption.
    - apply H2. now apply strip_incl. }
  split; [exact Hiff|].
  unfold _is_valid_name_part, _is_valid_name.
  rewrite !andb_true_iff, !forallb_forall. intros [H1 H2].
  split; [exact H1|]. intros c Hc. now apply is_letter_name_char, H2.
Qed.

(** *** The clean form *)

Lemma title_from_idem b (s : str) :
  title_from b (title_from b s) = title_from b s.
Proof.
  revert b; induction s as [|c t IH]; intros b; [reflexivity|].
  cbn [title_from]. f_equal.
  - destruct b; [apply lower_char_idem|apply upper_char_idem].
  - replace (is_cased (if b then lower_char c else upper_char c))
      with (is_cased c); [apply IH|].
    destruct b; [now rewrite is_cased_lower_char|now rewrite is_cased_upper_char].
Qed.

Lemma isspace_title_char (b : bool) c :
  isspace (if b then lower_char c else upper_char c) = isspace c.
Proof. destruct b; [apply isspace_lower_char|apply isspace_upper_char]. Qed.

Lemma space_title_char (b : bool) c :
  isspace c = true -> (if b then lower_char c else upper_char c) = c.
Proof. intros H. destruct (space_case_fixed c H). now destruct b. Qed.

Lemma spaced_title_from b p (s : str) :
  spaced b (title_from p s) = spaced b s.
Proof.
  revert b p; induction s as [|c t IH]; intros b p; [reflexivity|].
  cbn [title_from spaced]. rewrite isspace_title_char.
  destruct (isspace c) eqn:E; [|apply IH].
  now rewrite (space_title_char p c E), IH.
Qed.

Lemma spaced_collapse_from b (s : str) : spaced b (collapse_from b s) = true.
Proof.
  revert b; induction s as [|c t IH]; intros b; [reflexivity|].
  cbn [collapse_from]. destruct (isspace c) eqn:E.
  - destruct b; [apply IH|]. cbn [spaced]. now rewrite IH.
  - cbn [spaced]. rewrite E. apply IH.
Qed.

Lemma collapse_from_spaced b (s : str) :
  spaced b s = true -> collapse_from b s = s.
Proof.
  revert b; induction s as [|c t IH]; intros b; [reflexivity|].
  cbn [spaced collapse_from]. destruct (isspace c) eqn:E.
  - intros [[Hb Hc]%andb_prop Ht]%andb_prop.
    apply negb_true_iff in Hb. subst b. rewrite (IH true Ht).
    f_equal. unfold is_code in Hc. apply N.eqb_eq in Hc.
    rewrite <- (ascii_N_embedding c). unfold code in Hc. now rewrite Hc.
  - intros Ht. now rewrite (IH false Ht).
Qed.

Lemma length_collapse_from b (s : str) :
  (length (collapse_from b s) <= length s)%nat.
Proof.
  revert b; induction s as [|c t IH]; intros b; [reflexivity|].
  cbn [collapse_from]. destruct (isspace c); [destruct b|]; cbn [length];
    try (specialize (IH true); lia); specialize (IH false); lia.
Qed.

Lemma length_lstrip (s : str) : (length (lstrip s) <= length s)%nat.
Proof.
  induction s as [|c t IH]; [reflexivity|]. cbn [lstrip].
  destruct (isspace c); cbn [length]; lia.
Qed.

Lemma length_rstrip (s : str) : (length (rstrip s) <= length s)%nat.
Proof.
  induction s as [|c t IH]; [reflexivity|]. cbn [rstrip].
  destruct (rstrip t); [destruct (isspace c)|]; cbn [length] in *; lia.
Qed.

Lemma collapse_from_keeps b (s : str) c :
  In c s -> isspace c = false -> In c (collapse_from b s).
Proof.
  intros Hin Hc. revert b; induction s as [|a t IH]; intros b;
    [contradiction|].
  cbn [collapse_from]. destruct Hin as [->|Hin].
  - rewrite Hc. now left.
  - destruct (isspace a); [destruct b|]; try (right; now apply IH);
      now apply IH.
Qed.

Lemma rstrip_nonempty_nonspace (s : str) :
  rstrip s <> [] -> exists c, In c s /\ isspace c = false.
Proof.
  induction s as [|a t IH]; [intros H; now contradiction H|].
  cbn [rstrip]. destruct (rstrip t) as [|b r] eqn:E.
  - destruct (isspace a) eqn:Ea; [intros H; now contradiction H|].
    intros _. exists a. split; [now left|exact Ea].
  - intros _. destruct IH as (c & Hin & Hc); [discriminate|].
    exists c. split; [now right|exact Hc].
Qed.

Lemma rstrip_cons_fixed x (y : str) :
  rstrip y = y -> y <> [] -> rstrip (x :: y) = x :: y.
Proof.
  intros E Hne. cbn [rstrip]. rewrite E. destruct y; [congruence|reflexivity].
Qed.

Lemma rstrip_fixed_inv c (t : str) :
  rstrip (c :: t) = c :: t ->
  (t = [] /\ isspace c = false) \/ (rstrip t = t /\ t <> []).
Proof.
  cbn [rstrip]. destruct (rstrip t) as [|b r] eqn:E.
  - destruct (isspace c); [discriminate|]. intros [= <-]. now left.
  - intros [= <-]. right. split; [reflexivity|discriminate].
Qed.

Lemma rstrip_collapse_from b (s : str) :
  rstrip s = s -> rstrip (collapse_from b s) = collapse_from b s.
Proof.
  revert b; induction s as [|c t IH]; intros b H; [reflexivity|].
  apply rstrip_fixed_inv in H as [[-> Hc]|[Ht Hne]].
  - cbn [collapse_from]. rewrite Hc. cbn [rstrip]. now rewrite Hc.
  - assert (Hy : forall b', collapse_from b' t <> []).
    { intros b' E. rewrite <- Ht in Hne.
      destruct (rstrip_nonempty_nonspace t Hne) as (x & Hin & Hx).
      pose proof (collapse_from_keeps b' t x Hin Hx) as H.
      rewrite E in H. contradiction. }
    cbn [collapse_from]. destruct (isspace c); [destruct b|];
      auto using rstrip_cons_fixed.
Qed.

Lemma rstrip_title_from p (s : str) :
  rstrip (title_from p s) = title_from p (rstrip s).
Proof.
  revert p; induction s as [|c t IH]; intros p; [reflexivity|].
  cbn [title_from rstrip]. rewrite IH.
  destruct (rstrip t) as [|b r] eqn:E.
  - cbn [title_from]. rewrite isspace_title_char.
    now destruct (isspace c).
  - reflexivity.
Qed.

Lemma strip_fixed (s : str) :
  match s with [] => True | c :: _ => isspace c = false end ->
  rstrip s = s -> strip s = s.
Proof.
  intros Hhead Hr. unfold strip. destruct s as [|c t]; [reflexivity|].
  cbn [lstrip]. now rewrite Hhead.
Qed.

Lemma strip_head (s : str) :
  match strip s with [] => True | c :: _ => isspace c = false end.
Proof.
  unfold strip. destruct (lstrip s) as [|c t] eqn:E; [exact I|].
  pose proof (lstrip_head _ _ _ E) as Hc.
  now rewrite (rstrip_cons_nonspace _ _ Hc).
Qed.

(** [X13] The clean form of an accepted name is not empty, no longer than
    the name, accepted itself, and stable: cleaning it again changes
    nothing, it has no white space at either end, and its white space is
    made of single spaces. *)
Theorem clean_name_is_stable (name : str) :
  _is_valid_name name = true ->
  let clean_name := _clean_name name in
  clean_name <> []
  /\ (length clean_name <= length name)%nat
  /\ _is_valid_name clean_name = true
  /\ _clean_name clean_name = clean_name
  /\ strip clean_name = clean_name
  /\ spaced false clean_name = true.
Proof.
  intros Hvalid. cbv zeta.
  destruct (valid_name_inv name Hvalid) as [Hne Hall].
  set (s0 := strip name) in *.
  set (s1 := collapse_whitespace s0).
  assert (Hs1 : s1 <> []) by now apply collapse_whitespace_nonempty.
  assert (Hhead1 : match s1 with [] => True | c :: _ => isspace c = false end).
  { pose proof (strip_head name) as H. fold s0 in H. unfold s1.
    destruct s0 as [|c t]; [exact I|].
    unfold collapse_whitespace. cbn [collapse_from]. now rewrite H. }
  assert (Hr1 : rstrip s1 = s1).
  { apply rstrip_collapse_from. unfold s0, strip. apply rstrip_idem. }
  assert (Hsp1 : spaced false s1 = true) by apply spaced_collapse_from.
  assert (Hstrip : strip (title s1) = title s1).
  { apply strip_fixed.
    - unfold title. destruct s1 as [|c t]; [exact I|].
      cbn [title_from]. now rewrite isspace_upper_char.
    - unfold title. now rewrite rstrip_title_from, Hr1. }
  assert (Hsp : spaced false (title s1) = true)
    by (unfold title; now rewrite spaced_title_from).
  assert (Hchars : Forall (fun c => is_name_char c = true) (title s1)).
  { apply (Forall_title_from (fun c => is_name_char c = true));
      [exact is_name_char_lower|exact is_name_char_upper|].
    apply Forall_collapse_from; [reflexivity|exact Hall]. }
  change (_clean_name name) with (title s1).
  split; [now apply title_nonempty|]. split.
  { rewrite length_title. unfold s1, collapse_whitespace.
    pose proof (length_collapse_from false s0).
    pose proof (length_rstrip (lstrip name)).
    pose proof (length_lstrip name). unfold s0, strip in *. lia. }
  split.
  { unfold _is_valid_name. rewrite Hstrip. apply andb_true_iff. split.
    - apply nonempty_true. now apply title_nonempty.
    - apply forallb_forall. rewrite List.Forall_forall in Hchars. exact Hchars. }
  split; [|split; assumption].
  unfold _clean_name. rewrite Hstrip. unfold collapse_whitespace.
  rewrite (collapse_from_spaced false _ Hsp). apply title_from_idem.
Qed.

(** ** Statistics *)

Lemma chain_fold_nonempty k exs ch :
  ch <> ∅ -> fold_left (chain_step k) exs ch <> ∅.
Proof.
  apply (chain_fold_keeps (fun c => c <> ∅)).
  intros; apply add_weight_nonempty.
Qed.

Lemma chain_step_valid_nonempty k ch ex :
  _is_valid_name (fst ex) = true -> chain_step k ch ex <> ∅.
Proof.
  intros Hvalid. unfold chain_step, train_step. destruct ex as [name w].
  cbn [fst] in *. rewrite Hvalid. cbn [fst].
  eapply has_start_nonempty. apply add_windows_has_start.
Qed.

Lemma chain_fold_from_empty k exs :
  fold_left (chain_step k) exs ∅ = ∅
  <-> List.filter _is_valid_name (map fst exs) = [].
Proof.
  induction exs as [|ex exs IH]; [easy|].
  cbn [fold_left map List.filter].
  destruct (_is_valid_name (fst ex)) eqn:E.
  - split; [|discriminate]. intros H. exfalso.
    eapply chain_fold_nonempty; [|exact H].
    now apply chain_step_valid_nonempty.
  - replace (chain_step k ∅ ex) with (∅ : Chains); [exact IH|].
    unfold chain_step, train_step. destruct ex as [name w].
    cbn [fst] in E. now rewrite E.
Qed.

(** [X14] Statistics and training.  After a successful [train] the count of
    training names is the number of accepted names of that call, at most
    the number of names given, and the order is unchanged.  On a freshly
    constructed model the count is 0 exactly when no context has been
    recorded. *)
Theorem stats_after_train m names_in weights m' :
  train m names_in weights = inr m' ->
  training_names_count (get_stats m')
  = length (List.filter _is_valid_name names_in)
  /\ (training_names_count (get_stats m') <= length names_in)%nat
  /\ chain_order (get_stats m') = chain_order (get_stats m)
  /\ (chains m = ∅ ->
      (training_names_count (get_stats m') = 0%nat
       <-> unique_contexts (get_stats m') = 0%nat)).
Proof.
  intros H.
  assert (E : exists ws, length names_in = length ws
                         /\ train m names_in (Some ws) = inr m').
  { destruct weights as [ws|].
    - exists ws. split; [eapply train_inr_length; eauto|exact H].
    - exists (repeat 1 (length names_in)). now rewrite repeat_length. }
  destruct E as (ws & Hlen & Htrain). rewrite (train_ok _ _ _ Hlen) in Htrain.
  injection Htrain as <-. cbn [get_stats training_names_count unique_contexts
                               chain_order names chains order].
  rewrite length_map. split; [reflexivity|].
  split; [apply List.filter_length_le|]. split; [reflexivity|].
  intros ->. rewrite map_size_empty_iff, chain_fold_from_empty.
  rewrite (map_fst_combine _ _ Hlen). apply length_zero_iff_nil.
Qed.

Lemma total_name_length_ge (ns : list str) :
  Forall (fun n : str => n <> []) ns ->
  (length ns <= total_name_length ns)%nat.
Proof.
  unfold total_name_length. induction 1 as [|n ns Hn _ IH]; [reflexivity|].
  cbn [map fold_right length] in *. destruct n; [congruence|].
  cbn [length]. lia.
Qed.

(** [X15] For every model built by construction, training and generation,
    the average name length of the statistics is 0 when no name is
    retained, and at least 1 otherwise: there is no division by zero and
    no retained name is empty. *)
Theorem stats_average_name_length k m :
  reachable k m ->
  (names m = [] ->
   average_name_length (get_stats m) = QArith_base.Qmake 0 1)
  /\ (names m <> [] ->
      QArith_base.Qle (QArith_base.Qmake 1 1)
                      (average_name_length (get_stats m)))
  /\ chain_order (get_stats m) = k.
Proof.
  intros Hm. pose proof (reachable_names_nonempty k m Hm) as Hne.
  destruct (reachable_inv k m Hm) as [Ho _].
  cbn [get_stats average_name_length chain_order].
  split; [intros ->; reflexivity|]. split; [|exact Ho].
  intros Hnames. pose proof (total_name_length_ge _ Hne) as Hge.
  destruct (names m) as [|n ns] eqn:E; [congruence|].
  unfold QArith_base.Qle. cbn [QArith_base.Qnum QArith_base.Qden].
  rewrite Z.mul_1_l, Z.mul_1_r.
  assert (Hpos : Z.pos (Pos.of_nat (length (n :: ns)))
                 = Z.of_nat (length (n :: ns))).
  { cbn [length]. rewrite <- Pos.of_nat_succ, Zpos_P_of_succ_nat. lia. }
  rewrite Hpos. lia.
Qed.

(** ** The loop of [main] that collects names *)

Lemma size_add_name (x : list ascii) (X : gset (list ascii)) :
  (size ({[x]} ∪ X) <= S (size X))%nat.
Proof.
  rewrite size_union_alt, size_singleton.
  assert (Hsub : X ∖ {[x]} ⊆ X) by (apply subseteq_difference_l; reflexivity).
  apply subseteq_size in Hsub. lia.
Qed.

Section AttemptLoop.

Variable rnd : nat -> Z.
Variables (depth k : nat) (count : Z) (allow_duplicates : bool).
Variable all_names : list str.
Variables (max_length min_length : Z) (start_with end_with : str).

Let loop := attempt_loop rnd depth k count allow_duplicates all_names
                         max_length min_length start_with end_with.

Lemma attempt_loop_bounds remaining generated done ch pos :
  let run := loop remaining generated done ch pos in
  (done <= attempts run <= done + remaining)%nat
  /\ generated ⊆ generated_names run
  /\ (size (generated_names run) <= size generated + (attempts run - done))%nat
  /\ Z.of_nat (size (generated_names run))
     <= Z.max (Z.of_nat (size generated)) count
  /\ (run_end run = ConditionFailed ->
      count <= Z.of_nat (size (generated_names run))
      \/ attempts run = (done + remaining)%nat).
Proof.
  subst loop. cbv zeta. revert generated done ch pos.
  induction remaining as [|remaining IH]; intros generated done ch pos;
    cbn [attempt_loop].
  { cbn [attempts generated_names run_end].
    repeat split; first [lia|reflexivity]. }
  destruct (Z.ltb_spec (Z.of_nat (size generated)) count) as [Hlt|Hge];
    cbn [negb].
  2:{ cbn [attempts generated_names run_end].
      repeat split; first [lia|reflexivity]. }
  destruct (generate rnd depth k ch pos max_length min_length
                     start_with end_with) as [[[name|e|] ch'] pos'].
  - match goal with
    | |- context [attempt_loop _ _ _ _ _ _ _ _ _ _ _ ?g _ _ _] =>
        set (generated' := g)
    end.
    assert (Hsub : generated ⊆ generated').
    { subst generated'. destruct (_ && _);
        [apply union_subseteq_r|reflexivity]. }
    assert (Hsize : (size generated' <= S (size generated))%nat).
    { subst generated'. destruct (_ && _); [apply size_add_name|lia]. }
    destruct (IH generated' (S done) ch' pos') as (H1 & H2 & H3 & H4 & H5).
    repeat split; try lia; [now transitivity generated'|].
    intros Hend. destruct (H5 Hend); [now left|right; lia].
  - destruct e; cbn [attempts generated_names run_end];
      repeat split; first [lia|reflexivity|discriminate].
  - cbn [attempts generated_names run_end].
    repeat split; first [lia|reflexivity|discriminate].
Qed.

(** Every name added during the loop came back from a call of [generate]
    on a table that extends the first one, and passed the duplicate test. *)
Lemma attempt_loop_elements (P : str -> Prop) remaining generated done ch0 ch pos :
  (forall c q r c' q',
     extends ch0 c ->
     generate rnd depth k c q max_length min_length start_with end_with
       = (Returned r, c', q') -> P r) ->
  extends ch0 ch ->
  (forall x, x ∈ generated ->
             P x /\ (allow_duplicates = false -> x ∉ all_names)) ->
  forall x, x ∈ generated_names (loop remaining generated done ch pos) ->
            P x /\ (allow_duplicates = false -> x ∉ all_names).
Proof.
  subst loop. intros HP. revert generated done ch pos.
  induction remaining as [|remaining IH]; intros generated done ch pos Hext Hgen;
    cbn [attempt_loop]; [exact Hgen|].
  destruct (negb _); [exact Hgen|].
  destruct (generate rnd depth k ch pos max_length min_length
                     start_with end_with) as [[[name|e|] ch'] pos'] eqn:E;
    [|destruct e; exact Hgen|exact Hgen].
  apply IH.
  - eapply extends_trans; [exact Hext|]. eapply generate_extends; eauto.
  - intros x Hx.
    destruct (nonempty name
              && (allow_duplicates || negb (bool_decide (name ∈ all_names))))
      eqn:Hadd; [|now apply Hgen].
    apply elem_of_union in Hx as [Hx|Hx]; [|now apply Hgen].
    apply elem_of_singleton in Hx. subst x.
    split; [eapply HP; eauto|].
    intros ->. apply andb_prop in Hadd as [_ Hadd]. cbn [orb] in Hadd.
    apply negb_true_iff, bool_decide_eq_false in Hadd. exact Hadd.
Qed.

End AttemptLoop.

(** [X16] The loop that collects names is bounded: it makes at most
    [10 * count] attempts and keeps at most [count] names, at most one per
    attempt; when its condition fails, either [count] names are there or
    all attempts are used. *)
Theorem collect_names_is_bounded rnd depth k count allow_duplicates all_names
    max_length min_length start_with end_with ch pos :
  let run := collect_names rnd depth k count allow_duplicates all_names
                           max_length min_length start_with end_with ch pos in
  (attempts run <= Z.to_nat (count * 10))%nat
  /\ Z.of_nat (size (generated_names run)) <= Z.max 0 count
  /\ (size (generated_names run) <= attempts run)%nat
  /\ (run_end run = ConditionFailed ->
      count <= Z.of_nat (size (generated_names run))
      \/ attempts run = Z.to_nat (count * 10)).
Proof.
  cbv zeta. unfold collect_names.
  destruct (attempt_loop_bounds rnd depth k count allow_duplicates all_names
              max_length min_length start_with end_with
              (Z.to_nat (count * 10)) ∅ 0%nat ch pos)
    as (H1 & _ & H3 & H4 & H5).
  rewrite size_empty in *. cbn [Z.of_nat] in H4.
  repeat split; try lia. intros Hend. destruct (H5 Hend); [now left|right; lia].
Qed.

(** [X17] Every collected name is a name that [generate] returned: it is not
    empty, starts with the cleaned prefix and ends with the cleaned suffix
    once lower-cased, is no longer than the larger of [max_length] and the
    length of the prefix, and, unless duplicates are allowed, is not one
    of the names given to the loop. *)
Theorem collected_names_meet_constraints rnd depth k count allow_duplicates
    all_names max_length min_length start_with end_with ch pos name :
  name ∈ generated_names
           (collect_names rnd depth k count allow_duplicates all_names
                          max_length min_length start_with end_with ch pos) ->
  name <> []
  /\ startswith (lower name) (clean_constraint start_with) = true
  /\ (clean_constraint end_with = []
      \/ endswith (lower name) (clean_constraint end_with) = true)
  /\ Z.of_nat (length name)
     <= Z.max max_length (Z.of_nat (length (clean_constraint start_with)))
  /\ (allow_duplicates = false -> name ∉ all_names).
Proof.
  unfold collect_names. intros H.
  pose proof (attempt_loop_elements rnd depth k count allow_duplicates
                all_names max_length min_length start_with end_with
                (fun r => r <> []
                   /\ startswith (lower r) (clean_constraint start_with) = true
                   /\ (clean_constraint end_with = []
                       \/ endswith (lower r) (clean_constraint end_with) = true)
                   /\ Z.of_nat (length r)
                      <= Z.max max_length
                           (Z.of_nat (length (clean_constraint start_with))))
                (Z.to_nat (count * 10)) ∅ 0%nat ch ch pos) as Hel.
  destruct (Hel ltac:(intros; eapply generate_returned_facts; eauto)
                (extends_refl ch)
                ltac:(intros x Hx; apply elem_of_empty in Hx; contradiction)
                name H)
    as [(H1 & H2 & H3 & H4) H5].
  repeat split; assumption.
Qed.

(** [X18] A run that cannot produce anything.  With [count <= 0] the loop
    body never runs.  Otherwise an empty table, or a prefix or suffix that
    fails validation, stops the loop at the first attempt: no name is
    collected and the attempt is not counted. *)
Theorem collect_names_stops_at_once rnd depth k count allow_duplicates
    all_names max_length min_length start_with end_with ch pos :
  let run := collect_names rnd depth k count allow_duplicates all_names
                           max_length min_length start_with end_with ch pos in
  (count <= 0 -> run = mkRun ConditionFailed ∅ 0%nat ch pos)
  /\ (1 <= count -> ch = ∅ ->
      run = mkRun (ValueErrorCaught ModelNotTrained) ∅ 0%nat ch pos)
  /\ (1 <= count -> ch <> ∅ -> ~ constraint_ok start_with ->
      run = mkRun (ValueErrorCaught InvalidStart) ∅ 0%nat ch pos)
  /\ (1 <= count -> ch <> ∅ -> constraint_ok start_with ->
      ~ constraint_ok end_with ->
      run = mkRun (ValueErrorCaught InvalidEnd) ∅ 0%nat ch pos).
Proof.
  cbv zeta. unfold collect_names.
  assert (Hstep : 1 <= count ->
            exists n, Z.to_nat (count * 10) = S n
                      /\ negb (Z.of_nat (size (∅ : gset (list ascii))) <? count)
                         = false).
  { intros Hc. exists (Z.to_nat (count * 10) - 1)%nat. split; [lia|].
    rewrite size_empty. apply negb_false_iff, Z.ltb_lt. cbn. lia. }
  split; [|split; [|split]].
  - intros Hc. now replace (Z.to_nat (count * 10)) with 0%nat by lia.
  - intros Hc ->. destruct (Hstep Hc) as (n & -> & E).
    cbn [attempt_loop]. rewrite E. now rewrite generate_on_empty_table.
  - intros Hc Hch Hsw. destruct (Hstep Hc) as (n & -> & E).
    cbn [attempt_loop]. rewrite E.
    now rewrite (generate_on_invalid_start _ _ _ _ _ _ _ _ _ Hch Hsw).
  - intros Hc Hch Hsw Hew. destruct (Hstep Hc) as (n & -> & E).
    cbn [attempt_loop]. rewrite E.
    now rewrite (generate_on_invalid_end _ _ _ _ _ _ _ _ _ Hch Hsw Hew).
Qed.

(** ** The rows of a name file *)

Section RowsFacts.

Variable int : str -> option Z.
Variable language : str.

Lemma read_row_ok acc numbered :
  rows_ok acc -> rows_ok (read_row int language acc numbered).
Proof.
  destruct acc as [ns ws], numbered as [i row]. unfold read_row.
  intros Hok. destruct (_ && _); [exact Hok|].
  destruct row as [|c0 [|c1 row]]; try exact Hok.
  destruct (nonempty (field c0)) eqn:Hne; cbn [negb orb]; [|exact Hok].
  destruct (bool_decide (lower (field c0) ∈ header_words)) eqn:Hhead;
    [exact Hok|].
  destruct (parse_prevalence int (field c1)) as [w|]; [|exact Hok].
  destruct (Z.ltb_spec 0 w); [|exact Hok].
  unfold rows_ok in *. destruct Hok as (H1 & H2 & H3). cbn [fst snd] in *.
  split; [|split].
  - rewrite !length_app. cbn [length]. lia.
  - apply Forall_app; split; [exact H2|]. now repeat constructor.
  - apply Forall_app; split; [exact H3|]. repeat constructor.
    + now apply nonempty_true.
    + now apply bool_decide_eq_false in Hhead.
Qed.

Lemma read_row_grows acc numbered :
  (length (fst (read_row int language acc numbered)) <= S (length (fst acc)))%nat
  /\ exists more, fst (read_row int language acc numbered) = fst acc ++ more.
Proof.
  destruct acc as [ns ws], numbered as [i row]. unfold read_row.
  assert (Hsame : (length ns <= S (length ns))%nat
                  /\ exists more, ns = ns ++ more)
    by (split; [lia|exists []; now rewrite app_nil_r]).
  destruct (_ && _); [exact Hsame|].
  destruct row as [|c0 [|c1 row]]; try exact Hsame.
  destruct (_ || _); [exact Hsame|].
  destruct (parse_prevalence int (field c1)) as [w|]; [|exact Hsame].
  destruct (0 <? w); [|exact Hsame]. cbn [fst].
  split; [rewrite length_app; cbn [length]; lia|now eexists].
Qed.

Lemma read_rows_ok rows acc :
  rows_ok acc -> rows_ok (read_rows int language rows acc).
Proof.
  unfold read_rows. apply fold_left_invariant.
  intros a b _. apply read_row_ok.
Qed.

Lemma read_rows_length numbered acc :
  (length (fst (fold_left (read_row int language) numbered acc))
   <= length (fst acc) + length numbered)%nat.
Proof.
  revert acc; induction numbered as [|x l IH]; intros acc;
    cbn [fold_left length]; [lia|].
  specialize (IH (read_row int language acc x)).
  destruct (read_row_grows acc x) as [H _]. lia.
Qed.

End RowsFacts.

(** [X19] What the rows give.  Whatever [int] does and whatever the rows
    are, the two lists built from empty lists have the same length, every
    weight is positive, no name is empty or a header word, and there are no
    more names than rows. *)
Theorem read_rows_gives_a_corpus int language rows :
  let corpus := read_rows int language rows ([], []) in
  length (fst corpus) = length (snd corpus)
  /\ Forall (fun w => 0 < w) (snd corpus)
  /\ Forall (fun n : str => n <> [] /\ lower n ∉ header_words) (fst corpus)
  /\ (length (fst corpus) <= length rows)%nat.
Proof.
  cbv zeta.
  destruct (read_rows_ok int language rows ([], [])) as (H1 & H2 & H3).
  { repeat split; constructor. }
  repeat split; try assumption.
  unfold read_rows.
  pose proof (read_rows_length int language
                (combine (seq 0 (length rows)) rows) ([], [])) as H.
  rewrite length_combine, length_seq in H. cbn [fst length] in H. lia.
Qed.

(** [X20] [train] accepts what the rows give: it never raises on the two
    lists, and a table of positive weights stays one. *)
Theorem train_accepts_rows int language rows m :
  let corpus := read_rows int language rows ([], []) in
  exists m',
    train m (fst corpus) (Some (snd corpus)) = inr m'
    /\ (weights_positive (chains m) -> weights_positive (chains m')).
Proof.
  cbv zeta.
  destruct (read_rows_ok int language rows ([], [])) as (H1 & H2 & _).
  { repeat split; constructor. }
  rewrite (train_ok _ _ _ H1). eexists. split; [reflexivity|].
  intros Hpos. eapply train_positive; [exact Hpos|exact H2|].
  now rewrite (train_ok _ _ _ H1).
Qed.

(** ** From the name files to the training corpus *)

Lemma rows_ok_nil : rows_ok ([], []).
Proof. repeat split; constructor. Qed.

Lemma rows_ok_app p q : rows_ok p -> rows_ok q -> rows_ok (corpus_app p q).
Proof.
  unfold rows_ok, corpus_app. cbn [fst snd].
  intros (H1 & H2 & H3) (K1 & K2 & K3). repeat split.
  - rewrite !length_app. lia.
  - apply Forall_app; now split.
  - apply Forall_app; now split.
Qed.

Section ReadAppends.

Variable int : str -> option Z.
Variable language : str.

Lemma read_row_appends acc numbered :
  read_row int language acc numbered
  = corpus_app acc (read_row int language ([], []) numbered).
Proof.
  destruct acc as [ns ws], numbered as [i row]. unfold read_row, corpus_app.
  assert (Hsame : (ns, ws) = (fst (ns, ws) ++ fst (@nil str, @nil Z),
                              snd (ns, ws) ++ snd (@nil str, @nil Z)))
    by (cbn [fst snd]; now rewrite !app_nil_r).
  destruct (_ && _); [exact Hsame|].
  destruct row as [|c0 [|c1 row]]; try exact Hsame.
  destruct (_ || _); [exact Hsame|].
  destruct (parse_prevalence int (field c1)) as [w|]; [|exact Hsame].
  destruct (0 <? w); [|exact Hsame]. reflexivity.
Qed.

Lemma read_fold_appends numbered acc :
  fold_left (read_row int language) numbered acc
  = corpus_app acc (fold_left (read_row int language) numbered ([], [])).
Proof.
  revert acc; induction numbered as [|x l IH]; intros acc; cbn [fold_left].
  - unfold corpus_app. cbn [fst snd]. rewrite !app_nil_r. now destruct acc.
  - rewrite IH, (IH (read_row _ _ ([], []) x)), (read_row_appends acc x).
    unfold corpus_app. cbn [fst snd]. now rewrite !app_assoc.
Qed.

Lemma read_rows_appends rows acc :
  read_rows int language rows acc
  = corpus_app acc (read_rows int language rows ([], [])).
Proof. apply read_fold_appends. Qed.

End ReadAppends.

Section FilesFacts.

Variable int : str -> option Z.
Variable files : str -> str -> FileContent.

Lemma load_or_empty_ok language gender :
  rows_ok (default ([], []) (load_names_from_csv int files language gender)).
Proof.
  unfold load_names_from_csv. destruct (files language gender);
    cbn [default]; [apply rows_ok_nil| |]; repeat apply read_rows_ok;
    apply rows_ok_nil.
Qed.

Lemma load_names_by_language_ok language gender :
  map_Forall (fun _ p => rows_ok p)
             (load_names_by_language int files language gender).
Proof.
  unfold load_names_by_language. cbv zeta.
  repeat (destruct (bool_decide _));
    repeat (apply map_Forall_insert_2; [apply load_or_empty_ok|]);
    apply map_Forall_empty.
Qed.

Lemma get_or_empty_ok (names_data : NamesData) g :
  map_Forall (fun _ p => rows_ok p) names_data ->
  rows_ok (default ([], []) (names_data !! g)).
Proof.
  intros H. destruct (names_data !! g) as [p|] eqn:E; cbn [default];
    [exact (H _ _ E)|apply rows_ok_nil].
Qed.

Lemma merge_languages_ok fi sv :
  map_Forall (fun _ p => rows_ok p) fi ->
  map_Forall (fun _ p => rows_ok p) sv ->
  map_Forall (fun _ p => rows_ok p) (merge_languages fi sv).
Proof.
  intros Hfi Hsv. unfold merge_languages. apply fold_left_invariant;
    [|apply map_Forall_empty].
  intros nd g _ Hnd.
  pose proof (get_or_empty_ok fi g Hfi) as H1.
  pose proof (get_or_empty_ok sv g Hsv) as H2.
  destruct (default _ (fi !! g)) as [n1 w1], (default _ (sv !! g)) as [n2 w2].
  apply map_Forall_insert_2; [|exact Hnd].
  exact (rows_ok_app _ _ H1 H2).
Qed.

Lemma load_names_data_ok language gender :
  map_Forall (fun _ p => rows_ok p)
             (load_names_data int files language gender).
Proof.
  unfold load_names_data. destruct (str_eqb _ _).
  - apply merge_languages_ok; apply load_names_by_language_ok.
  - apply load_names_by_language_ok.
Qed.

Lemma combine_genders_ok (names_data : NamesData) gender :
  map_Forall (fun _ p => rows_ok p) names_data ->
  rows_ok (combine_genders names_data gender).
Proof.
  intros H. unfold combine_genders. apply fold_left_invariant;
    [|apply rows_ok_nil].
  intros acc g _ Hacc. destruct (names_data !! g) as [[n w]|] eqn:E;
    [|exact Hacc].
  destruct (bool_decide _); [|exact Hacc].
  exact (rows_ok_app acc (n, w) Hacc (H _ _ E)).
Qed.

Lemma load_corpus_ok language gender :
  rows_ok (load_corpus int files language gender).
Proof. apply combine_genders_ok, load_names_data_ok. Qed.

End FilesFacts.

Lemma selected gender g :
  bool_decide (gender ∈ [g; s2l "both"])
  = str_eqb gender g || str_eqb gender (s2l "both").
Proof.
  unfold str_eqb. apply eq_true_iff_eq.
  rewrite orb_true_iff, !bool_decide_eq_true, !elem_of_cons, elem_of_nil.
  tauto.
Qed.

Lemma read_rows_app int language before rest :
  exists more,
    read_rows int language (before ++ rest) ([], [])
    = corpus_app (read_rows int language before ([], [])) more.
Proof.
  unfold read_rows. rewrite length_app, seq_app.
  rewrite combine_app_same_length by now rewrite length_seq.
  rewrite fold_left_app, read_fold_appends. now eexists.
Qed.

Lemma total_prevalence_absent n entries :
  n ∉ map fst entries -> total_prevalence n entries = 0.
Proof.
  unfold total_prevalence. induction entries as [|[n' w] l IH];
    cbn [map List.filter fst fold_right]; [reflexivity|].
  rewrite not_elem_of_cons. intros [Hn Hl]. unfold str_eqb.
  rewrite bool_decide_eq_false_2 by congruence. now apply IH.
Qed.

Lemma add_prevalences_app lookup ns1 ws1 ns2 ws2 :
  length ns1 = length ws1 ->
  add_prevalences lookup (ns1 ++ ns2) (ws1 ++ ws2)
  = add_prevalences (add_prevalences lookup ns1 ws1) ns2 ws2.
Proof.
  intros H. unfold add_prevalences.
  now rewrite combine_app_same_length, fold_left_app.
Qed.

(** [X21] The pass that follows a decoding error starts from the lists as
    the first pass left them: what the loader returns is the names and
    weights of the rows read before the error, followed by those of the
    file read again.  When the file read again begins with the same rows,
    their names are listed twice, each with its weight. *)
Theorem second_pass_keeps_first_rows int files language gender before rows :
  files language gender = DecodedAgain before rows ->
  let first := read_rows int language before ([], []) in
  load_names_from_csv int files language gender
  = Some (corpus_app first (read_rows int language rows ([], [])))
  /\ (forall rest, rows = before ++ rest ->
      exists more,
        load_names_from_csv int files language gender
        = Some (corpus_app first (corpus_app first more))).
Proof.
  intros Hfile. cbv zeta. unfold load_names_from_csv. rewrite Hfile.
  rewrite read_rows_appends. split; [reflexivity|].
  intros rest ->. destruct (read_rows_app int language before rest)
    as [more ->]. now exists more.
Qed.

(** [X22] [main] never hands [train] lists it refuses.  Whatever the files
    hold, the names and weights that [main] puts together have the same
    length and every weight is positive; [main] either stops for want of
    names or trains a fresh model without error, and the table it gets has
    positive weights only. *)
Theorem main_trains_without_error int files k language gender :
  let corpus := load_corpus int files language gender in
  length (fst corpus) = length (snd corpus)
  /\ Forall (fun w => 0 < w) (snd corpus)
  /\ ((fst corpus = [] /\ main_train int files k language gender = None)
      \/ exists m',
           main_train int files k language gender = Some (inr m')
           /\ train (__init__ k) (fst corpus) (Some (snd corpus)) = inr m'
           /\ reachable k m'
           /\ weights_positive (chains m')).
Proof.
  cbv zeta. destruct (load_corpus_ok int files language gender)
    as (H1 & H2 & _).
  split; [exact H1|]. split; [exact H2|].
  unfold main_train.
  destruct (load_corpus int files language gender) as [ns ws].
  cbn [fst snd] in *. destruct ns as [|n ns]; [left; now split|right].
  eexists. rewrite (train_ok _ _ _ H1). split; [reflexivity|].
  split; [reflexivity|]. split.
  - eapply reach_train; [apply reach_init|]. now rewrite (train_ok _ _ _ H1).
  - apply (train_positive (__init__ k) (n :: ns) ws);
      [exact weights_positive_empty|exact H2|].
    now rewrite (train_ok _ _ _ H1).
Qed.

(** [X23] Which files make the corpus.  For one language the boys' names
    come from its male file and the girls' names from its female file; for
    ['both'] each gender has the Finnish file followed by the Swedish
    one.  A gender of ['both'] gives the boys followed by the girls, one of
    ['boys'] or ['girls'] that gender alone, anything else nothing.  A
    missing file counts as an empty one. *)
Theorem load_corpus_by_selection int files language gender :
  let load l g := default ([], []) (load_names_from_csv int files l g) in
  let of_gender g :=
    if str_eqb language (s2l "both")
    then corpus_app (load (s2l "finnish") g) (load (s2l "swedish") g)
    else load language g in
  load_corpus int files language gender
  = if str_eqb gender (s2l "both")
    then corpus_app (of_gender (s2l "male")) (of_gender (s2l "female"))
    else if str_eqb gender (s2l "boys") then of_gender (s2l "male")
    else if str_eqb gender (s2l "girls") then of_gender (s2l "female")
    else ([], []).
Proof.
  cbv zeta.
  unfold load_corpus, load_names_data, combine_genders, merge_languages,
    load_names_by_language.
  cbn [fold_left]. rewrite !selected.
  generalize (default ([], [])
                (load_names_from_csv int files language (s2l "male"))).
  generalize (default ([], [])
                (load_names_from_csv int files language (s2l "female"))).
  generalize (default ([], [])
                (load_names_from_csv int files (s2l "finnish") (s2l "male"))).
  generalize (default ([], [])
                (load_names_from_csv int files (s2l "finnish") (s2l "female"))).
  generalize (default ([], [])
                (load_names_from_csv int files (s2l "swedish") (s2l "male"))).
  generalize (default ([], [])
                (load_names_from_csv int files (s2l "swedish") (s2l "female"))).
  intros [a1 b1] [a2 b2] [a3 b3] [a4 b4] [a5 b5] [a6 b6].
  destruct (str_eqb language (s2l "both")); unfold str_eqb;
    destruct (decide (gender = s2l "both")) as [->|Hboth];
    try reflexivity;
    rewrite (bool_decide_eq_false_2 _ Hboth);
    destruct (decide (gender = s2l "boys")) as [->|Hboys];
    try reflexivity;
    rewrite (bool_decide_eq_false_2 _ Hboys);
    destruct (decide (gender = s2l "girls")) as [->|Hgirls];
    try reflexivity;
    rewrite (bool_decide_eq_false_2 _ Hgirls); reflexivity.
Qed.

(** [X24] What a prevalence lookup holds after the loop over the zipped
    names and weights: a name that occurs is mapped to what the lookup held
    for it (0 when absent) plus the total of its weights; the entry of any
    other name is left as it was. *)
Theorem prevalence_is_total_weight lookup ns ws n :
  add_prevalences lookup ns ws !! n
  = if bool_decide (n ∈ map fst (combine ns ws))
    then Some (default 0 (lookup !! n)
               + total_prevalence n (combine ns ws))
    else lookup !! n.
Proof.
  unfold add_prevalences. generalize (combine ns ws) as entries.
  intros entries; revert lookup.
  induction entries as [|[n' w] l IH]; intros lookup;
    cbn [fold_left map fst]; [reflexivity|].
  rewrite IH. unfold total_prevalence. cbn [List.filter fst]. unfold str_eqb.
  pose proof (total_prevalence_absent n l) as Habsent.
  unfold total_prevalence, str_eqb in Habsent.
  destruct (decide (n' = n)) as [->|Hne].
  - rewrite lookup_insert_eq, (bool_decide_eq_true_2 (n = n)) by reflexivity.
    rewrite (bool_decide_eq_true_2 (n ∈ n :: _))
      by (apply elem_of_cons; now left).
    cbn [map snd fold_right default from_option]. unfold id.
    destruct (decide (n ∈ map fst l)) as [Hin|Hout].
    + rewrite (bool_decide_eq_true_2 _ Hin). f_equal. lia.
    + rewrite (bool_decide_eq_false_2 _ Hout), (Habsent Hout). f_equal. lia.
  - rewrite lookup_insert_ne, (bool_decide_eq_false_2 (n' = n)) by exact Hne.
    destruct (decide (n ∈ map fst l)) as [Hin|Hout].
    + rewrite (bool_decide_eq_true_2 _ Hin).
      rewrite (bool_decide_eq_true_2 (n ∈ n' :: _))
        by (apply elem_of_cons; now right).
      reflexivity.
    + rewrite (bool_decide_eq_false_2 _ Hout).
      rewrite (bool_decide_eq_false_2 (n ∈ n' :: _)); [reflexivity|].
      rewrite not_elem_of_cons. split; [congruence|exact Hout].
Qed.

Section LookupsFacts.

Variable int : str -> option Z.
Variable files : str -> str -> FileContent.

Lemma lookup_boys language gender :
  load_names_by_language int files language gender !! s2l "boys"
  = if bool_decide (gender ∈ [s2l "boys"; s2l "both"])
    then Some (default ([], [])
                 (load_names_from_csv int files language (s2l "male")))
    else None.
Proof.
  unfold load_names_by_language. cbv zeta.
  destruct (bool_decide (gender ∈ [s2l "boys"; s2l "both"]));
    destruct (bool_decide (gender ∈ [s2l "girls"; s2l "both"]));
    rewrite ?lookup_insert_ne by discriminate;
    rewrite ?lookup_insert_eq, ?lookup_empty; reflexivity.
Qed.

Lemma lookup_girls language gender :
  load_names_by_language int files language gender !! s2l "girls"
  = if bool_decide (gender ∈ [s2l "girls"; s2l "both"])
    then Some (default ([], [])
                 (load_names_from_csv int files language (s2l "female")))
    else None.
Proof.
  unfold load_names_by_language. cbv zeta.
  destruct (bool_decide (gender ∈ [s2l "boys"; s2l "both"]));
    destruct (bool_decide (gender ∈ [s2l "girls"; s2l "both"]));
    rewrite ?lookup_insert_eq; rewrite ?lookup_insert_ne by discriminate;
    rewrite ?lookup_empty; reflexivity.
Qed.

Lemma prevalence_of_selection (language gender : str) (d : Prevalence) :
  add_prevalences d
    (fst (combine_genders (load_names_by_language int files language gender)
                          gender))
    (snd (combine_genders (load_names_by_language int files language gender)
                          gender))
  = let boys := default ([], [])
                  (load_names_by_language int files language gender
                     !! s2l "boys") in
    let girls := default ([], [])
                   (load_names_by_language int files language gender
                      !! s2l "girls") in
    add_prevalences (add_prevalences d (fst boys) (snd boys))
                    (fst girls) (snd girls).
Proof.
  cbv zeta. unfold combine_genders. cbn [fold_left].
  rewrite lookup_boys, lookup_girls.
  destruct (load_or_empty_ok int files language (s2l "male")) as (L1 & _).
  revert L1.
  generalize (default ([], [])
                (load_names_from_csv int files language (s2l "male"))).
  generalize (default ([], [])
                (load_names_from_csv int files language (s2l "female"))).
  intros [a2 b2] [a1 b1]. cbn [fst snd]. intros L1.
  destruct (bool_decide (gender ∈ [s2l "boys"; s2l "both"]));
    destruct (bool_decide (gender ∈ [s2l "girls"; s2l "both"]));
    cbn [fst snd app default from_option id];
    rewrite ?add_prevalences_app by exact L1; reflexivity.
Qed.

End LookupsFacts.

(** [X25] The two lookups follow the training corpus: the lookup of a
    language is built from the very names and weights that [main] trains
    on for that language and the chosen gender, and for a single language
    the lookup of the other one stays empty. *)
Theorem prevalence_lookups_follow_corpus int files language gender :
  let lookup_of l :=
    add_prevalences ∅ (fst (load_corpus int files l gender))
                    (snd (load_corpus int files l gender)) in
  prevalence_lookups int files language gender
  = if str_eqb language (s2l "both")
    then (lookup_of (s2l "finnish"), lookup_of (s2l "swedish"))
    else if str_eqb language (s2l "finnish") then (lookup_of language, ∅)
    else (∅, lookup_of language).
Proof.
  cbv zeta. unfold prevalence_lookups, load_corpus.
  destruct (decide (language = s2l "both")) as [->|Hl].
  - change (str_eqb (s2l "both") (s2l "both")) with true. cbv iota.
    unfold load_names_data.
    change (str_eqb (s2l "finnish") (s2l "both")) with false.
    change (str_eqb (s2l "swedish") (s2l "both")) with false. cbv iota.
    rewrite !prevalence_of_selection. cbv zeta. cbn [fold_left].
    destruct (default _ (load_names_by_language _ _ (s2l "finnish") _
                           !! s2l "boys")) as [a1 b1].
    destruct (default _ (load_names_by_language _ _ (s2l "finnish") _
                           !! s2l "girls")) as [a2 b2].
    destruct (default _ (load_names_by_language _ _ (s2l "swedish") _
                           !! s2l "boys")) as [a3 b3].
    destruct (default _ (load_names_by_language _ _ (s2l "swedish") _
                           !! s2l "girls")) as [a4 b4].
    reflexivity.
  - assert (Hb : str_eqb language (s2l "both") = false)
      by (apply bool_decide_eq_false_2; exact Hl).
    unfold load_names_data. rewrite !Hb.
    rewrite !prevalence_of_selection. cbv zeta. cbn [fold_left].
    destruct (load_names_by_language _ _ language _ !! s2l "boys")
      as [[a1 b1]|];
      destruct (load_names_by_language _ _ language _ !! s2l "girls")
        as [[a2 b2]|];
      destruct (str_eqb language (s2l "finnish")); reflexivity.
Qed.

(** ** The name files of the examples *)

Lemma sample_load_lists_first_row_twice :
  load_names_from_csv decimal sample_files (s2l "finnish") (s2l "male")
  = Some ([s2l "Juha"; s2l "Juha"; s2l "Aino"], [29887; 29887; 12]).
Proof. vm_compute. reflexivity. Qed.

Lemma sample_load_corpus :
  load_corpus decimal sample_files (s2l "both") (s2l "both")
  = ([s2l "Juha"; s2l "Juha"; s2l "Aino"; s2l "Aino"],
     [29887; 29887; 12; 5]).
Proof. vm_compute. reflexivity. Qed.

Lemma second_pass_keeps_first_rows_witness :
  sample_files (s2l "finnish") (s2l "male")
  = DecodedAgain (firstn 1 sample_rows) sample_rows
  /\ sample_rows = firstn 1 sample_rows ++ skipn 1 sample_rows
  /\ exists more,
       load_names_from_csv decimal sample_files (s2l "finnish") (s2l "male")
       = Some (corpus_app
                 (read_rows decimal (s2l "finnish") (firstn 1 sample_rows)
                            ([], []))
                 (corpus_app
                    (read_rows decimal (s2l "finnish")
                               (firstn 1 sample_rows) ([], []))
                    more)).
Proof.
  split; [reflexivity|]. split; [reflexivity|].
  exact (proj2 (second_pass_keeps_first_rows decimal sample_files
                  (s2l "finnish") (s2l "male") (firstn 1 sample_rows)
                  sample_rows eq_refl)
               (skipn 1 sample_rows) eq_refl).
Defined.

(** ** The further theorems at work on the sample models *)

Lemma juha_more_trained :
  train juha_model more_names (Some more_weights) = inr juha_more_model.
Proof. now rewrite train_ok. Qed.

Lemma juha_swapped_trained :
  train (__init__ 2) juha_names_swapped (Some juha_weights_swapped)
  = inr juha_swapped_model.
Proof. now rewrite train_ok. Qed.

Lemma juha_xy_absent : chains juha_model !! s2l "xy" = None.
Proof. vm_compute. reflexivity. Qed.

Lemma returned_name_is_chain_path_witness :
  generate spread_draws 5 2 (chains juha_model) 0 10 2 (s2l "ju") []
  = (Returned (s2l "Jussi"), chains juha_model, 4%nat)
  /\ s2l "Jussi" <> []
  /\ exists rest,
       s2l "Jussi" = title (clean_constraint (s2l "ju") ++ rest)
       /\ chain_path (chains juha_model)
                     (snd (seed 2 (clean_constraint (s2l "ju")))) rest.
Proof.
  split; [exact juha_prefix_run|].
  exact (returned_name_is_chain_path spread_draws 5 2 (chains juha_model) 0
           10 2 (s2l "ju") [] (s2l "Jussi") (chains juha_model) 4%nat
           juha_prefix_run).
Defined.

Lemma dead_end_prefix_comes_back_witness :
  chains juha_model <> ∅
  /\ clean_constraint (s2l " XY ") <> []
  /\ constraint_ok (s2l " XY ")
  /\ no_continuation (chains juha_model)
                     (snd (seed 2 (clean_constraint (s2l " XY "))))
  /\ exists ch',
       generate spread_draws 5 2 (chains juha_model) 0 10 5 (s2l " XY ") []
       = (Returned (title (clean_constraint (s2l " XY "))), ch', 0%nat)
       /\ extends (chains juha_model) ch'.
Proof.
  assert (H1 : clean_constraint (s2l " XY ") <> []) by (vm_compute; discriminate).
  assert (H2 : constraint_ok (s2l " XY ")) by (vm_compute; reflexivity).
  assert (H3 : no_continuation (chains juha_model)
                 (snd (seed 2 (clean_constraint (s2l " XY ")))))
    by (left; exact juha_xy_absent).
  split; [exact juha_nonempty|]. split; [exact H1|]. split; [exact H2|].
  split; [exact H3|].
  exact (dead_end_prefix_comes_back spread_draws 5 2 (chains juha_model) 0
           10 5 (s2l " XY ") [] juha_nonempty H1 H2 eq_refl (or_intror H3)).
Defined.

Lemma dead_end_prefix_with_other_suffix_never_returns_witness :
  constraint_ok (s2l "xy") /\ constraint_ok (s2l "o")
  /\ endswith (lower (title (clean_constraint (s2l "xy"))))
              (clean_constraint (s2l "o")) = false
  /\ exists ch',
       generate spread_draws 1000 2 (chains juha_model) 0 10 2
                (s2l "xy") (s2l "o") = (RecursionExceeded, ch', 0%nat)
       /\ extends (chains juha_model) ch'.
Proof.
  assert (H1 : clean_constraint (s2l "xy") <> []) by (vm_compute; discriminate).
  assert (H2 : clean_constraint (s2l "o") <> []) by (vm_compute; discriminate).
  assert (H3 : constraint_ok (s2l "xy")) by (vm_compute; reflexivity).
  assert (H4 : constraint_ok (s2l "o")) by (vm_compute; reflexivity).
  assert (H5 : endswith (lower (title (clean_constraint (s2l "xy"))))
                        (clean_constraint (s2l "o")) = false)
    by (vm_compute; reflexivity).
  split; [exact H3|]. split; [exact H4|]. split; [exact H5|].
  exact (dead_end_prefix_with_other_suffix_never_returns spread_draws 1000 2
           (chains juha_model) 0 10 2 (s2l "xy") (s2l "o") juha_nonempty
           H1 H2 H3 H4 (or_intror (or_introl juha_xy_absent)) H5).
Defined.

Lemma train_retains_cleaned_accepted_names_witness :
  train juha_model more_names (Some more_weights) = inr juha_more_model
  /\ names juha_more_model
     = map _clean_name (List.filter _is_valid_name more_names)
  /\ order juha_more_model = order juha_model
  /\ (length (names juha_more_model) <= length more_names)%nat.
Proof.
  split; [exact juha_more_trained|].
  exact (train_retains_cleaned_accepted_names juha_model more_names
           (Some more_weights) juha_more_model juha_more_trained).
Defined.

Lemma train_twice_is_train_on_both_witness :
  train (__init__ 2) juha_names (Some juha_weights) = inr juha_model
  /\ train juha_model more_names (Some more_weights) = inr juha_more_model
  /\ exists m12,
       train (__init__ 2) (juha_names ++ more_names)
             (Some (juha_weights ++ more_weights)) = inr m12
       /\ chains juha_more_model = chains m12
       /\ names m12 = names juha_model ++ names juha_more_model.
Proof.
  split; [exact juha_trained|]. split; [exact juha_more_trained|].
  exact (train_twice_is_train_on_both (__init__ 2) juha_names juha_weights
           juha_model more_names more_weights juha_more_model
           juha_trained juha_more_trained).
Defined.

Lemma train_only_adds_witness :
  train juha_model more_names (Some more_weights) = inr juha_more_model
  /\ forall context c,
       stored (chains juha_more_model) context c
       = stored (chains juha_model) context c
         + window_weight (order juha_model)
                         (combine more_names more_weights) context c.
Proof.
  split; [exact juha_more_trained|].
  exact (proj1 (train_only_adds juha_model more_names more_weights
                  juha_more_model juha_more_trained)).
Defined.

Lemma reachable_table_shape_witness :
  reachable 2 juha_model
  /\ order juha_model = 2%nat
  /\ Forall (fun n : str => n <> []) (names juha_model).
Proof.
  split; [exact juha_reachable|].
  destruct (reachable_table_shape 2 juha_model juha_reachable)
    as (H1 & _ & _ & H4).
  split; [exact H1|exact H4].
Defined.

Lemma train_ignores_corpus_order_witness :
  Permutation (combine juha_names juha_weights)
              (combine juha_names_swapped juha_weights_swapped)
  /\ chains juha_model = chains juha_swapped_model
  /\ Permutation (names juha_model) (names juha_swapped_model).
Proof.
  assert (H : Permutation (combine juha_names juha_weights)
                (combine juha_names_swapped juha_weights_swapped))
    by apply perm_swap.
  split; [exact H|].
  exact (train_ignores_corpus_order (__init__ 2) juha_names juha_weights
           juha_names_swapped juha_weights_swapped juha_model
           juha_swapped_model H juha_trained juha_swapped_trained).
Defined.

Lemma clean_name_is_stable_witness :
  _is_valid_name (s2l "  juha   pekka ") = true
  /\ _clean_name (s2l "  juha   pekka ") <> []
  /\ _clean_name (_clean_name (s2l "  juha   pekka "))
     = _clean_name (s2l "  juha   pekka ").
Proof.
  assert (H : _is_valid_name (s2l "  juha   pekka ") = true) by reflexivity.
  split; [exact H|].
  destruct (clean_name_is_stable (s2l "  juha   pekka ") H)
    as (H1 & _ & _ & H4 & _).
  split; [exact H1|exact H4].
Defined.

Lemma stats_after_train_witness :
  train juha_model more_names (Some more_weights) = inr juha_more_model
  /\ training_names_count (get_stats juha_more_model)
     = length (List.filter _is_valid_name more_names)
  /\ (training_names_count (get_stats juha_more_model)
      <= length more_names)%nat.
Proof.
  split; [exact juha_more_trained|].
  destruct (stats_after_train juha_model more_names (Some more_weights)
              juha_more_model juha_more_trained) as (H1 & H2 & _).
  split; [exact H1|exact H2].
Defined.

Lemma stats_average_name_length_witness :
  reachable 2 juha_model
  /\ names juha_model <> []
  /\ QArith_base.Qle (QArith_base.Qmake 1 1)
                     (average_name_length (get_stats juha_model)).
Proof.
  assert (H : names juha_model <> []) by (vm_compute; discriminate).
  split; [exact juha_reachable|]. split; [exact H|].
  exact (proj1 (proj2 (stats_average_name_length 2 juha_model juha_reachable))
               H).
Defined.

Lemma juha_run_holds_juho : s2l "Juho" ∈ generated_names juha_run.
Proof. apply (bool_decide_unpack _). vm_compute. exact I. Qed.

Lemma collected_names_meet_constraints_witness :
  s2l "Juho" ∈ generated_names juha_run
  /\ s2l "Juho" <> []
  /\ Z.of_nat (length (s2l "Juho"))
     <= Z.max 10 (Z.of_nat (length (clean_constraint [])))
  /\ s2l "Juho" ∉ [s2l "Juha"].
Proof.
  split; [exact juha_run_holds_juho|].
  destruct (collected_names_meet_constraints spread_draws 5 2 2 false
              [s2l "Juha"] 10 2 [] [] (chains juha_model) 0 (s2l "Juho")
              juha_run_holds_juho) as (H1 & _ & _ & H4 & H5).
  split; [exact H1|]. split; [exact H4|exact (H5 eq_refl)].
Defined.

Lemma invalid_constraint_raised_witness :
  (chains juha_model <> ∅
   /\ ~ Forall (fun c => is_letter c = true) (clean_constraint (s2l "j1")))
  /\ outcome_of (generate spread_draws 5 2 (chains juha_model) 0 10 2
                          (s2l "j1") []) = Raised InvalidStart.
Proof.
  assert (H : chains juha_model <> ∅
              /\ ~ Forall (fun c => is_letter c = true)
                          (clean_constraint (s2l "j1"))).
  { split; [exact juha_nonempty|]. intros H.
    rewrite List.Forall_forall in H.
    specialize (H "1"%char (or_intror (or_introl eq_refl))).
    vm_compute in H. discriminate H. }
  split; [exact H|].
  exact (proj2 (proj1 (invalid_constraint_raised spread_draws 5 2
                         (chains juha_model) 0 10 2 (s2l "j1") [])) H).
Defined.

Lemma collect_names_is_bounded_witness :
  run_end juha_run = ConditionFailed
  /\ (2 <= Z.of_nat (size (generated_names juha_run))
      \/ attempts juha_run = Z.to_nat (2 * 10)).
Proof.
  assert (H : run_end juha_run = ConditionFailed) by (vm_compute; reflexivity).
  split; [exact H|].
  exact (proj2 (proj2 (proj2 (collect_names_is_bounded spread_draws 5 2 2
           false [s2l "Juha"] 10 2 [] [] (chains juha_model) 0))) H).
Defined.

Lemma collect_names_stops_at_once_witness :
  1 <= 3
  /\ collect_names spread_draws 5 2 3 false [] 10 2 [] [] ∅ 0
     = mkRun (ValueErrorCaught ModelNotTrained) ∅ 0%nat ∅ 0%nat.
Proof.
  assert (H : 1 <= 3) by lia.
  split; [exact H|].
  exact (proj1 (proj2 (collect_names_stops_at_once spread_draws 5 2 3 false
                         [] 10 2 [] [] ∅ 0)) H eq_refl).
Defined.

Lemma sample_rows_read :
  read_rows decimal (s2l "finnish") sample_rows ([], [])
  = ([s2l "Juha"; s2l "Aino"], [29887; 12]).
Proof. vm_compute. reflexivity. Qed.

Lemma train_accepts_rows_witness :
  weights_positive (chains juha_model)
  /\ exists m',
       train juha_model
             (fst (read_rows decimal (s2l "finnish") sample_rows ([], [])))
             (Some (snd (read_rows decimal (s2l "finnish") sample_rows
                                   ([], []))))
       = inr m'
       /\ weights_positive (chains m').
Proof.
  split; [exact juha_positive|].
  destruct (train_accepts_rows decimal (s2l "finnish") sample_rows juha_model)
    as (m' & H1 & H2).
  exists m'. split; [exact H1|exact (H2 juha_positive)].
Defined.

Lemma invalid_example_is_skipped_witness :
  In "1"%char (s2l "x1") /\ is_name_char "1"%char = false
  /\ exists m',
       train (__init__ 2) ([s2l "Juha"] ++ s2l "x1" :: [s2l "Juho"])
             (Some ([100] ++ 7 :: [50])) = inr m'
       /\ train (__init__ 2) ([s2l "Juha"] ++ [s2l "Juho"])
                (Some ([100] ++ [50])) = inr m'
       /\ names m'
          = map _clean_name
                (List.filter _is_valid_name ([s2l "Juha"] ++ [s2l "Juho"]))
       /\ forall context next_char,
            stored (chains m') context next_char
            = stored (chains (__init__ 2)) context next_char
              + fold_right Z.add 0
                  (map (example_weight (order (__init__ 2)) context next_char)
                       (accepted_examples
                          (combine ([s2l "Juha"] ++ [s2l "Juho"])
                                   ([100] ++ [50])))).
Proof.
  assert (H1 : In "1"%char (s2l "x1")) by (right; left; reflexivity).
  assert (H2 : is_name_char "1"%char = false) by reflexivity.
  split; [exact H1|]. split; [exact H2|].
  exact (proj1 (invalid_example_is_skipped (__init__ 2) [s2l "Juha"] (s2l "x1")
                  [s2l "Juho"] [100] 7 [50] "1"%char eq_refl eq_refl H1 H2)).
Defined.
